(** * Variational fixed-point iteration (inferactively/core/inference.py)

    A shallow embedding of [update_posterior_states], [run_FPI] and
    [run_FPI_faster].  NumPy floats are read as real numbers: vectors are
    lists of reals, tensors map a multi-index to a real and carry their
    shape next to them (the solvers receive [Ns] as an argument of its own).
    The solvers are embedded for arguments of the forms and shapes their
    docstrings describe; the exceptions the dispatcher meets on its way to
    the loop are modelled by [result].  Not a number and the infinities of
    floating point have no counterpart among the reals: where a property
    depends on the argument of a logarithm being positive it says so.  The
    [print] calls of the solvers are left out, and so is the keyword
    argument [dF], which both solvers overwrite before they read it.  The
    while loop is followed with fuel; that [num_iter] iterations of fuel
    always suffice is proved below. *)

From Stdlib Require Import String Reals Lra Lia ZArith Bool Arith List.
Import ListNotations.

Open Scope R_scope.

(** ** Vectors and tensors *)

Definition vec := list R.
Definition index := list nat.
Definition tensor := index -> R.

(** [range(n)] *)
Definition range (n : nat) : list nat := seq 0 n.

(** [v[i]] for an index in range *)
Definition vget (v : vec) (i : nat) : R := nth i v 0.

(** [np.sum] of a 1-D array *)
Definition vsum (v : vec) : R := fold_right Rplus 0 v.

(** the sum over [i in range(n)] of [g i] *)
Definition rsum (n : nat) (g : nat -> R) : R := vsum (map g (range n)).

(** [a.dot(b)] of two 1-D arrays of one length; [b[:, np.newaxis]] only
    turns the result into a one-element array *)
Fixpoint vdot (a b : vec) : R :=
  match a, b with
  | x :: a', y :: b' => x * y + vdot a' b'
  | _, _ => 0
  end.

(** elementwise [a + b] *)
Fixpoint vadd (a b : vec) : vec :=
  match a, b with
  | x :: a', y :: b' => (x + y) :: vadd a' b'
  | _, _ => []
  end.

(** [np.ones(n) / n] *)
Definition flat (n : nat) : vec := repeat (1 / INR n) n.

(** the numerical floor added before every logarithm *)
Definition eps : R := 1e-16.

(** [np.log(v + 1e-16)] *)
Definition vlog (v : vec) : vec := map (fun x => ln (x + eps)) v.

(** [l[f] = v] for [f] in range; the loops below only use indices in range *)
Fixpoint list_set {T} (f : nat) (v : T) (l : list T) : list T :=
  match l, f with
  | [], _ => []
  | _ :: l', O => v :: l'
  | x :: l', S f' => x :: list_set f' v l'
  end.

(** [np.ones(shape)], an elementwise product, and [np.log(X + 1e-16)].
    The logarithm is that of NumPy where its argument is positive; at an
    argument that is not, NumPy gives not a number or minus infinity, which
    no real number stands for. *)
Definition tones : tensor := fun _ => 1.
Definition tmul (X Y : tensor) : tensor := fun ix => X ix * Y ix.
Definition tlog (X : tensor) : tensor := fun ix => ln (X ix + eps).

(** the sub-tensor [X[j]] *)
Definition slice (X : tensor) (j : nat) : tensor := fun rest => X (j :: rest).

(** ** The numeric primitives imported from inferactively.core *)

(** What [spm_dot] does with one axis: sum it out against a weight vector,
    or keep it, here at one fixed position of the result. *)
Inductive axis_action :=
| SumOut (q : vec)
| Keep (i : nat).

(** Modelled from the spec: [spm_dot], the generalized marginalization
    primitive, is not among the sources.  The axes are contracted one at a
    time, each weighted by its vector. *)
Fixpoint contract (Ns : list nat) (acts : list axis_action) (X : tensor) : R :=
  match Ns, acts with
  | n :: Ns', SumOut q :: acts' =>
      rsum n (fun j => vget q j * contract Ns' acts' (slice X j))
  | _ :: Ns', Keep i :: acts' => contract Ns' acts' (slice X i)
  | _, _ => X []
  end.

(** the actions of [spm_dot(X, qx, [f])] for entry [i] of the result,
    for the axes numbered from [k] on *)
Fixpoint omit_actions (k : nat) (qs : list vec) (f i : nat) : list axis_action :=
  match qs with
  | [] => []
  | q :: qs' =>
      (if Nat.eqb k f then Keep i else SumOut q) :: omit_actions (S k) qs' f i
  end.

(** Modelled from the spec: [spm_dot(X, qx, [f])], every axis but [f]
    summed out against the beliefs; the result has length [Ns[f]]. *)
Definition spm_dot_omit (Ns : list nat) (X : tensor) (qx : list vec) (f : nat) : vec :=
  map (fun i => contract Ns (omit_actions 0 qx f i) X) (range (nth f Ns O)).

(** Modelled from the spec: [spm_dot(X, qx)[0]], every axis summed out. *)
Definition spm_dot_all (Ns : list nat) (X : tensor) (qx : list vec) : R :=
  contract Ns (map SumOut qx) X.

(** Modelled from the spec: [spm_dot(A, obs, obs_mode=True)], the leading
    (outcome) axis of [A] contracted against the observation vector. *)
Definition spm_dot_obs (No_g : nat) (A : tensor) (obs : vec) : tensor :=
  fun ix => rsum No_g (fun o => A (o :: ix) * vget obs o).

(** the largest entry of a vector *)
Definition vmax (v : vec) : R := fold_right Rmax (hd 0 v) v.

(** Modelled from the spec: [softmax], the numerically stable softmax of a
    log-domain vector (shift by the largest entry, exponentiate,
    normalize), is not among the sources. *)
Definition softmax (v : vec) : vec :=
  let e := map (fun x => exp (x - vmax v)) v in
  map (fun y => y / vsum e) e.

(** ** Arrays as the callers pass them *)

(** a numeric array: its shape and its entries *)
Record ndarray := { shape : list nat; data : tensor }.

(** an array is numeric, or has [dtype == object] and holds arrays *)
Inductive pyarr (T : Type) :=
| Num (a : T)
| Obj (items : list T).
Arguments Num {T} a.
Arguments Obj {T} items.

Definition scalar0 : ndarray := {| shape := []; data := fun _ => 0 |}.

(** the array itself, as the single-modality branch hands it to [spm_dot].
    The branch is embedded for numeric arrays, the form [run_FPI] documents
    for one modality; what [spm_dot] makes of an object array handed to it
    whole is not specified, and the dispatcher below gives no outcome
    there (see [documented_forms]). *)
Definition whole {T} (d : T) (a : pyarr T) : T :=
  match a with
  | Num x => x
  | Obj l => hd d l
  end.

(** [A[g]] and [observation[g]] of the multi-modality branch *)
Definition A_item (A : pyarr ndarray) (g : nat) : ndarray :=
  match A with
  | Obj l => nth g l scalar0
  | Num a => {| shape := tl (shape a); data := slice (data a) g |}
  end.

Definition obs_item (observation : pyarr vec) (g : nat) : vec :=
  match observation with
  | Obj l => nth g l []
  | Num v => [vget v g]
  end.

(** [spm_dot(A_g, obs_g, obs_mode=True)] on an array with its shape *)
Definition obs_likelihood (A_g : ndarray) (obs_g : vec) : tensor :=
  spm_dot_obs (hd O (shape A_g)) (data A_g) obs_g.

(** ** The part shared by [run_FPI] and [run_FPI_faster] *)

(** lines 149-162 and 297-310: the joint log-likelihood [L] *)
Definition joint_log_likelihood
    (A : pyarr ndarray) (observation : pyarr vec) (No : list nat) : tensor :=
  let Ng := length No in
  let L := tones in
  let L :=
    if Nat.eqb Ng 1 then tmul L (obs_likelihood (whole scalar0 A) (whole [] observation))
    else fold_left
           (fun L g => tmul L (obs_likelihood (A_item A g) (obs_item observation g)))
           (range Ng) L in
  tlog L.

(** lines 165-167 and 313-315: [qx = np.empty(Nf)], then every entry set *)
Definition init_qx (Ns : list nat) : list vec :=
  let Nf := length Ns in
  fold_left (fun qx f => list_set f (flat (nth f Ns O)) qx) (range Nf) (repeat [] Nf).

(** [-qx[f].dot(np.log(qx[f] + 1e-16))] and [-qx[f].dot(prior[f])] *)
Definition h_qx (q : vec) : R := - vdot q (vlog q).
Definition xh_qx_px (q p : vec) : R := - vdot q p.

(** lines 182-186 and 318-322: the initial value of [F_prev] *)
Definition init_F_prev (Nf : nat) (qx prior : list vec) : R :=
  fold_left
    (fun F f => F + (- vdot (nth f qx []) (vlog (nth f qx [])) - vdot (nth f qx []) (nth f prior [])))
    (range Nf) 0.

(** lines 230-236 and 366-375: the free energy after an iteration *)
Definition free_energy (Ns : list nat) (L : tensor) (qx prior : list vec) : R :=
  let Nf := length Ns in
  let F :=
    fold_left
      (fun F f => F + (h_qx (nth f qx []) + xh_qx_px (nth f qx []) (nth f prior [])))
      (range Nf) 0 in
  let E_Q_lh := spm_dot_all Ns L qx in
  F - E_Q_lh.

(** [range(Nf - 1, -1, -1)] *)
Fixpoint range_down (n : nat) : list nat :=
  match n with
  | O => []
  | S k => k :: range_down k
  end.

(** the [factor_order] of pass [f_loop] *)
Definition factor_order (Nf f_loop : nat) : list nat :=
  if Nat.eqb f_loop 0 then range Nf else range_down Nf.

(** the state of the while loop *)
Record loop_state := {
  st_qx : list vec;
  st_F_prev : R;
  st_iter : Z;
  st_stopped : bool (* left by [break] *)
}.

(** lines 195-252 and 332-387: the while loop, for a given body of the two
    passes.  [fuel] bounds the number of iterations the model follows. *)
Fixpoint fpi_while (passes : list vec -> list vec)
    (Ns : list nat) (L : tensor) (prior : list vec) (num_iter : Z) (dF_tol : R)
    (fuel : nat) (s : loop_state) : option loop_state :=
  if (st_iter s <? num_iter)%Z then
    match fuel with
    | O => None
    | S fuel' =>
        let qx := passes (st_qx s) in
        let F := free_energy Ns L qx prior in
        let dF := Rabs (st_F_prev s - F) in
        if Rlt_dec dF dF_tol then
          Some {| st_qx := qx; st_F_prev := F; st_iter := st_iter s; st_stopped := true |}
        else
          fpi_while passes Ns L prior num_iter dF_tol fuel'
            {| st_qx := qx; st_F_prev := F; st_iter := (st_iter s + 1)%Z; st_stopped := false |}
    end
  else Some s.

(** what a solver returns: [qx[0]] when [Nf == 1], else [qx] *)
Inductive posterior :=
| Single (q : vec)
| Factors (qx : list vec).

(** ** run_FPI *)

(** lines 212-214: the update of factor [f] *)
Definition update_factor (Ns : list nat) (L : tensor) (prior : list vec)
    (qx : list vec) (f : nat) : list vec :=
  let qL := spm_dot_omit Ns L qx f in
  list_set f (softmax (vadd qL (nth f prior []))) qx.

(** lines 202-214: the two passes of one iteration *)
Definition run_FPI_passes (Ns : list nat) (L : tensor) (prior : list vec)
    (qx : list vec) : list vec :=
  let Nf := length Ns in
  fold_left
    (fun qx f_loop => fold_left (update_factor Ns L prior) (factor_order Nf f_loop) qx)
    (range 2) qx.

(** lines 164-186 and 194: the state in which the while loop is entered *)
Definition init_state (Ns : list nat) (prior : list vec) : loop_state :=
  let Nf := length Ns in
  let qx := init_qx Ns in
  let F_prev := init_F_prev Nf qx prior in
  {| st_qx := qx; st_F_prev := F_prev; st_iter := 0%Z; st_stopped := false |}.

(** lines 194-252: the loop of [run_FPI], from its first state to its last *)
Definition run_FPI_loop (fuel : nat)
    (A : pyarr ndarray) (observation : pyarr vec) (prior : list vec)
    (No Ns : list nat) (num_iter : Z) (dF_tol : R) : option loop_state :=
  let L := joint_log_likelihood A observation No in
  fpi_while (run_FPI_passes Ns L prior) Ns L prior num_iter dF_tol fuel
    (init_state Ns prior).

(** the solver with the loop followed for at most [fuel] iterations.
    Without a hidden-state factor nothing is returned when there is a
    modality: the product taken in place at line 157 or 160 raises, [L]
    being a 0-d array.  The prior is taken to hold a vector of [Ns[f]]
    entries for every factor; lines 183-186 raise otherwise (see
    [read_prior]). *)
Definition run_FPI_fuel (fuel : nat)
    (A : pyarr ndarray) (observation : pyarr vec) (prior : list vec)
    (No Ns : list nat) (num_iter : Z) (dF_tol : R) : option posterior :=
  let Nf := length Ns in
  let L := joint_log_likelihood A observation No in
  let qx := init_qx Ns in
  if (Nat.eqb Nf 0 && negb (Nat.eqb (length No) 0))%bool then None
  else if Nat.eqb Nf 1 then
    let qL := spm_dot_omit Ns L qx 0 in
    let qx := list_set 0 (softmax (vadd qL (nth 0 prior []))) qx in
    Some (Single (nth 0 qx []))
  else
    match run_FPI_loop fuel A observation prior No Ns num_iter dF_tol with
    | Some s => Some (Factors (st_qx s))
    | None => None
    end.

(** [num_iter] iterations always suffice *)
Definition run_FPI A observation prior No Ns num_iter dF_tol : option posterior :=
  run_FPI_fuel (Z.to_nat num_iter) A observation prior No Ns num_iter dF_tol.

(** the defaults of the keyword arguments *)
Definition default_num_iter : Z := 10.
Definition default_dF_tol : R := 0.001.

(** ** run_FPI_faster *)

(** [X * q.reshape(s)] with [s[f] = len(q)]: [q] broadcast along axis [f] *)
Definition broadcast_mul (X : tensor) (q : vec) (f : nat) : tensor :=
  fun ix => X ix * vget q (nth f ix O).

(** [1.0 / q], for a [q] without a zero entry *)
Definition vinv (q : vec) : vec := map (fun x => 1 / x) q.

(** entry [i] of [np.sum(X, dims2sum)], where [dims2sum] holds every axis
    but [f]; [k] is the number of the leading axis of [X] *)
Fixpoint sum_others (k : nat) (Ns : list nat) (f i : nat) (X : tensor) : R :=
  match Ns with
  | [] => X []
  | n :: Ns' =>
      if Nat.eqb k f then sum_others (S k) Ns' f i (slice X i)
      else rsum n (fun j => sum_others (S k) Ns' f i (slice X j))
  end.

(** the broadcast factor reads the position of axis [f] in the whole
    index, so the slices of [sum_others] are taken on the index alone *)
Definition np_sum_except (Ns : list nat) (f : nat) (X : tensor) : vec :=
  map (fun i => sum_others 0 Ns f i X) (range (nth f Ns O)).

(** lines 342-348: [X = L.copy()], then every belief multiplied in *)
Definition joint_X (L : tensor) (qx : list vec) (order : list nat) : tensor :=
  fold_left (fun X f => broadcast_mul X (nth f qx []) f) order L.

(** lines 349-360: the update of factor [f] against the tensor [X] *)
Definition update_factor_faster (Ns : list nat) (X : tensor) (prior : list vec)
    (qx : list vec) (f : nat) : list vec :=
  let temp := broadcast_mul X (vinv (nth f qx [])) f in
  let qL := np_sum_except Ns f temp in
  list_set f (softmax (vadd qL (nth f prior []))) qx.

(** lines 336-360: one pass, and the two passes of one iteration *)
Definition faster_pass (Ns : list nat) (L : tensor) (prior : list vec)
    (qx : list vec) (order : list nat) : list vec :=
  let X := joint_X L qx order in
  fold_left (update_factor_faster Ns X prior) order qx.

Definition run_FPI_faster_passes (Ns : list nat) (L : tensor) (prior : list vec)
    (qx : list vec) : list vec :=
  let Nf := length Ns in
  fold_left
    (fun qx f_loop => faster_pass Ns L prior qx (factor_order Nf f_loop))
    (range 2) qx.

(** lines 331-387: the loop of [run_FPI_faster] *)
Definition run_FPI_faster_loop (fuel : nat)
    (A : pyarr ndarray) (observation : pyarr vec) (prior : list vec)
    (No Ns : list nat) (num_iter : Z) (dF_tol : R) : option loop_state :=
  let L := joint_log_likelihood A observation No in
  fpi_while (run_FPI_faster_passes Ns L prior) Ns L prior num_iter dF_tol fuel
    (init_state Ns prior).

Definition run_FPI_faster_fuel (fuel : nat)
    (A : pyarr ndarray) (observation : pyarr vec) (prior : list vec)
    (No Ns : list nat) (num_iter : Z) (dF_tol : R) : option posterior :=
  let Nf := length Ns in
  let L := joint_log_likelihood A observation No in
  let qx := init_qx Ns in
  if (Nat.eqb Nf 0 && negb (Nat.eqb (length No) 0))%bool then None
  else if Nat.eqb Nf 1 then
    let qL := spm_dot_omit Ns L qx 0 in
    let qx := list_set 0 (softmax (vadd qL (nth 0 prior []))) qx in
    Some (Single (nth 0 qx []))
  else
    match run_FPI_faster_loop fuel A observation prior No Ns num_iter dF_tol with
    | Some s => Some (Factors (st_qx s))
    | None => None
    end.

Definition run_FPI_faster A observation prior No Ns num_iter dF_tol : option posterior :=
  run_FPI_faster_fuel (Z.to_nat num_iter) A observation prior No Ns num_iter dF_tol.

(** ** update_posterior_states *)

(** the exceptions a call of the dispatcher can end in before the loop of
    the solver is entered *)
Inductive exn :=
| NotImplementedError (msg : string)
| UnboundLocalError (name : string)
| IndexError
| TypeError
| ValueError
| OverflowError.

Inductive result (T : Type) :=
| Ok (x : T)
| Raise (e : exn).
Arguments Ok {T} x.
Arguments Raise {T} e.

Definition bind {T U} (r : result T) (k : T -> result U) : result U :=
  match r with
  | Ok x => k x
  | Raise e => Raise e
  end.

Notation "x <- r ;; k" := (bind r (fun x => k))
  (at level 61, r at next level, right associativity).

(** the object arrays the caller's [Categorical] objects hold, by address:
    an assignment to an entry of one of them is seen by the caller *)
Definition heap := nat -> list ndarray.

Definition heap_set (h : heap) (l : nat) (items : list ndarray) : heap :=
  fun l' => if Nat.eqb l' l then items else h l'.

(** Modelled from the spec: the [Categorical] wrapper is not among the
    sources.  It exposes its values, a numeric array or an object array
    (then [IS_AOA] holds), and indexing by factor. *)
Inductive Categorical :=
| CatNum (a : ndarray)
| CatAoA (l : nat).

Definition IS_AOA (c : Categorical) : bool :=
  match c with
  | CatNum _ => false
  | CatAoA _ => true
  end.

(** [c.values] *)
Definition cat_values (h : heap) (c : Categorical) : pyarr ndarray :=
  match c with
  | CatNum a => Num a
  | CatAoA l => Obj (h l)
  end.

(** the index into [a] of the entry that [a.squeeze()] has at [ix] *)
Fixpoint unsqueeze (sh : list nat) (ix : index) : index :=
  match sh with
  | [] => []
  | n :: sh' =>
      if Nat.eqb n 1 then O :: unsqueeze sh' ix
      else hd O ix :: unsqueeze sh' (tl ix)
  end.

(** [a.squeeze()]: the axes of length one removed *)
Definition squeeze (a : ndarray) : ndarray :=
  {| shape := filter (fun n => negb (Nat.eqb n 1)) (shape a);
     data := fun ix => data a (unsqueeze (shape a) ix) |}.

(** a 1-D array as the vector of its entries *)
Definition to_vec (a : ndarray) : vec :=
  map (fun i => data a [i]) (range (hd O (shape a))).

(** an integer that a signed 64-bit index cannot hold but an unsigned one
    can: NumPy's conversion of such an index ends in [OverflowError] *)
Definition overflows (i : Z) : bool := ((2 ^ 63 <=? i) && (i <? 2 ^ 64))%Z.

(** the exception for an index that names no position of its axis *)
Definition index_error (i : Z) : exn :=
  if overflows i then OverflowError else IndexError.

(** [np.eye(n)[i]]; a negative [i] counts from the end *)
Definition eye_row (n : nat) (i : Z) : result vec :=
  if ((- Z.of_nat n <=? i) && (i <? Z.of_nat n))%Z then
    let k := Z.to_nat (i mod Z.of_nat n) in
    Ok (map (fun j => if Nat.eqb j k then 1 else 0) (range n))
  else Raise (index_error i).

(** [l[g]] of a Python sequence *)
Definition py_nth {T} (l : list T) (g : nat) : result T :=
  match nth_error l g with
  | Some x => Ok x
  | None => Raise IndexError
  end.

(** a loop [for g in range(n)] that builds one entry per round *)
Fixpoint for_each {T} (gs : list nat) (body : nat -> result T) : result (list T) :=
  match gs with
  | [] => Ok []
  | g :: gs' => x <- body g ;; xs <- for_each gs' body ;; Ok (x :: xs)
  end.

Inductive A_arg :=
| A_array (a : pyarr ndarray)
| A_Categorical (c : Categorical).

Inductive observation_arg :=
| O_int (i : Z)
| O_tuple (t : list Z)
| O_array (o : pyarr vec)
| O_Categorical (c : Categorical).

Inductive prior_arg :=
| P_array (p : pyarr vec)
| P_Categorical (c : Categorical).

(** the keyword arguments handed on to the solver *)
Record kwargs := { kw_num_iter : option Z; kw_dF_tol : option R }.

Definition no_kwargs : kwargs := {| kw_num_iter := None; kw_dF_tol := None |}.

(** what the dispatcher returns: [qx], or [Categorical(values=qx)] *)
Inductive output :=
| Numpy (qx : posterior)
| Wrapped (qx : posterior).

(** lines 57-68: [(Ns, Ng, No)] from the shape of [A] *)
Definition infer_dims (A : pyarr ndarray) : result (list nat * nat * list nat) :=
  match A with
  | Obj items =>
      A0 <- py_nth items 0 ;;
      let Ns := tl (shape A0) in
      let Ng := length items in
      No <- for_each (range Ng) (fun g => Ag <- py_nth items g ;; py_nth (shape Ag) 0) ;;
      Ok (Ns, Ng, No)
  | Num a =>
      let Ns := tl (shape a) in
      n0 <- py_nth (shape a) 0 ;;
      Ok (Ns, 1%nat, [n0])
  end.

(** lines 75-76: [observation[g] = observation[g].squeeze()] for every
    [g in range(Ng)], on the object array itself *)
Fixpoint squeeze_items (gs : list nat) (items : list ndarray)
    : list ndarray * result unit :=
  match gs with
  | [] => (items, Ok tt)
  | g :: gs' =>
      match nth_error items g with
      | Some og => squeeze_items gs' (list_set g (squeeze og) items)
      | None => (items, Raise IndexError)
      end
  end.

(** lines 70-76: a [Categorical] observation.  With several modalities the
    entries of its object array are replaced in place; a numeric array
    keeps its entries. *)
Definition squeeze_observation (h : heap) (c : Categorical) (Ng : nat)
    : heap * result (pyarr vec) :=
  match c with
  | CatNum a =>
      if Nat.eqb Ng 1 then (h, Ok (Num (to_vec (squeeze a))))
      else (h, Ok (Num (to_vec a)))
  | CatAoA l =>
      if Nat.eqb Ng 1 then (h, Ok (Obj (map to_vec (h l))))
      else
        let (items, r) := squeeze_items (range Ng) (h l) in
        (heap_set h l items, _ <- r ;; Ok (Obj (map to_vec items)))
  end.

(** lines 70-86: the observation as one-hot vectors *)
Definition normalize_observation (h : heap) (observation : observation_arg)
    (Ng : nat) (No : list nat) : heap * result (pyarr vec) :=
  match observation with
  | O_Categorical c => squeeze_observation h c Ng
  | O_int i => (h, v <- eye_row (nth 0 No O) i ;; Ok (Num v))
  | O_tuple t =>
      (h, vs <- for_each (range Ng)
                  (fun g => og <- py_nth t g ;; eye_row (nth g No O) og) ;;
          Ok (Obj vs))
  | O_array o => (h, Ok o)
  end.

(** [l[i] = v] on an array of fixed length *)
Definition py_set {T} (l : list T) (i : nat) (v : T) : result (list T) :=
  if Nat.ltb i (length l) then Ok (list_set i v l) else Raise IndexError.

(** lines 88-101: the prior as an object array with one entry per factor;
    [np.empty(Nf, dtype=object)] holds [None] where nothing was assigned *)
Definition normalize_prior (h : heap) (prior : prior_arg) (Nf : nat)
    : result (list (option vec)) :=
  match prior with
  | P_Categorical c =>
      let prior_new := repeat None Nf in
      match c with
      | CatAoA l =>
          fold_left
            (fun acc f =>
               prior_new <- acc ;;
               pf <- py_nth (h l) f ;;
               py_set prior_new f (Some (to_vec (squeeze pf))))
            (range Nf) (Ok prior_new)
      | CatNum a => py_set prior_new 0 (Some (to_vec (squeeze a)))
      end
  | P_array (Num p) =>
      let prior_new := repeat None Nf in
      py_set prior_new 0 (Some p)
  | P_array (Obj items) => Ok (map Some items)
  end.

(** the canonical arguments of a solver *)
Record solver_args := {
  sa_A : pyarr ndarray;
  sa_observation : pyarr vec;
  sa_prior : list (option vec);
  sa_No : list nat;
  sa_Ns : list nat
}.

(** lines 54-55: [A = A.values] for a [Categorical] *)
Definition unwrap_A (h : heap) (A : A_arg) : pyarr ndarray :=
  match A with
  | A_Categorical c => cat_values h c
  | A_array a => a
  end.

(** lines 54-101 *)
Definition normalize (h : heap) (A : A_arg) (observation : observation_arg)
    (prior : prior_arg) : heap * result solver_args :=
  let A := unwrap_A h A in
  match infer_dims A with
  | Raise e => (h, Raise e)
  | Ok (Ns, Ng, No) =>
      let Nf := length Ns in
      match normalize_observation h observation Ng No with
      | (h', Raise e) => (h', Raise e)
      | (h', Ok obs) =>
          (h', p <- normalize_prior h' prior Nf ;;
               Ok {| sa_A := A; sa_observation := obs; sa_prior := p;
                     sa_No := No; sa_Ns := Ns |})
      end
  end.

(** a solver, as [run_FPI]: the result is [None] when the call returns
    nothing, because the model of its loop ran out of fuel or because
    there is no hidden-state factor to take the likelihood of a modality *)
Definition solver :=
  pyarr ndarray -> pyarr vec -> list vec -> list nat -> list nat -> Z -> R
  -> option posterior.

(** the forms of the arguments [run_FPI] documents: numeric arrays with one
    modality, object arrays with several.  What the absent [spm_dot] makes
    of an object array in the single-modality branch, or of the entries of
    a numeric observation in the loop over the modalities, is not
    specified. *)
Definition documented_forms (a : solver_args) : bool :=
  match sa_A a, sa_observation a with
  | Num _, Num _ => Nat.eqb (length (sa_No a)) 1
  | Obj _, Obj _ => negb (Nat.eqb (length (sa_No a)) 1)
  | _, _ => false
  end.

(** lines 152-160 of the solver: the loop over the modalities reads [A[g]]
    and [observation[g]]; the product is then taken in place, which raises
    [ValueError] when there is no hidden-state factor, for [L] is a 0-d
    array that cannot take the array [spm_dot] returns *)
Definition read_modalities (a : solver_args) : result unit :=
  let in_place : result unit :=
    match sa_Ns a with
    | [] => Raise ValueError
    | _ => Ok tt
    end in
  match sa_A a, sa_observation a with
  | Obj As, Obj vs =>
      _ <- for_each (range (length (sa_No a)))
             (fun g => _ <- py_nth As g ;; _ <- py_nth vs g ;; in_place) ;;
      Ok tt
  | _, _ => in_place
  end.

(** lines 183-186 of the solver read [prior[f]] for every [f in range(Nf)]
    before anything else is done with the prior: a missing entry raises
    [IndexError], a [None] raises [TypeError], and
    [qx[f].dot(prior[f][:, np.newaxis])] raises [ValueError] for a vector
    that does not have the [Ns[f]] entries of [qx[f]] *)
Definition read_prior (Ns : list nat) (prior : list (option vec)) : result (list vec) :=
  for_each (range (length Ns))
    (fun f => match nth_error prior f with
              | None => Raise IndexError
              | Some None => Raise TypeError
              | Some (Some v) =>
                  if Nat.eqb (length v) (nth f Ns O) then Ok v else Raise ValueError
              end).

Definition num_iter_of (kw : kwargs) : Z :=
  match kw_num_iter kw with Some n => n | None => default_num_iter end.

Definition dF_tol_of (kw : kwargs) : R :=
  match kw_dF_tol kw with Some t => t | None => default_dF_tol end.

(** line 104: [solve(A, observation, prior, No, Ns, **kwargs)].  The call
    ends in an exception before the loop when lines 152-160 or 183-186
    raise; for arguments in another form than the documented ones the
    model gives no outcome. *)
Definition call_solver (solve : solver) (a : solver_args) (kw : kwargs)
    : option (result posterior) :=
  if documented_forms a then
    match (_ <- read_modalities a ;; read_prior (sa_Ns a) (sa_prior a)) with
    | Raise e => Some (Raise e)
    | Ok prior =>
        match solve (sa_A a) (sa_observation a) prior (sa_No a) (sa_Ns a)
                (num_iter_of kw) (dF_tol_of kw) with
        | Some qx => Some (Ok qx)
        | None => None
        end
    end
  else None.

(** lines 105-114 *)
Definition unimplemented_methods (method : string) : result unit :=
  if (method =? "VMP")%string then Raise (NotImplementedError "VMP is not implemented")
  else if (method =? "MMP")%string then Raise (NotImplementedError "MMP is not implemented")
  else if (method =? "BP")%string then Raise (NotImplementedError "BP is not implemented")
  else if (method =? "EP")%string then Raise (NotImplementedError "EP is not implemented")
  else if (method =? "CV")%string then Raise (NotImplementedError "CV is not implemented")
  else Ok tt.

(** lines 103-119, with [qx] unbound until line 104 assigns it *)
Definition dispatch (solve : solver) (a : solver_args) (return_numpy : bool)
    (method : string) (kw : kwargs) : option (result output) :=
  let after_FPI : option (result (option posterior)) :=
    if (method =? "FPI")%string then
      match call_solver solve a kw with
      | Some (Ok qx) => Some (Ok (Some qx))
      | Some (Raise e) => Some (Raise e)
      | None => None
      end
    else Some (Ok None) in
  match after_FPI with
  | None => None
  | Some r =>
      Some (qx <- r ;;
            _ <- unimplemented_methods method ;;
            match qx with
            | None => Raise (UnboundLocalError "qx")
            | Some qx => Ok (if return_numpy then Numpy qx else Wrapped qx)
            end)
  end.

(** the dispatcher for a given solver behind the name [run_FPI] *)
Definition update_posterior_states_with (solve : solver) (h : heap)
    (A : A_arg) (observation : observation_arg) (prior : prior_arg)
    (return_numpy : bool) (method : string) (kw : kwargs)
    : option (heap * result output) :=
  match normalize h A observation prior with
  | (h', Raise e) => Some (h', Raise e)
  | (h', Ok a) =>
      match dispatch solve a return_numpy method kw with
      | Some r => Some (h', r)
      | None => None
      end
  end.

Definition update_posterior_states := update_posterior_states_with run_FPI.

(** ** The notions the specification is worded in *)

(** the joint configurations of the factors numbered from [k] on in which
    factor [f] is in state [i] *)
Fixpoint grid_at (k : nat) (Ns : list nat) (f i : nat) : list index :=
  match Ns with
  | [] => [[]]
  | n :: Ns' =>
      flat_map (fun j => map (cons j) (grid_at (S k) Ns' f i))
        (if Nat.eqb k f then [i] else range n)
  end.

(** the product of the beliefs of every factor but [f] at a configuration *)
Fixpoint others_weight (k : nat) (qs : list vec) (f : nat) (ix : index) : R :=
  match qs, ix with
  | q :: qs', j :: ix' =>
      (if Nat.eqb k f then 1 else vget q j) * others_weight (S k) qs' f ix'
  | _, _ => 1
  end.

(** [marginalize_others(L, qx, keep=f)]: for each state [i] of factor [f],
    the sum of [L] over the configurations of the other factors, each
    weighted by the beliefs of those factors *)
Definition marginalize_others (Ns : list nat) (L : tensor) (qx : list vec) (f : nat) : vec :=
  map (fun i => vsum (map (fun ix => L ix * others_weight 0 qx f ix) (grid_at 0 Ns f i)))
    (range (nth f Ns O)).

(** [qx[f] <- softmax(marginalize_others(L, qx, keep=f) + prior[f])], the
    beliefs [seen] being those the marginal is weighted by *)
Definition mean_field_update (Ns : list nat) (L : tensor) (prior : list vec)
    (seen : list vec) (qx : list vec) (f : nat) : list vec :=
  list_set f (softmax (vadd (marginalize_others Ns L seen f) (nth f prior []))) qx.

(** an update weighted by the beliefs current at that moment *)
Definition fresh_update Ns L prior (qx : list vec) (f : nat) : list vec :=
  mean_field_update Ns L prior qx qx f.

(** ascending, then descending *)
Definition two_passes (Nf : nat) : list nat := range Nf ++ rev (range Nf).

(** a valid categorical distribution *)
Definition is_categorical (v : vec) : Prop :=
  Forall (fun x => 0 <= x) v /\ vsum v = 1.

Definition valid_posterior (p : posterior) : Prop :=
  match p with
  | Single q => is_categorical q
  | Factors qx => Forall is_categorical qx
  end.

(** the uniform distribution over [n] outcomes *)
Definition uniform (n : nat) : vec := map (fun _ => / INR n) (range n).

(** the beliefs and the free energy after [k] full iterations *)
Fixpoint after_iterations (passes : list vec -> list vec)
    (Ns : list nat) (L : tensor) (prior : list vec) (k : nat) : list vec * R :=
  match k with
  | O => (init_qx Ns, init_F_prev (length Ns) (init_qx Ns) prior)
  | S k' =>
      let qx := passes (fst (after_iterations passes Ns L prior k')) in
      (qx, free_energy Ns L qx prior)
  end.

(** [|F_prev - F|] as seen at the end of iteration [k] (counted from 0) *)
Definition dF_at passes Ns L prior (k : nat) : R :=
  Rabs (snd (after_iterations passes Ns L prior k)
        - snd (after_iterations passes Ns L prior (S k))).

(** the vector a rank-1 tensor of length [n] holds *)
Definition tensor_vec (n : nat) (L : tensor) : vec := map (fun i => L [i]) (range n).

(** the loop ends in state [s] after [n] iterations: at most [num_iter],
    none of the earlier ones met the tolerance, [s] was left by [break]
    exactly when the last one met it, and the loop ends below the cap only
    by [break] *)
Definition ends_after (passes : list vec -> list vec)
    (Ns : list nat) (L : tensor) (prior : list vec) (num_iter : Z) (dF_tol : R)
    (n : nat) (s : loop_state) : Prop :=
  (n <= Z.to_nat num_iter)%nat
  /\ st_qx s = fst (after_iterations passes Ns L prior n)
  /\ st_F_prev s = snd (after_iterations passes Ns L prior n)
  /\ (forall k, (S k < n)%nat -> ~ dF_at passes Ns L prior k < dF_tol)
  /\ (st_stopped s = true <-> exists k, n = S k /\ dF_at passes Ns L prior k < dF_tol)
  /\ ((n < Z.to_nat num_iter)%nat -> st_stopped s = true).

(** the product of the entries of a vector *)
Definition vprod (v : vec) : R := fold_right Rmult 1 v.

(** the beliefs met along a configuration, factor by factor *)
Fixpoint beliefs_at (qs : list vec) (ix : index) : vec :=
  match qs, ix with
  | q :: qs', j :: ix' => vget q j :: beliefs_at qs' ix'
  | _, _ => []
  end.

(** the beliefs of every factor are vectors of the right length without a
    zero entry: what dividing a belief out again needs *)
Definition dividable (Ns : list nat) (qx : list vec) : Prop :=
  length qx = length Ns
  /\ forall f, (f < length Ns)%nat ->
       length (nth f qx []) = nth f Ns O
       /\ Forall (fun x => 0 < x) (nth f qx []).

(** the prior has a vector of [Ns[f]] entries for every factor [f] *)
Definition prior_fits (Ns : list nat) (prior : list vec) : Prop :=
  forall f, (f < length Ns)%nat -> length (nth f prior []) = nth f Ns O.

(** one iteration in which every pass weights its marginals by the
    beliefs held when the pass began *)
Definition stale_passes (Ns : list nat) (L : tensor) (prior : list vec)
    (qx : list vec) : list vec :=
  let Nf := length Ns in
  let q1 := fold_left (mean_field_update Ns L prior qx) (range Nf) qx in
  fold_left (mean_field_update Ns L prior q1) (rev (range Nf)) q1.

(** the method names the dispatcher knows but does not implement *)
Definition unimplemented : list string := ["VMP"; "MMP"; "BP"; "EP"; "CV"]%string.



(** the row [np.eye(n)[k]] for a position [k] *)
Definition one_hot (n k : nat) : vec :=
  map (fun j => if Nat.eqb j k then 1 else 0) (range n).

(** the likelihood array and the observation vector of modality [g] *)
Definition likelihood_of (A : pyarr ndarray) (g : nat) : ndarray :=
  match A with
  | Num a => a
  | Obj As => nth g As scalar0
  end.

Definition observation_of (observation : pyarr vec) (g : nat) : vec :=
  match observation with
  | Num v => v
  | Obj vs => nth g vs []
  end.

(** the arguments of a solver have the forms and the shapes its docstring
    describes: with one modality a numeric likelihood array of shape
    [(No[0], Ns[0], ..)] and one observation vector of [No[0]] entries;
    with several an object array of such likelihood arrays and an object
    array of observation vectors *)
Definition well_formed (A : pyarr ndarray) (observation : pyarr vec)
    (No Ns : list nat) : Prop :=
  match A, observation with
  | Num a, Num v => No = [length v] /\ shape a = length v :: Ns
  | Obj As, Obj vs =>
      length No <> 1%nat /\ length As = length No /\ length vs = length No
      /\ forall g, (g < length No)%nat ->
           shape (nth g As scalar0) = nth g No O :: Ns
           /\ length (nth g vs []) = nth g No O
  | _, _ => False
  end.

(** the probability the likelihood gives what was observed in the
    hidden-state configuration [ix]: in every modality the outcome axis
    summed out against the observation vector, and the product of these
    over the [Ng] modalities *)
Definition observed_probability (A : pyarr ndarray) (observation : pyarr vec)
    (Ng : nat) (ix : index) : R :=
  vprod (map (fun g =>
                rsum (length (observation_of observation g))
                  (fun o => data (likelihood_of A g) (o :: ix)
                            * vget (observation_of observation g) o))
           (range Ng)).

(** a configuration of the hidden-state factors *)
Definition configuration (Ns : list nat) (ix : index) : Prop :=
  Forall2 (fun j n => (j < n)%nat) ix Ns.

(** every logarithm of line 162 is taken of a positive number, as it is
    for a likelihood without negative entries *)
Definition log_defined (A : pyarr ndarray) (observation : pyarr vec)
    (No Ns : list nat) : Prop :=
  forall ix, configuration Ns ix ->
    0 < observed_probability A observation (length No) ix + eps.

(** the prior holds a vector of [Ns[f]] entries for every factor [f] *)
Definition prior_supplied (Ns : list nat) (prior : list vec) : Prop :=
  (length Ns <= length prior)%nat /\ prior_fits Ns prior.


(** every vector of a returned posterior has the length of its factor *)
Definition has_shape (Ns : list nat) (p : posterior) : Prop :=
  match p with
  | Single q => length q = nth 0 Ns O
  | Factors qx =>
      length qx = length Ns
      /\ forall f, (f < length Ns)%nat -> length (nth f qx []) = nth f Ns O
  end.

(** ** Concrete inputs *)

(** [A = [[0.9, 0.1], [0.1, 0.9]]], one modality and one factor *)
Definition A_two_state : ndarray :=
  {| shape := [2; 2]%nat;
     data := fun ix =>
       match ix with
       | [0; 0]%nat => 0.9
       | [0; 1]%nat => 0.1
       | [1; 0]%nat => 0.1
       | [1; 1]%nat => 0.9
       | _ => 0
       end |}.

(** columns sum to one, but one entry is negative:
    [A = [[1.5, 0.5], [-0.5, 0.5]]] *)
Definition A_negative : ndarray :=
  {| shape := [2; 2]%nat;
     data := fun ix =>
       match ix with
       | [0; 0]%nat => 1.5
       | [0; 1]%nat => 0.5
       | [1; 0]%nat => -0.5
       | [1; 1]%nat => 0.5
       | _ => 0
       end |}.

(** one modality over two factors of two states each whose first outcome
    is certain in every configuration: [A[0] = 1], [A[1] = 0] *)
Definition A_certain : ndarray :=
  {| shape := [2; 2; 2]%nat;
     data := fun ix =>
       match ix with
       | O :: _ => 1
       | _ => 0
       end |}.

(** its joint log-likelihood when the first outcome is seen *)
Definition L_certain : tensor :=
  joint_log_likelihood (Num A_certain) (Num [1; 0]) [2%nat].

(** one modality over two factors of two states each in which both
    outcomes have probability one half in every configuration *)
Definition A_half : ndarray :=
  {| shape := [2; 2; 2]%nat; data := fun _ => 0.5 |}.

(** its joint log-likelihood when the first outcome is seen *)
Definition L_half : tensor :=
  joint_log_likelihood (Num A_half) (Num [1; 0]) [2%nat].

(** one modality over two factors of two states each: the first outcome is
    certain unless both factors are in their second state, where it has
    probability one half *)
Definition A_coupled : ndarray :=
  {| shape := [2; 2; 2]%nat;
     data := fun ix =>
       match ix with
       | [0; 1; 1]%nat => 0.5
       | [1; 1; 1]%nat => 0.5
       | O :: _ => 1
       | _ => 0
       end |}.

(** its joint log-likelihood when the first outcome is seen *)
Definition L_coupled : tensor :=
  joint_log_likelihood (Num A_coupled) (Num [1; 0]) [2%nat].

(** flat log-priors for two factors of two states *)
Definition prior_flat2 : list vec := [[0; 0]; [0; 0]].

(** log-priors that all but rule out the first state of the first factor *)
Definition prior_skewed : list vec := [[-2000; 0]; [0; 0]].

(** a heap without object arrays *)
Definition empty_heap : heap := fun _ => [].

(** a one-hot column vector of shape (2, 1) *)
Definition column (hot : nat) : ndarray :=
  {| shape := [2; 1]%nat;
     data := fun ix => if Nat.eqb (hd O ix) hot then 1 else 0 |}.

(** the caller's heap: at address 0 the object array of a two-modality
    [Categorical] observation, a column per modality *)
Definition caller_heap : heap :=
  fun l => if Nat.eqb l 0 then [column 0; column 1] else [].

(** * The social interaction environment (pymdp/envs/social_interaction.py) *)

Module SocialInteraction.

(** the exceptions [__init__], [reset] and [step] can raise *)
Inductive error :=
| ValueError (msg : string)
| IndexError
| OverflowError
| UnboundLocalError (name : string).

Inductive outcome (T : Type) :=
| Return (x : T)
| Raised (e : error).
Arguments Return {T} x.
Arguments Raised {T} e.

(** a 2-D array: [np.zeros((n, m))] keeps [m] also when [n == 0] *)
Record matrix := { ncols : nat; rows : list vec }.

(** the attributes of a [SocialInteraction] object *)
Record env := {
  num_users : Z;
  num_posts : Z;
  actions : list string;
  user_states : vec;
  post_states : vec;
  rewards : matrix
}.

(** [np.zeros(n)] and [np.zeros((n, m))] for sizes the machine can hold;
    a negative dimension raises.  Whether the memory suffices for a size
    is outside the embedding: the properties of [__init__] below speak of
    the calls that return. *)
Definition zeros (n : Z) : outcome vec :=
  if (n <? 0)%Z then Raised (ValueError "negative dimensions are not allowed")
  else Return (repeat 0 (Z.to_nat n)).

Definition zeros2 (n m : Z) : outcome matrix :=
  if ((n <? 0) || (m <? 0))%Z then
    Raised (ValueError "negative dimensions are not allowed")
  else Return {| ncols := Z.to_nat m;
                 rows := repeat (repeat 0 (Z.to_nat m)) (Z.to_nat n) |}.

(** an integer that a signed 64-bit index cannot hold: NumPy's conversion
    of an index ends in [OverflowError] for one that an unsigned 64-bit
    integer still holds, and in [IndexError] for the others *)
Definition unconvertible (i : Z) : bool := ((i <? - 2 ^ 63) || (2 ^ 63 <=? i))%Z.

Definition index_error (i : Z) : error :=
  if ((2 ^ 63 <=? i) && (i <? 2 ^ 64))%Z then OverflowError else IndexError.

(** the position an integer index names on an axis of length [n];
    a negative index counts from the end *)
Definition position (n : nat) (i : Z) : outcome nat :=
  if ((- Z.of_nat n <=? i) && (i <? Z.of_nat n))%Z then
    Return (Z.to_nat (i mod Z.of_nat n))
  else Raised (index_error i).

(** [v[i] += x] *)
Definition add_at (v : vec) (i : Z) (x : R) : outcome vec :=
  match position (length v) i with
  | Return k => Return (list_set k (vget v k + x) v)
  | Raised e => Raised e
  end.

(** [m[i, j] += x]; both indices are converted before either is held
    against its axis *)
Definition add_at2 (m : matrix) (i j : Z) (x : R) : outcome matrix :=
  match position (length (rows m)) i, position (ncols m) j with
  | Return r, Return c =>
      Return {| ncols := ncols m;
                rows := list_set r (list_set c (vget (nth r (rows m) []) c + x)
                                      (nth r (rows m) []))
                          (rows m) |}
  | Raised e, Return _ => Raised e
  | Return _, Raised e => Raised e
  | Raised ei, Raised ej =>
      if unconvertible i then Raised ei
      else if unconvertible j then Raised ej
      else Raised ei
  end.

Definition set_user_states (e : env) (us : vec) : env :=
  {| num_users := num_users e; num_posts := num_posts e; actions := actions e;
     user_states := us; post_states := post_states e; rewards := rewards e |}.

Definition set_post_states (e : env) (ps : vec) : env :=
  {| num_users := num_users e; num_posts := num_posts e; actions := actions e;
     user_states := user_states e; post_states := ps; rewards := rewards e |}.

Definition set_rewards (e : env) (rw : matrix) : env :=
  {| num_users := num_users e; num_posts := num_posts e; actions := actions e;
     user_states := user_states e; post_states := post_states e; rewards := rw |}.

(** lines 31-40: [reset]; the attributes are assigned one after the other *)
Definition reset (e : env) : env * outcome unit :=
  match zeros (num_users e) with
  | Raised x => (e, Raised x)
  | Return us =>
      let e := set_user_states e us in
      match zeros (num_posts e) with
      | Raised x => (e, Raised x)
      | Return ps =>
          let e := set_post_states e ps in
          match zeros2 (num_users e) (num_posts e) with
          | Raised x => (e, Raised x)
          | Return rw => (set_rewards e rw, Return tt)
          end
      end
  end.

(** lines 16-29: [__init__] *)
Definition init (num_users num_posts : Z) : outcome env :=
  match zeros num_users with
  | Raised x => Raised x
  | Return us =>
      match zeros num_posts with
      | Raised x => Raised x
      | Return ps =>
          match zeros2 num_users num_posts with
          | Raised x => Raised x
          | Return rw =>
              let e := {| num_users := num_users; num_posts := num_posts;
                          actions := ["FOLLOW"; "LIKE"; "COMMENT"; "SHARE"]%string;
                          user_states := us; post_states := ps; rewards := rw |} in
              match reset e with
              | (e', Return _) => Return e'
              | (_, Raised x) => Raised x
              end
          end
      end
  end.

(** the defaults of [__init__] *)
Definition default_num_users : Z := 100.
Definition default_num_posts : Z := 50.

(** lines 48-59: the dynamics of an action; [reward] stays unbound when no
    branch is taken *)
Definition dynamics (e : env) (user_id post_id : Z) (action : string)
    : env * outcome (option R) :=
  if (action =? "FOLLOW")%string then
    match add_at (user_states e) user_id 1 with
    | Return us => (set_user_states e us, Return (Some 1))
    | Raised x => (e, Raised x)
    end
  else if (action =? "LIKE")%string then
    match add_at (post_states e) post_id 1 with
    | Return ps => (set_post_states e ps, Return (Some 0.5))
    | Raised x => (e, Raised x)
    end
  else if (action =? "COMMENT")%string then
    match add_at (post_states e) post_id 2 with
    | Return ps => (set_post_states e ps, Return (Some 1.5))
    | Raised x => (e, Raised x)
    end
  else if (action =? "SHARE")%string then
    match add_at (post_states e) post_id 3 with
    | Return ps => (set_post_states e ps, Return (Some 2))
    | Raised x => (e, Raised x)
    end
  else (e, Return None).

(** lines 42-65: [step]; the object keeps what was assigned before an
    exception *)
Definition step (e : env) (user_id post_id : Z) (action : string)
    : env * outcome (vec * vec * R) :=
  if negb (existsb (String.eqb action) (actions e)) then
    (e, Raised (ValueError ("Invalid action: " ++ action)))
  else
    match dynamics e user_id post_id action with
    | (e1, Raised x) => (e1, Raised x)
    | (e1, Return None) => (e1, Raised (UnboundLocalError "reward"))
    | (e1, Return (Some reward)) =>
        match add_at2 (rewards e1) user_id post_id reward with
        | Raised x => (e1, Raised x)
        | Return rw =>
            let e2 := set_rewards e1 rw in
            (e2, Return (user_states e2, post_states e2, reward))
        end
    end.

(** lines 67-77: the getters *)
Definition get_user_state (e : env) (user_id : Z) : outcome R :=
  match position (length (user_states e)) user_id with
  | Return k => Return (vget (user_states e) k)
  | Raised x => Raised x
  end.

Definition get_post_state (e : env) (post_id : Z) : outcome R :=
  match position (length (post_states e)) post_id with
  | Return k => Return (vget (post_states e) k)
  | Raised x => Raised x
  end.

Definition get_rewards (e : env) : matrix := rewards e.

(** a run of calls of [step], stopped by the first exception *)
Fixpoint steps (e : env) (calls : list (Z * Z * string)) : env * outcome (list R) :=
  match calls with
  | [] => (e, Return [])
  | (u, p, a) :: calls' =>
      match step e u p a with
      | (e1, Raised x) => (e1, Raised x)
      | (e1, Return (_, _, reward)) =>
          match steps e1 calls' with
          | (e2, Raised x) => (e2, Raised x)
          | (e2, Return rs) => (e2, Return (reward :: rs))
          end
      end
  end.

(** the sum of all entries of a matrix *)
Definition total (m : matrix) : R := vsum (map vsum (rows m)).

(** the shape the arrays of an object have after [__init__] *)
Definition well_shaped (e : env) : Prop :=
  (0 <= num_users e)%Z /\ (0 <= num_posts e)%Z
  /\ actions e = ["FOLLOW"; "LIKE"; "COMMENT"; "SHARE"]%string
  /\ length (user_states e) = Z.to_nat (num_users e)
  /\ length (post_states e) = Z.to_nat (num_posts e)
  /\ ncols (rewards e) = Z.to_nat (num_posts e)
  /\ length (rows (rewards e)) = Z.to_nat (num_users e)
  /\ Forall (fun r => length r = Z.to_nat (num_posts e)) (rows (rewards e)).

(** what an action adds to the state of the user, to the state of the
    post, and what it is rewarded *)
Definition user_gain (action : string) : R :=
  if (action =? "FOLLOW")%string then 1 else 0.

Definition post_gain (action : string) : R :=
  if (action =? "LIKE")%string then 1
  else if (action =? "COMMENT")%string then 2
  else if (action =? "SHARE")%string then 3
  else 0.

Definition reward_of (action : string) : R :=
  if (action =? "FOLLOW")%string then 1
  else if (action =? "LIKE")%string then 0.5
  else if (action =? "COMMENT")%string then 1.5
  else if (action =? "SHARE")%string then 2
  else 0.

(** the entry [m[i, j]] at positions in range *)
Definition cell (m : matrix) (i j : nat) : R := vget (nth i (rows m) []) j.

(** the four actions of [__init__] *)
Definition the_actions : list string := ["FOLLOW"; "LIKE"; "COMMENT"; "SHARE"]%string.

(** the object [__init__] leaves behind: every array zero *)
Definition fresh (nu np : Z) : env :=
  {| num_users := nu; num_posts := np; actions := the_actions;
     user_states := repeat 0 (Z.to_nat nu);
     post_states := repeat 0 (Z.to_nat np);
     rewards := {| ncols := Z.to_nat np;
                   rows := repeat (repeat 0 (Z.to_nat np)) (Z.to_nat nu) |} |}.

End SocialInteraction.

(** * Properties *)

(** ** Sums *)

Lemma vsum_app (u v : vec) : vsum (u ++ v) = vsum u + vsum v.
Proof.
  induction u as [|x u IH]; simpl.
  - lra.
  - rewrite IH. lra.
Qed.

Lemma vsum_scale (c : R) (v : vec) : vsum (map (fun x => c * x) v) = c * vsum v.
Proof.
  induction v as [|x v IH]; simpl.
  - lra.
  - rewrite IH. lra.
Qed.

Lemma vsum_map_ext {T} (g g' : T -> R) (l : list T) :
  (forall x, In x l -> g x = g' x) -> vsum (map g l) = vsum (map g' l).
Proof.
  intros H. f_equal. apply map_ext_in. exact H.
Qed.

Lemma vsum_flat_map {T U} (g : U -> R) (k : T -> list U) (l : list T) :
  vsum (map g (flat_map k l)) = vsum (map (fun x => vsum (map g (k x))) l).
Proof.
  induction l as [|x l IH]; simpl.
  - reflexivity.
  - rewrite map_app, vsum_app, IH. reflexivity.
Qed.

Lemma list_set_length {T} (f : nat) (v : T) (l : list T) :
  length (list_set f v l) = length l.
Proof.
  revert f. induction l as [|x l IH]; intros [|f]; simpl; auto.
Qed.

Lemma list_set_nth_same {T} (f : nat) (v d : T) (l : list T) :
  (f < length l)%nat -> nth f (list_set f v l) d = v.
Proof.
  revert f. induction l as [|x l IH]; intros [|f]; simpl; intros H; try lia; auto.
  apply IH. lia.
Qed.

Lemma list_set_nth_other {T} (f g : nat) (v d : T) (l : list T) :
  f <> g -> nth g (list_set f v l) d = nth g l d.
Proof.
  revert f g. induction l as [|x l IH]; intros [|f] [|g]; simpl; intros H; auto; try lia.
Qed.

Lemma in_range (n j : nat) : In j (range n) <-> (j < n)%nat.
Proof. unfold range. rewrite in_seq. lia. Qed.

Lemma fold_tmul (terms : nat -> tensor) (gs : list nat) (X : tensor) (ix : index) :
  fold_left (fun L g => tmul L (terms g)) gs X ix
  = X ix * vprod (map (fun g => terms g ix) gs).
Proof.
  revert X. induction gs as [|g gs IH]; intros X; simpl.
  - lra.
  - rewrite IH. unfold tmul. lra.
Qed.

(** ** Initialization *)

Lemma fold_set_length {T} (g : nat -> T) (ks : list nat) (l : list T) :
  length (fold_left (fun a i => list_set i (g i) a) ks l) = length l.
Proof.
  revert l. induction ks as [|k ks IH]; intros l; simpl.
  - reflexivity.
  - rewrite IH. apply list_set_length.
Qed.

Lemma fold_set_nth {T} (g : nat -> T) (d : T) (k f : nat) (l : list T) :
  (k <= length l)%nat ->
  nth f (fold_left (fun a i => list_set i (g i) a) (seq 0 k) l) d
  = if Nat.ltb f k then g f else nth f l d.
Proof.
  induction k as [|k IH]; intros Hk.
  - reflexivity.
  - rewrite seq_S, fold_left_app. simpl.
    destruct (Nat.eq_dec f k) as [->|Hne].
    + rewrite list_set_nth_same by (rewrite fold_set_length; lia).
      replace (k <? S k)%nat with true by (symmetry; apply Nat.ltb_lt; lia).
      reflexivity.
    + rewrite list_set_nth_other by auto.
      rewrite IH by lia.
      destruct (Nat.ltb_spec f k), (Nat.ltb_spec f (S k)); try lia; reflexivity.
Qed.

Lemma init_qx_flat (Ns : list nat) : init_qx Ns = map flat Ns.
Proof.
  unfold init_qx, range.
  apply nth_ext with (d := []) (d' := flat 0).
  - rewrite fold_set_length, repeat_length, length_map. reflexivity.
  - intros f Hf. rewrite fold_set_length, repeat_length in Hf.
    rewrite fold_set_nth by (rewrite repeat_length; lia).
    replace (f <? length Ns)%nat with true by (symmetry; apply Nat.ltb_lt; lia).
    change (flat 0) with (flat O).
    rewrite (map_nth flat Ns O f). reflexivity.
Qed.

Lemma flat_uniform (n : nat) : flat n = uniform n.
Proof.
  unfold flat, uniform, range.
  generalize (1 / INR n) (/ INR n) (eq_refl : 1 / INR n = 1 * / INR n).
  intros a b Hab. assert (a = b) as -> by lra.
  generalize 0%nat. induction n as [|n IH]; intros s; simpl.
  - reflexivity.
  - f_equal. apply IH.
Qed.

Lemma init_qx_length (Ns : list nat) : length (init_qx Ns) = length Ns.
Proof. rewrite init_qx_flat. apply length_map. Qed.

(** ** One hidden-state factor *)

Lemma spm_dot_omit_single (n : nat) (L : tensor) (q : vec) :
  spm_dot_omit [n] L [q] 0 = tensor_vec n L.
Proof.
  unfold spm_dot_omit, tensor_vec. simpl. reflexivity.
Qed.

Lemma run_FPI_fuel_single (fuel : nat)
    (A : pyarr ndarray) (observation : pyarr vec) (prior : list vec)
    (No : list nat) (n : nat) (num_iter : Z) (dF_tol : R) :
  run_FPI_fuel fuel A observation prior No [n] num_iter dF_tol
  = Some (Single (softmax (vadd (tensor_vec n (joint_log_likelihood A observation No))
                             (nth 0 prior [])))).
Proof.
  unfold run_FPI_fuel. simpl.
  rewrite init_qx_flat. simpl. rewrite spm_dot_omit_single. reflexivity.
Qed.

Lemma run_FPI_faster_fuel_single (fuel : nat)
    (A : pyarr ndarray) (observation : pyarr vec) (prior : list vec)
    (No : list nat) (n : nat) (num_iter : Z) (dF_tol : R) :
  run_FPI_faster_fuel fuel A observation prior No [n] num_iter dF_tol
  = Some (Single (softmax (vadd (tensor_vec n (joint_log_likelihood A observation No))
                             (nth 0 prior [])))).
Proof.
  unfold run_FPI_faster_fuel. simpl.
  rewrite init_qx_flat. simpl. rewrite spm_dot_omit_single. reflexivity.
Qed.

Lemma joint_log_likelihood_spec
    (A : pyarr ndarray) (observation : pyarr vec) (No Ns : list nat) (ix : index) :
  well_formed A observation No Ns ->
  joint_log_likelihood A observation No ix
  = ln (observed_probability A observation (length No) ix + eps).
Proof.
  destruct A as [a|As], observation as [v|vs]; simpl; try contradiction.
  - intros [-> Hs]. unfold joint_log_likelihood, observed_probability.
    cbn [length Nat.eqb]. change (range 1) with [0%nat].
    cbn [map vprod fold_right likelihood_of observation_of].
    unfold tlog, tmul, tones, obs_likelihood, spm_dot_obs, whole.
    rewrite Hs. cbn [hd]. f_equal. lra.
  - intros [Hne [HA [Hv Hg]]]. unfold joint_log_likelihood.
    replace (Nat.eqb (length No) 1) with false by (symmetry; apply Nat.eqb_neq; exact Hne).
    unfold tlog. rewrite fold_tmul. unfold tones, observed_probability.
    f_equal. f_equal. rewrite Rmult_1_l. f_equal.
    apply map_ext_in. intros g Hin. apply in_range in Hin.
    destruct (Hg g Hin) as [Hs Hl].
    unfold A_item, obs_item, obs_likelihood, spm_dot_obs, likelihood_of, observation_of.
    rewrite Hs, Hl. reflexivity.
Qed.

(** C2: with exactly one hidden-state factor of [n] states, for arguments
    of the documented forms and shapes, a prior vector [p] of [n] entries
    and a likelihood under which every logarithm is defined, both solvers
    return [softmax(L + p)] without entering the loop (no fuel is used),
    whatever [num_iter] and [dF_tol] are.  Here [L[s]] is the logarithm
    of the probability that the modalities give what was observed in
    state [s], the product over the modalities of the sum over the
    outcomes [o] of [A_g[o, s] * observation_g[o]], plus the floor. *)
Theorem single_factor_closed_form
    (A : pyarr ndarray) (observation : pyarr vec) (prior : list vec) (p : vec)
    (No : list nat) (n : nat) (num_iter : Z) (dF_tol : R) (fuel : nat) :
  (0 < n)%nat ->
  well_formed A observation No [n] ->
  log_defined A observation No [n] ->
  nth_error prior 0 = Some p -> length p = n ->
  let L := map (fun s => ln (observed_probability A observation (length No) [s] + eps))
             (range n) in
  let answer := Some (Single (softmax (vadd L p))) in
  run_FPI_fuel fuel A observation prior No [n] num_iter dF_tol = answer
  /\ run_FPI A observation prior No [n] num_iter dF_tol = answer
  /\ run_FPI_faster_fuel fuel A observation prior No [n] num_iter dF_tol = answer
  /\ run_FPI_faster A observation prior No [n] num_iter dF_tol = answer.
Proof.
  intros Hn Hwf _ Hp Hlen L answer.
  assert (HL : tensor_vec n (joint_log_likelihood A observation No) = L).
  { unfold L, tensor_vec. apply map_ext. intros s.
    apply (joint_log_likelihood_spec A observation No [n]). exact Hwf. }
  assert (Hp0 : nth 0 prior [] = p) by (apply nth_error_nth; exact Hp).
  unfold run_FPI, run_FPI_faster, answer.
  rewrite !run_FPI_fuel_single, !run_FPI_faster_fuel_single, HL, Hp0. auto.
Qed.

Lemma two_state_well_formed :
  well_formed (Num A_two_state) (Num [1; 0]) [2%nat] [2%nat].
Proof. split; reflexivity. Defined.

Lemma two_state_log_defined :
  log_defined (Num A_two_state) (Num [1; 0]) [2%nat] [2%nat].
Proof.
  intros ix Hix.
  inversion Hix as [|j n ix' Ns' Hj Hrest]; subst.
  inversion Hrest; subst.
  unfold observed_probability, rsum, vprod, vget, eps. simpl.
  destruct j as [|[|j]]; simpl; [lra|lra|lia].
Defined.

Lemma single_factor_closed_form_witness :
  (0 < 2)%nat
  /\ well_formed (Num A_two_state) (Num [1; 0]) [2%nat] [2%nat]
  /\ log_defined (Num A_two_state) (Num [1; 0]) [2%nat] [2%nat]
  /\ nth_error [[0; 0]] 0 = Some [0; 0] /\ length [0; 0] = 2%nat
  /\ run_FPI (Num A_two_state) (Num [1; 0]) [[0; 0]] [2%nat] [2%nat] 10 0.001
     = Some (Single (softmax (vadd
         (map (fun s => ln (observed_probability (Num A_two_state) (Num [1; 0]) 1 [s] + eps))
            (range 2))
         [0; 0]))).
Proof.
  split; [lia|]. split; [exact two_state_well_formed|].
  split; [exact two_state_log_defined|].
  split; [reflexivity|]. split; [reflexivity|].
  apply (single_factor_closed_form (Num A_two_state) (Num [1; 0]) [[0; 0]] [0; 0]
           [2%nat] 2 10 0.001 0 ltac:(lia) two_state_well_formed two_state_log_defined
           eq_refl eq_refl).
Defined.

(** ** The while loop *)

Section Loop.

Variable passes : list vec -> list vec.
Variables (Ns : list nat) (L : tensor) (prior : list vec).
Variables (num_iter : Z) (dF_tol : R).

Let after := after_iterations passes Ns L prior.
Let dF := dF_at passes Ns L prior.
Let ends_after := ends_after passes Ns L prior num_iter dF_tol.

Lemma fpi_while_from (fuel k : nat) (s : loop_state) :
  (k + fuel = Z.to_nat num_iter)%nat ->
  st_iter s = Z.of_nat k ->
  st_qx s = fst (after k) ->
  st_F_prev s = snd (after k) ->
  st_stopped s = false ->
  (forall j, (j < k)%nat -> ~ dF j < dF_tol) ->
  exists n s',
    fpi_while passes Ns L prior num_iter dF_tol fuel s = Some s'
    /\ ends_after n s'.
Proof.
  revert k s. induction fuel as [|fuel IH]; intros k s Hk Hi Hq HF Hs Hno.
  - exists k, s. simpl.
    replace (st_iter s <? num_iter)%Z with false by (symmetry; apply Z.ltb_ge; lia).
    split; [reflexivity|].
    unfold ends_after. repeat split; auto; try lia.
    + intros j Hj. apply Hno. lia.
    + intros H. congruence.
    + intros [j [-> Hj]]. exfalso. apply (Hno j); [lia|exact Hj].
  - simpl.
    replace (st_iter s <? num_iter)%Z with true by (symmetry; apply Z.ltb_lt; lia).
    rewrite Hq, HF.
    change (Rabs (snd (after k) - free_energy Ns L (passes (fst (after k))) prior))
      with (dF k).
    destruct (Rlt_dec (dF k) dF_tol) as [Hlt|Hge].
    + eexists (S k), _. split; [reflexivity|].
      unfold ends_after. simpl. repeat split; auto; try lia.
      * intros j Hj. apply Hno. lia.
      * intros _. exists k. auto.
    + apply (IH (S k)); simpl; auto; try lia.
      intros j Hj. destruct (Nat.eq_dec j k) as [->|]; [exact Hge|apply Hno; lia].
Qed.

Lemma fpi_while_total (s0 : loop_state) :
  st_iter s0 = 0%Z ->
  st_qx s0 = fst (after 0) ->
  st_F_prev s0 = snd (after 0) ->
  st_stopped s0 = false ->
  exists n s',
    fpi_while passes Ns L prior num_iter dF_tol (Z.to_nat num_iter) s0 = Some s'
    /\ ends_after n s'.
Proof.
  intros Hi Hq HF Hs.
  apply (fpi_while_from (Z.to_nat num_iter) 0 s0); auto.
  intros j Hj. lia.
Qed.

End Loop.

Lemma run_FPI_ends
    (A : pyarr ndarray) (observation : pyarr vec) (prior : list vec)
    (No Ns : list nat) (num_iter : Z) (dF_tol : R) :
  (1 < length Ns)%nat ->
  let L := joint_log_likelihood A observation No in
  exists n s,
    run_FPI_loop (Z.to_nat num_iter) A observation prior No Ns num_iter dF_tol = Some s
    /\ ends_after (run_FPI_passes Ns L prior) Ns L prior num_iter dF_tol n s
    /\ run_FPI A observation prior No Ns num_iter dF_tol = Some (Factors (st_qx s)).
Proof.
  intros HNf L.
  destruct (fpi_while_total (run_FPI_passes Ns L prior) Ns L prior num_iter dF_tol
              (init_state Ns prior)) as [n [s [Hrun Hend]]]; try reflexivity.
  exists n, s. split; [exact Hrun|]. split; [exact Hend|].
  unfold run_FPI, run_FPI_fuel.
  replace (Nat.eqb (length Ns) 0) with false by (symmetry; apply Nat.eqb_neq; lia).
  replace (Nat.eqb (length Ns) 1) with false by (symmetry; apply Nat.eqb_neq; lia).
  unfold run_FPI_loop. fold L. rewrite Hrun. reflexivity.
Qed.

Lemma run_FPI_faster_ends
    (A : pyarr ndarray) (observation : pyarr vec) (prior : list vec)
    (No Ns : list nat) (num_iter : Z) (dF_tol : R) :
  (1 < length Ns)%nat ->
  let L := joint_log_likelihood A observation No in
  exists n s,
    run_FPI_faster_loop (Z.to_nat num_iter) A observation prior No Ns num_iter dF_tol = Some s
    /\ ends_after (run_FPI_faster_passes Ns L prior) Ns L prior num_iter dF_tol n s
    /\ run_FPI_faster A observation prior No Ns num_iter dF_tol = Some (Factors (st_qx s)).
Proof.
  intros HNf L.
  destruct (fpi_while_total (run_FPI_faster_passes Ns L prior) Ns L prior num_iter dF_tol
              (init_state Ns prior)) as [n [s [Hrun Hend]]]; try reflexivity.
  exists n, s. split; [exact Hrun|]. split; [exact Hend|].
  unfold run_FPI_faster, run_FPI_faster_fuel.
  replace (Nat.eqb (length Ns) 0) with false by (symmetry; apply Nat.eqb_neq; lia).
  replace (Nat.eqb (length Ns) 1) with false by (symmetry; apply Nat.eqb_neq; lia).
  unfold run_FPI_faster_loop. fold L. rewrite Hrun. reflexivity.
Qed.

(** C3: with more than one factor both solvers return; the loop has then
    run [n <= num_iter] full iterations, it ended before the cap only
    because the change of the free energy after iteration [n - 1] was
    below [dF_tol], no earlier iteration met the tolerance, and the value
    returned is the [qx] of that moment.  The defaults are 10 and 0.001. *)
Theorem solver_terminates
    (A : pyarr ndarray) (observation : pyarr vec) (prior : list vec)
    (No Ns : list nat) (num_iter : Z) (dF_tol : R) :
  (1 < length Ns)%nat ->
  let L := joint_log_likelihood A observation No in
  (exists n s,
      run_FPI_loop (Z.to_nat num_iter) A observation prior No Ns num_iter dF_tol = Some s
      /\ ends_after (run_FPI_passes Ns L prior) Ns L prior num_iter dF_tol n s
      /\ run_FPI A observation prior No Ns num_iter dF_tol = Some (Factors (st_qx s)))
  /\ (exists n s,
      run_FPI_faster_loop (Z.to_nat num_iter) A observation prior No Ns num_iter dF_tol = Some s
      /\ ends_after (run_FPI_faster_passes Ns L prior) Ns L prior num_iter dF_tol n s
      /\ run_FPI_faster A observation prior No Ns num_iter dF_tol = Some (Factors (st_qx s)))
  /\ num_iter_of no_kwargs = 10%Z /\ dF_tol_of no_kwargs = 0.001.
Proof.
  intros HNf L. repeat split.
  - apply run_FPI_ends. exact HNf.
  - apply run_FPI_faster_ends. exact HNf.
Qed.

Lemma solver_terminates_witness :
  (1 < length [2; 2]%nat)%nat
  /\ exists n s,
      run_FPI_loop (Z.to_nat 10) (Num A_certain) (Num [1; 0]) [[0; 0]; [0; 0]]
        [2%nat] [2; 2]%nat 10 0.001 = Some s
      /\ (n <= 10)%nat
      /\ run_FPI (Num A_certain) (Num [1; 0]) [[0; 0]; [0; 0]] [2%nat] [2; 2]%nat 10 0.001
         = Some (Factors (st_qx s)).
Proof.
  split; [simpl; lia|].
  destruct (solver_terminates (Num A_certain) (Num [1; 0]) [[0; 0]; [0; 0]]
              [2%nat] [2; 2]%nat 10 0.001) as [[n [s [H1 [H2 H3]]]] _]; [simpl; lia|].
  exists n, s. split; [exact H1|]. split; [|exact H3].
  destruct H2 as [Hn _]. exact Hn.
Defined.

(** ** The marginal of the recursive strategy *)

Lemma rsum_ext (n : nat) (g g' : nat -> R) :
  (forall j, (j < n)%nat -> g j = g' j) -> rsum n g = rsum n g'.
Proof.
  intros H. unfold rsum. apply vsum_map_ext.
  intros j Hj. apply H. unfold range in Hj. apply in_seq in Hj. lia.
Qed.

Lemma vsum_map_cons (g : index -> R) (j : nat) (G : list index) :
  vsum (map g (map (cons j) G)) = vsum (map (fun ix => g (j :: ix)) G).
Proof. rewrite map_map. reflexivity. Qed.

Lemma contract_marginal (Ns : list nat) :
  forall (k : nat) (qs : list vec) (f i : nat) (X : tensor),
    length qs = length Ns ->
    contract Ns (omit_actions k qs f i) X
    = vsum (map (fun ix => X ix * others_weight k qs f ix) (grid_at k Ns f i)).
Proof.
  induction Ns as [|n Ns IH]; intros k qs f i X Hlen.
  - destruct qs; [|discriminate]. simpl. lra.
  - destruct qs as [|q qs]; [discriminate|]. injection Hlen as Hlen.
    simpl. destruct (Nat.eqb k f).
    + simpl. rewrite app_nil_r, vsum_map_cons.
      rewrite (IH (S k) qs f i (slice X i) Hlen).
      apply vsum_map_ext. intros ix _. unfold slice. lra.
    + rewrite vsum_flat_map. unfold rsum.
      apply vsum_map_ext. intros j _.
      rewrite vsum_map_cons, (IH (S k) qs f i (slice X j) Hlen).
      rewrite <- vsum_scale. rewrite map_map.
      apply vsum_map_ext. intros ix _. unfold slice. lra.
Qed.

Lemma spm_dot_omit_marginal (Ns : list nat) (L : tensor) (qx : list vec) (f : nat) :
  length qx = length Ns ->
  spm_dot_omit Ns L qx f = marginalize_others Ns L qx f.
Proof.
  intros Hlen. unfold spm_dot_omit, marginalize_others.
  apply map_ext. intros i. apply contract_marginal. exact Hlen.
Qed.

Lemma update_factor_fresh Ns L prior (qx : list vec) (f : nat) :
  length qx = length Ns ->
  update_factor Ns L prior qx f = fresh_update Ns L prior qx f.
Proof.
  intros Hlen. unfold update_factor, fresh_update, mean_field_update.
  rewrite spm_dot_omit_marginal by exact Hlen. reflexivity.
Qed.

Lemma fresh_update_length Ns L prior (qx : list vec) (f : nat) :
  length (fresh_update Ns L prior qx f) = length qx.
Proof. apply list_set_length. Qed.

Lemma fold_update_factor_fresh Ns L prior (order : list nat) :
  forall qx, length qx = length Ns ->
  fold_left (update_factor Ns L prior) order qx
  = fold_left (fresh_update Ns L prior) order qx
  /\ length (fold_left (fresh_update Ns L prior) order qx) = length Ns.
Proof.
  induction order as [|f order IH]; intros qx Hlen; simpl.
  - auto.
  - rewrite update_factor_fresh by exact Hlen.
    apply IH. rewrite fresh_update_length. exact Hlen.
Qed.

Lemma range_down_rev (n : nat) : range_down n = rev (range n).
Proof.
  unfold range. induction n as [|n IH].
  - reflexivity.
  - rewrite seq_S, rev_app_distr. simpl. rewrite IH. reflexivity.
Qed.

Lemma run_FPI_passes_fresh Ns L prior (qx : list vec) :
  length qx = length Ns ->
  run_FPI_passes Ns L prior qx
  = fold_left (fresh_update Ns L prior) (two_passes (length Ns)) qx.
Proof.
  intros Hlen. unfold run_FPI_passes, two_passes, factor_order. simpl.
  rewrite fold_left_app, range_down_rev.
  destruct (fold_update_factor_fresh Ns L prior (range (length Ns)) qx Hlen) as [E1 Hl].
  rewrite E1.
  destruct (fold_update_factor_fresh Ns L prior (rev (range (length Ns))) _ Hl) as [E2 _].
  exact E2.
Qed.

(** ** The marginal of the joint-then-divide strategy *)

Lemma vprod_app (u v : vec) : vprod (u ++ v) = vprod u * vprod v.
Proof.
  induction u as [|x u IH]; simpl.
  - lra.
  - rewrite IH. lra.
Qed.

Lemma vprod_rev (v : vec) : vprod (rev v) = vprod v.
Proof.
  induction v as [|x v IH]; simpl.
  - reflexivity.
  - rewrite vprod_app, IH. simpl. lra.
Qed.

Lemma sum_others_grid (Ns : list nat) :
  forall (k f i : nat) (X : tensor),
    sum_others k Ns f i X = vsum (map X (grid_at k Ns f i)).
Proof.
  induction Ns as [|n Ns IH]; intros k f i X; simpl.
  - lra.
  - destruct (Nat.eqb k f).
    + simpl. rewrite app_nil_r, vsum_map_cons. apply IH.
    + rewrite vsum_flat_map. unfold rsum. apply vsum_map_ext. intros j _.
      rewrite vsum_map_cons. apply IH.
Qed.

Lemma joint_X_weight (qx : list vec) (order : list nat) :
  forall (X : tensor) (ix : index),
    fold_left (fun X f => broadcast_mul X (nth f qx []) f) order X ix
    = X ix * vprod (map (fun g => vget (nth g qx []) (nth g ix O)) order).
Proof.
  induction order as [|f order IH]; intros X ix; simpl.
  - lra.
  - rewrite IH. unfold broadcast_mul. lra.
Qed.

Lemma beliefs_at_seq (qx : list vec) :
  forall ix, length ix = length qx ->
    map (fun g => vget (nth g qx []) (nth g ix O)) (seq 0 (length qx))
    = beliefs_at qx ix.
Proof.
  induction qx as [|q qx IH]; intros ix Hlen.
  - reflexivity.
  - destruct ix as [|j ix]; [discriminate|]. injection Hlen as Hlen.
    simpl. f_equal. rewrite <- seq_shift, map_map. simpl. apply IH. exact Hlen.
Qed.

Lemma others_weight_split (qs : list vec) :
  forall (k f : nat) (ix : index),
    length ix = length qs ->
    (k <= f < k + length qs)%nat ->
    vprod (beliefs_at qs ix)
    = vget (nth (f - k) qs []) (nth (f - k) ix O) * others_weight k qs f ix.
Proof.
  induction qs as [|q qs IH]; intros k f ix Hlen Hf.
  - simpl in Hf. lia.
  - destruct ix as [|j ix]; [discriminate|]. injection Hlen as Hlen. simpl in Hf.
    destruct (Nat.eq_dec k f) as [->|Hne].
    + replace (f - f)%nat with O by lia. simpl. rewrite Nat.eqb_refl.
      assert (Hout : forall qs' ix' k', (f < k')%nat ->
                 others_weight k' qs' f ix' = vprod (beliefs_at qs' ix')).
      { induction qs' as [|q' qs' IH']; intros ix' k' Hk'; [reflexivity|].
        destruct ix' as [|j' ix']; [reflexivity|]. simpl.
        replace (Nat.eqb k' f) with false by (symmetry; apply Nat.eqb_neq; lia).
        rewrite IH' by lia. reflexivity. }
      rewrite Hout by lia. lra.
    + simpl. replace (Nat.eqb k f) with false by (symmetry; apply Nat.eqb_neq; lia).
      replace (f - k)%nat with (S (f - S k)) by lia. simpl.
      rewrite (IH (S k) f ix Hlen) by lia. lra.
Qed.

Lemma grid_at_member (Ns : list nat) :
  forall (k f i : nat) (ix : index),
    In ix (grid_at k Ns f i) ->
    length ix = length Ns
    /\ ((k <= f < k + length Ns)%nat -> nth (f - k) ix O = i).
Proof.
  induction Ns as [|n Ns IH]; intros k f i ix Hin; simpl in Hin.
  - destruct Hin as [<-|[]]. split; [reflexivity|]. simpl. lia.
  - apply in_flat_map in Hin. destruct Hin as [j [Hj Hin]].
    apply in_map_iff in Hin. destruct Hin as [ix' [<- Hin]].
    destruct (IH (S k) f i ix' Hin) as [Hlen Hnth].
    split; [simpl; lia|]. simpl. intros Hf.
    destruct (Nat.eqb_spec k f) as [->|Hne].
    + destruct Hj as [<-|[]]. replace (f - f)%nat with O by lia. reflexivity.
    + replace (f - k)%nat with (S (f - S k)) by lia. apply Hnth. lia.
Qed.

Lemma vget_vinv (q : vec) (i : nat) :
  (i < length q)%nat -> vget (vinv q) i = 1 / vget q i.
Proof.
  intros Hi. unfold vget, vinv.
  rewrite (nth_indep _ 0 ((fun x => 1 / x) 0)) by (rewrite length_map; exact Hi).
  apply (map_nth (fun x => 1 / x)).
Qed.

(** dividing the belief of [f] out of the joint tensor and summing the
    other axes gives the marginal weighted by the beliefs that were
    multiplied in *)
Lemma joint_then_divide (Ns : list nat) (L : tensor) (qx : list vec)
    (order : list nat) (f : nat) :
  dividable Ns qx ->
  (order = range (length Ns) \/ order = rev (range (length Ns))) ->
  (f < length Ns)%nat ->
  np_sum_except Ns f (broadcast_mul (joint_X L qx order) (vinv (nth f qx [])) f)
  = marginalize_others Ns L qx f.
Proof.
  intros [Hlen Hq] Horder Hf.
  unfold np_sum_except, marginalize_others.
  apply map_ext_in. intros i Hi. apply in_range in Hi.
  rewrite sum_others_grid. apply vsum_map_ext. intros ix Hix.
  destruct (grid_at_member Ns 0 f i ix Hix) as [Hl Hn].
  rewrite Nat.sub_0_r in Hn. specialize (Hn ltac:(lia)).
  destruct (Hq f Hf) as [Hlf Hpos].
  unfold broadcast_mul, joint_X. rewrite joint_X_weight, Hn.
  rewrite vget_vinv by lia.
  assert (Hw : vprod (map (fun g => vget (nth g qx []) (nth g ix O)) order)
               = vget (nth f qx []) i * others_weight 0 qx f ix).
  { assert (Hr : vprod (map (fun g => vget (nth g qx []) (nth g ix O)) (range (length Ns)))
                 = vget (nth f qx []) i * others_weight 0 qx f ix).
    { unfold range. rewrite <- Hlen, beliefs_at_seq by lia.
      rewrite (others_weight_split qx 0 f ix) by lia.
      rewrite Nat.sub_0_r, Hn. reflexivity. }
    destruct Horder as [->| ->]; [exact Hr|].
    rewrite map_rev, vprod_rev. exact Hr. }
  rewrite Hw.
  assert (Hnz : vget (nth f qx []) i <> 0).
  { rewrite Forall_forall in Hpos.
    assert (0 < vget (nth f qx []) i); [|lra].
    apply Hpos. unfold vget. apply nth_In. lia. }
  field. exact Hnz.
Qed.

(** ** softmax *)

Lemma vsum_exp_pos (m : R) (v : vec) :
  v <> [] -> 0 < vsum (map (fun x => exp (x - m)) v).
Proof.
  intros Hv. destruct v as [|x v]; [congruence|]. clear Hv. simpl.
  assert (H : 0 <= vsum (map (fun x => exp (x - m)) v)).
  { induction v as [|y v IH]; simpl; [lra|].
    pose proof (exp_pos (y - m)). lra. }
  pose proof (exp_pos (x - m)). lra.
Qed.

Lemma softmax_length (v : vec) : length (softmax v) = length v.
Proof. unfold softmax. rewrite !length_map. reflexivity. Qed.

Lemma softmax_pos (v : vec) : Forall (fun x => 0 < x) (softmax v).
Proof.
  unfold softmax. apply Forall_forall. intros y Hy.
  apply in_map_iff in Hy. destruct Hy as [e [<- He]].
  apply in_map_iff in He. destruct He as [x [<- Hx]].
  assert (Hv : v <> []) by (intros ->; destruct Hx).
  apply Rdiv_lt_0_compat; [apply exp_pos|apply vsum_exp_pos; exact Hv].
Qed.

Lemma vsum_div (c : R) (v : vec) : vsum (map (fun y => y / c) v) = vsum v / c.
Proof.
  induction v as [|x v IH]; simpl.
  - unfold Rdiv. lra.
  - rewrite IH. unfold Rdiv. lra.
Qed.

Lemma softmax_sum (v : vec) : v <> [] -> vsum (softmax v) = 1.
Proof.
  intros Hv. unfold softmax. rewrite vsum_div.
  pose proof (vsum_exp_pos (vmax v) v Hv). field. lra.
Qed.

Lemma softmax_categorical (v : vec) : v <> [] -> is_categorical (softmax v).
Proof.
  intros Hv. split; [|apply softmax_sum; exact Hv].
  eapply Forall_impl; [|apply softmax_pos]. simpl. intros x Hx. lra.
Qed.

Lemma vadd_length (a b : vec) : length (vadd a b) = Nat.min (length a) (length b).
Proof.
  revert b. induction a as [|x a IH]; intros [|y b]; simpl; auto.
Qed.

Lemma marginalize_others_length Ns L (qx : list vec) (f : nat) :
  length (marginalize_others Ns L qx f) = nth f Ns O.
Proof. unfold marginalize_others, range. rewrite length_map, length_seq. reflexivity. Qed.

Lemma spm_dot_omit_length Ns L (qx : list vec) (f : nat) :
  length (spm_dot_omit Ns L qx f) = nth f Ns O.
Proof. unfold spm_dot_omit, range. rewrite length_map, length_seq. reflexivity. Qed.

Lemma np_sum_except_length Ns (f : nat) (X : tensor) :
  length (np_sum_except Ns f X) = nth f Ns O.
Proof. unfold np_sum_except, range. rewrite length_map, length_seq. reflexivity. Qed.

(** ** One pass of the joint-then-divide strategy *)

Lemma mean_field_update_dividable Ns L prior (seen qx : list vec) (f : nat) :
  prior_fits Ns prior -> dividable Ns qx ->
  dividable Ns (mean_field_update Ns L prior seen qx f).
Proof.
  intros Hp [Hlen Hq]. unfold mean_field_update. split.
  - rewrite list_set_length. exact Hlen.
  - intros g Hg. destruct (Nat.eq_dec f g) as [->|Hne].
    + rewrite list_set_nth_same by lia. split; [|apply softmax_pos].
      rewrite softmax_length, vadd_length, marginalize_others_length, (Hp g Hg).
      apply Nat.min_id.
    + rewrite list_set_nth_other by exact Hne. apply Hq. exact Hg.
Qed.

Lemma fold_mean_field_dividable Ns L prior (seen : list vec) (order : list nat) :
  prior_fits Ns prior ->
  forall qx, dividable Ns qx ->
  dividable Ns (fold_left (mean_field_update Ns L prior seen) order qx).
Proof.
  intros Hp. induction order as [|f order IH]; intros qx Hq; simpl.
  - exact Hq.
  - apply IH. apply mean_field_update_dividable; assumption.
Qed.

Lemma faster_fold_stale Ns L prior (qx : list vec) (order : list nat) :
  dividable Ns qx ->
  (order = range (length Ns) \/ order = rev (range (length Ns))) ->
  forall (rest : list nat) (q : list vec),
    NoDup rest ->
    (forall g, In g rest -> (g < length Ns)%nat /\ nth g q [] = nth g qx []) ->
    fold_left (update_factor_faster Ns (joint_X L qx order) prior) rest q
    = fold_left (mean_field_update Ns L prior qx) rest q.
Proof.
  intros Hq Horder. induction rest as [|f rest IH]; intros q Hnd Hsame.
  - reflexivity.
  - simpl. inversion Hnd as [|? ? Hnotin Hnd']; subst.
    destruct (Hsame f (or_introl eq_refl)) as [Hf Hqf].
    assert (Hstep : update_factor_faster Ns (joint_X L qx order) prior q f
                    = mean_field_update Ns L prior qx q f).
    { unfold update_factor_faster, mean_field_update.
      rewrite Hqf, joint_then_divide by assumption. reflexivity. }
    rewrite Hstep. apply IH; [exact Hnd'|].
    intros g Hg. destruct (Hsame g (or_intror Hg)) as [Hg1 Hg2].
    split; [exact Hg1|].
    unfold mean_field_update. rewrite list_set_nth_other; [exact Hg2|].
    intros ->. contradiction.
Qed.

Lemma faster_pass_stale Ns L prior (qx : list vec) (order : list nat) :
  dividable Ns qx ->
  (order = range (length Ns) \/ order = rev (range (length Ns))) ->
  faster_pass Ns L prior qx order
  = fold_left (mean_field_update Ns L prior qx) order qx.
Proof.
  intros Hq Horder. unfold faster_pass.
  apply faster_fold_stale; try assumption.
  - destruct Horder as [->| ->]; [|apply NoDup_rev]; apply seq_NoDup.
  - intros g Hg. split; [|reflexivity].
    destruct Horder as [->| ->]; [|apply in_rev in Hg]; apply in_range in Hg; exact Hg.
Qed.

(** ** Two factors of two states *)

Lemma marginal_2x2_0 (L : tensor) (u w : vec) :
  marginalize_others [2; 2]%nat L [u; w] 0
  = [L [0; 0]%nat * vget w 0 + L [0; 1]%nat * vget w 1;
     L [1; 0]%nat * vget w 0 + L [1; 1]%nat * vget w 1].
Proof.
  unfold marginalize_others. simpl. f_equal; [|f_equal]; ring.
Qed.

Lemma marginal_2x2_1 (L : tensor) (u w : vec) :
  marginalize_others [2; 2]%nat L [u; w] 1
  = [L [0; 0]%nat * vget u 0 + L [1; 0]%nat * vget u 1;
     L [0; 1]%nat * vget u 0 + L [1; 1]%nat * vget u 1].
Proof.
  unfold marginalize_others. simpl. f_equal; [|f_equal]; ring.
Qed.

Lemma softmax_pair_sum (x y : R) :
  vget (softmax [x; y]) 0 + vget (softmax [x; y]) 1 = 1.
Proof.
  pose proof (softmax_sum [x; y] ltac:(discriminate)) as H.
  unfold softmax, vget in *. simpl in *. lra.
Qed.

Lemma softmax_pair_inj (x y x' y' : R) :
  vget (softmax [x; y]) 1 = vget (softmax [x'; y']) 1 -> x - y = x' - y'.
Proof.
  unfold softmax, vget. simpl.
  set (M := vmax [x; y]). set (M' := vmax [x'; y']).
  intros H.
  pose proof (exp_pos (x - M)). pose proof (exp_pos (y - M)).
  pose proof (exp_pos (x' - M')). pose proof (exp_pos (y' - M')).
  assert (Hc : exp (y - M) * exp (x' - M') = exp (y' - M') * exp (x - M)).
  { set (S := exp (x - M) + (exp (y - M) + 0)) in *.
    set (S' := exp (x' - M') + (exp (y' - M') + 0)) in *.
    assert (E : exp (y - M) * S' = exp (y - M) / S * S * S')
      by (field; unfold S; lra).
    assert (E' : exp (y' - M') * S = exp (y' - M') / S' * S' * S)
      by (field; unfold S'; lra).
    assert (Hx : exp (y - M) * S' = exp (y' - M') * S).
    { rewrite E, E', H. ring. }
    unfold S, S' in Hx. lra. }
  rewrite <- !exp_plus in Hc. apply exp_inv in Hc. lra.
Qed.

Lemma softmax_pair_equal (x : R) : vget (softmax [x; x]) 1 = 1 / 2.
Proof.
  unfold softmax, vget. simpl.
  pose proof (exp_pos (x - vmax [x; x])). field. lra.
Qed.

Lemma softmax_pair_half (x y : R) : vget (softmax [x; y]) 1 = 1 / 2 -> x = y.
Proof.
  intros H. rewrite <- (softmax_pair_equal 0) in H.
  apply softmax_pair_inj in H. lra.
Qed.

Lemma update_2x2_0 (L : tensor) (su sw u w : vec) :
  mean_field_update [2; 2]%nat L [[0; 0]; [0; 0]] [su; sw] [u; w] 0
  = [softmax [L [0; 0]%nat * vget sw 0 + L [0; 1]%nat * vget sw 1 + 0;
              L [1; 0]%nat * vget sw 0 + L [1; 1]%nat * vget sw 1 + 0]; w].
Proof. unfold mean_field_update. rewrite marginal_2x2_0. reflexivity. Qed.

Lemma update_2x2_1 (L : tensor) (su sw u w : vec) :
  mean_field_update [2; 2]%nat L [[0; 0]; [0; 0]] [su; sw] [u; w] 1
  = [u; softmax [L [0; 0]%nat * vget su 0 + L [1; 0]%nat * vget su 1 + 0;
                 L [0; 1]%nat * vget su 0 + L [1; 1]%nat * vget su 1 + 0]].
Proof. unfold mean_field_update. rewrite marginal_2x2_1. reflexivity. Qed.

(** with a likelihood that couples the two factors, a pass that weights
    by the beliefs held at its start ends elsewhere than one that weights
    by the beliefs just updated *)
Lemma stale_differs_from_fresh (L : tensor) (c m : R) :
  L [0; 0]%nat = c -> L [0; 1]%nat = c -> L [1; 0]%nat = c -> L [1; 1]%nat = m ->
  m <> c ->
  stale_passes [2; 2]%nat L [[0; 0]; [0; 0]] (map flat [2; 2]%nat)
  <> fold_left (fresh_update [2; 2]%nat L [[0; 0]; [0; 0]]) (two_passes 2)
       (map flat [2; 2]%nat).
Proof.
  intros H00 H01 H10 H11 Hmc.
  unfold stale_passes, two_passes, fresh_update.
  cbn [length range seq rev app fold_left map].
  rewrite !update_2x2_0, !update_2x2_1, ?update_2x2_0, ?update_2x2_1.
  rewrite H00, H01, H10, H11.
  intros Heq.
  apply (f_equal (fun l => vget (nth 0 l []) 1)) in Heq. cbn [nth] in Heq.
  apply softmax_pair_inj in Heq.
  assert (Hh : vget (flat 2) 1 = 1 / 2) by (unfold flat, vget; simpl; lra).
  assert (Hh0 : vget (flat 2) 0 = 1 / 2) by (unfold flat, vget; simpl; lra).
  rewrite Hh, Hh0 in Heq.
  set (W := softmax [c * (1 / 2) + c * (1 / 2) + 0; c * (1 / 2) + m * (1 / 2) + 0]) in Heq.
  set (V := softmax [c * vget W 0 + c * vget W 1 + 0; c * vget W 0 + m * vget W 1 + 0]) in Heq.
  assert (E1 : vget W 1 = vget V 1).
  { apply (Rmult_eq_reg_l (c - m)); lra. }
  unfold V in E1. unfold W in E1 at 1.
  apply softmax_pair_inj in E1.
  assert (E2 : vget W 1 = 1 / 2).
  { apply (Rmult_eq_reg_l (c - m)); lra. }
  unfold W in E2. apply softmax_pair_half in E2.
  apply Hmc. lra.
Qed.

(** ** Every iteration of the two solvers *)

Lemma dividable_init (Ns : list nat) : dividable Ns (init_qx Ns).
Proof.
  rewrite init_qx_flat. split; [apply length_map|].
  intros f Hf.
  assert (E : nth f (map flat Ns) [] = flat (nth f Ns O)).
  { rewrite (nth_indep _ [] (flat O)) by (rewrite length_map; exact Hf).
    apply (map_nth flat). }
  rewrite E. unfold flat. split; [apply repeat_length|].
  apply Forall_forall. intros x Hx.
  destruct (nth f Ns O) as [|n] eqn:En; [destruct Hx|].
  apply repeat_spec in Hx. subst x.
  apply Rdiv_lt_0_compat; [lra|]. apply lt_0_INR. lia.
Qed.

Lemma run_FPI_faster_passes_stale Ns L prior (qx : list vec) :
  prior_fits Ns prior -> dividable Ns qx ->
  run_FPI_faster_passes Ns L prior qx = stale_passes Ns L prior qx
  /\ dividable Ns (stale_passes Ns L prior qx).
Proof.
  intros Hp Hq.
  assert (H1 : dividable Ns
                 (fold_left (mean_field_update Ns L prior qx) (range (length Ns)) qx))
    by (apply fold_mean_field_dividable; assumption).
  split.
  - unfold run_FPI_faster_passes, stale_passes, factor_order. simpl.
    rewrite range_down_rev.
    rewrite (faster_pass_stale Ns L prior qx (range (length Ns))) by auto.
    rewrite faster_pass_stale by auto. reflexivity.
  - unfold stale_passes. apply fold_mean_field_dividable; assumption.
Qed.

Lemma faster_iterations_dividable Ns L prior (k : nat) :
  prior_fits Ns prior ->
  dividable Ns (fst (after_iterations (run_FPI_faster_passes Ns L prior) Ns L prior k)).
Proof.
  intros Hp. induction k as [|k IH]; simpl.
  - apply dividable_init.
  - destruct (run_FPI_faster_passes_stale Ns L prior _ Hp IH) as [-> H]. exact H.
Qed.

Lemma run_FPI_iterations_length Ns L prior (k : nat) :
  length (fst (after_iterations (run_FPI_passes Ns L prior) Ns L prior k)) = length Ns.
Proof.
  induction k as [|k IH]; simpl.
  - apply init_qx_length.
  - rewrite run_FPI_passes_fresh by exact IH.
    apply (fold_update_factor_fresh Ns L prior (two_passes (length Ns)) _ IH).
Qed.

Lemma eps_pos : 0 < eps.
Proof. unfold eps. lra. Qed.

Lemma L_coupled_values :
  L_coupled [0; 0]%nat = ln (1 + eps) /\ L_coupled [0; 1]%nat = ln (1 + eps)
  /\ L_coupled [1; 0]%nat = ln (1 + eps) /\ L_coupled [1; 1]%nat = ln (0.5 + eps).
Proof.
  unfold L_coupled, joint_log_likelihood, tlog, tmul, tones, obs_likelihood,
    spm_dot_obs, rsum, vget.
  simpl. repeat split; f_equal; lra.
Qed.

(** C1, as amended: with more than one factor every iteration makes two
    passes, ascending then descending, and replaces [qx[f]] by
    [softmax(qL + prior[f])] at each factor visited.  In [run_FPI] the
    marginal [qL] is weighted by the beliefs current at that moment,
    those just updated included; in [run_FPI_faster] it is weighted by the
    beliefs held when the pass began. *)
Theorem iteration_two_passes
    (A : pyarr ndarray) (observation : pyarr vec) (prior : list vec)
    (No Ns : list nat) (k : nat) :
  (1 < length Ns)%nat ->
  let L := joint_log_likelihood A observation No in
  fst (after_iterations (run_FPI_passes Ns L prior) Ns L prior (S k))
  = fold_left (fresh_update Ns L prior) (two_passes (length Ns))
      (fst (after_iterations (run_FPI_passes Ns L prior) Ns L prior k))
  /\ (prior_fits Ns prior ->
      fst (after_iterations (run_FPI_faster_passes Ns L prior) Ns L prior (S k))
      = stale_passes Ns L prior
          (fst (after_iterations (run_FPI_faster_passes Ns L prior) Ns L prior k))).
Proof.
  intros _ L. split.
  - simpl. apply run_FPI_passes_fresh. apply run_FPI_iterations_length.
  - intros Hp. simpl.
    apply run_FPI_faster_passes_stale; [exact Hp|].
    apply faster_iterations_dividable. exact Hp.
Qed.

Lemma prior_flat2_fits : prior_fits [2; 2]%nat prior_flat2.
Proof.
  intros f Hf. simpl in Hf.
  destruct f as [|[|f]]; [reflexivity|reflexivity|lia].
Defined.

Lemma iteration_two_passes_witness :
  (1 < length [2; 2]%nat)%nat
  /\ prior_fits [2; 2]%nat prior_flat2
  /\ fst (after_iterations (run_FPI_passes [2; 2]%nat L_coupled prior_flat2)
            [2; 2]%nat L_coupled prior_flat2 1)
     = fold_left (fresh_update [2; 2]%nat L_coupled prior_flat2) (two_passes 2)
         (init_qx [2; 2]%nat)
  /\ fst (after_iterations (run_FPI_faster_passes [2; 2]%nat L_coupled prior_flat2)
            [2; 2]%nat L_coupled prior_flat2 1)
     = stale_passes [2; 2]%nat L_coupled prior_flat2 (init_qx [2; 2]%nat).
Proof.
  split; [simpl; lia|]. split; [exact prior_flat2_fits|].
  destruct (iteration_two_passes (Num A_coupled) (Num [1; 0]) prior_flat2
              [2%nat] [2; 2]%nat 0 ltac:(simpl; lia)) as [H1 H2].
  split; [exact H1|exact (H2 prior_flat2_fits)].
Defined.

(** C1, as stated, fails for [run_FPI_faster]: on a likelihood that
    couples two factors its first iteration does not end where two passes
    of updates weighted by the current beliefs end. *)
Lemma faster_iteration_not_fresh :
  (1 < length [2; 2]%nat)%nat
  /\ fst (after_iterations (run_FPI_faster_passes [2; 2]%nat L_coupled prior_flat2)
            [2; 2]%nat L_coupled prior_flat2 1)
     <> fold_left (fresh_update [2; 2]%nat L_coupled prior_flat2) (two_passes 2)
          (fst (after_iterations (run_FPI_faster_passes [2; 2]%nat L_coupled prior_flat2)
                  [2; 2]%nat L_coupled prior_flat2 0)).
Proof.
  split; [simpl; lia|].
  cbn [after_iterations fst].
  destruct (run_FPI_faster_passes_stale [2; 2]%nat L_coupled prior_flat2
              (init_qx [2; 2]%nat) prior_flat2_fits (dividable_init _)) as [-> _].
  rewrite init_qx_flat.
  destruct L_coupled_values as [H00 [H01 [H10 H11]]].
  apply (stale_differs_from_fresh L_coupled (ln (1 + eps)) (ln (0.5 + eps)));
    try assumption.
  pose proof eps_pos as He.
  intros Hln. apply ln_inv in Hln; lra.
Qed.

(** ** The beliefs as categorical distributions *)

Lemma Forall_list_set {T} (P : T -> Prop) (f : nat) (v : T) (l : list T) :
  Forall P l -> ((f < length l)%nat -> P v) -> Forall P (list_set f v l).
Proof.
  revert f. induction l as [|x l IH]; intros f Hl Hv.
  - destruct f; constructor.
  - inversion Hl; subst. destruct f as [|f]; simpl.
    + constructor; [apply Hv; simpl; lia|assumption].
    + constructor; [assumption|]. apply IH; [assumption|].
      intros Hf. apply Hv. simpl. lia.
Qed.

Lemma vsum_repeat (a : R) (n : nat) : vsum (repeat a n) = INR n * a.
Proof.
  induction n as [|n IH].
  - simpl. lra.
  - rewrite S_INR. simpl. rewrite IH. lra.
Qed.

Lemma flat_categorical (n : nat) : (0 < n)%nat -> is_categorical (flat n).
Proof.
  intros Hn. assert (0 < INR n) by (apply lt_0_INR; exact Hn).
  unfold flat. split.
  - apply Forall_forall. intros x Hx. apply repeat_spec in Hx. subst x.
    apply Rlt_le, Rdiv_lt_0_compat; lra.
  - rewrite vsum_repeat. field. lra.
Qed.

Lemma init_qx_categorical (Ns : list nat) :
  Forall (fun n => (0 < n)%nat) Ns -> Forall is_categorical (init_qx Ns).
Proof.
  intros HNs. rewrite init_qx_flat. apply Forall_map.
  eapply Forall_impl; [|exact HNs]. apply flat_categorical.
Qed.

Section Categorical.

Variables (Ns : list nat) (prior : list vec).
Hypothesis Ns_pos : Forall (fun n => (0 < n)%nat) Ns.
Hypothesis prior_ok : prior_fits Ns prior.

Lemma softmax_update_categorical (qL : vec) (f : nat) :
  (f < length Ns)%nat -> length qL = nth f Ns O ->
  is_categorical (softmax (vadd qL (nth f prior []))).
Proof.
  intros Hf HqL. apply softmax_categorical.
  assert (Hn : (0 < nth f Ns O)%nat).
  { rewrite Forall_forall in Ns_pos. apply Ns_pos, nth_In. exact Hf. }
  intros E. apply (f_equal (@length R)) in E.
  rewrite vadd_length, HqL, (prior_ok f Hf), Nat.min_id in E. simpl in E. lia.
Qed.

Lemma fold_updates_categorical (upd : list vec -> nat -> list vec) (order : list nat) :
  (forall q f, (f < length Ns)%nat -> length q = length Ns ->
     Forall is_categorical q ->
     length (upd q f) = length Ns /\ Forall is_categorical (upd q f)) ->
  (forall f, In f order -> (f < length Ns)%nat) ->
  forall q, length q = length Ns -> Forall is_categorical q ->
    length (fold_left upd order q) = length Ns
    /\ Forall is_categorical (fold_left upd order q).
Proof.
  intros Hupd. induction order as [|f order IH]; intros Hin q Hlen Hq; simpl.
  - auto.
  - destruct (Hupd q f (Hin f (or_introl eq_refl)) Hlen Hq) as [Hl' Hq'].
    apply IH; auto. intros g Hg. apply Hin. right. exact Hg.
Qed.

Lemma factor_order_in_range (f_loop f : nat) :
  In f (factor_order (length Ns) f_loop) -> (f < length Ns)%nat.
Proof.
  unfold factor_order. destruct (Nat.eqb f_loop 0); intros H.
  - apply in_range. exact H.
  - rewrite range_down_rev in H. apply in_rev in H. apply in_range. exact H.
Qed.

Lemma update_factor_categorical (L : tensor) (q : list vec) (f : nat) :
  (f < length Ns)%nat -> length q = length Ns -> Forall is_categorical q ->
  length (update_factor Ns L prior q f) = length Ns
  /\ Forall is_categorical (update_factor Ns L prior q f).
Proof.
  intros Hf Hlen Hq. unfold update_factor. split.
  - rewrite list_set_length. exact Hlen.
  - apply Forall_list_set; [exact Hq|]. intros _.
    apply softmax_update_categorical; [exact Hf|apply spm_dot_omit_length].
Qed.

Lemma run_FPI_passes_categorical (L : tensor) (q : list vec) :
  length q = length Ns -> Forall is_categorical q ->
  length (run_FPI_passes Ns L prior q) = length Ns
  /\ Forall is_categorical (run_FPI_passes Ns L prior q).
Proof.
  intros Hlen Hq. unfold run_FPI_passes. simpl.
  destruct (fold_updates_categorical (update_factor Ns L prior)
              (factor_order (length Ns) 0) (update_factor_categorical L)
              (factor_order_in_range 0) q Hlen Hq) as [Hl1 Hq1].
  apply (fold_updates_categorical (update_factor Ns L prior)
           (factor_order (length Ns) 1) (update_factor_categorical L)
           (factor_order_in_range 1) _ Hl1 Hq1).
Qed.

Lemma iterations_categorical (passes : list vec -> list vec) (L : tensor) :
  (forall q, length q = length Ns -> Forall is_categorical q ->
     length (passes q) = length Ns /\ Forall is_categorical (passes q)) ->
  forall k,
    length (fst (after_iterations passes Ns L prior k)) = length Ns
    /\ Forall is_categorical (fst (after_iterations passes Ns L prior k)).
Proof.
  intros Hp. induction k as [|k [IH1 IH2]]; simpl.
  - split; [apply init_qx_length|apply init_qx_categorical; exact Ns_pos].
  - apply Hp; assumption.
Qed.

End Categorical.

Lemma tensor_vec_length (n : nat) (L : tensor) : length (tensor_vec n L) = n.
Proof. unfold tensor_vec, range. rewrite length_map, length_seq. reflexivity. Qed.

Lemma fresh_fold_dividable Ns L prior (order : list nat) :
  prior_fits Ns prior ->
  forall qx, dividable Ns qx ->
  dividable Ns (fold_left (fresh_update Ns L prior) order qx).
Proof.
  intros Hp. induction order as [|f order IH]; intros qx Hq; simpl.
  - exact Hq.
  - apply IH. apply mean_field_update_dividable; assumption.
Qed.

Lemma run_FPI_iterations_dividable Ns L prior (k : nat) :
  prior_fits Ns prior ->
  dividable Ns (fst (after_iterations (run_FPI_passes Ns L prior) Ns L prior k)).
Proof.
  intros Hp. induction k as [|k IH]; simpl.
  - apply dividable_init.
  - rewrite run_FPI_passes_fresh by apply IH.
    apply fresh_fold_dividable; assumption.
Qed.

(** in exact arithmetic [run_FPI] returns, for a prior that fits, vectors
    of the right lengths whose entries are non-negative and sum to 1 *)
Lemma run_FPI_returns_categorical
    (A : pyarr ndarray) (observation : pyarr vec) (prior : list vec)
    (No Ns : list nat) (num_iter : Z) (dF_tol : R) :
  Ns <> [] ->
  Forall (fun n => (0 < n)%nat) Ns ->
  prior_fits Ns prior ->
  exists p, run_FPI A observation prior No Ns num_iter dF_tol = Some p
            /\ valid_posterior p /\ has_shape Ns p.
Proof.
  intros Hne HNs Hp.
  destruct (Nat.eq_dec (length Ns) 1) as [H1|H1].
  - destruct Ns as [|n [|m Ns']]; try discriminate.
    eexists (Single _). split; [unfold run_FPI; apply run_FPI_fuel_single|]. split.
    + apply (softmax_update_categorical [n] prior HNs Hp _ 0%nat);
        [simpl; lia|apply tensor_vec_length].
    + simpl. rewrite softmax_length, vadd_length, tensor_vec_length.
      rewrite (Hp 0%nat) by (simpl; lia). simpl. apply Nat.min_id.
  - assert (H2 : (1 < length Ns)%nat) by (destruct Ns as [|n [|m Ns']]; simpl in *; try lia; congruence).
    destruct (run_FPI_ends A observation prior No Ns num_iter dF_tol H2)
      as [n [s [_ [Hend Hrun]]]].
    exists (Factors (st_qx s)). split; [exact Hrun|].
    destruct Hend as [_ [Hq _]]. simpl. rewrite Hq. split.
    + apply (iterations_categorical Ns prior HNs); intros q.
      apply run_FPI_passes_categorical; assumption.
    + destruct (run_FPI_iterations_dividable Ns
                  (joint_log_likelihood A observation No) prior n Hp) as [Hl Hf].
      split; [exact Hl|]. intros f Hlt. apply (Hf f Hlt).
Qed.

Lemma softmax_pair_fst_bound (x y : R) :
  0 < vget (softmax [x; y]) 0 < exp (x - y).
Proof.
  pose proof (softmax_pos [x; y]) as Hpos.
  inversion Hpos as [|? ? H0 _]; subst.
  split; [exact H0|]. clear Hpos H0.
  unfold softmax, vget. simpl.
  set (M := vmax [x; y]).
  pose proof (exp_pos (x - M)) as Ha. pose proof (exp_pos (y - M)) as Hb.
  pose proof (exp_pos (x - y)) as He.
  assert (E : exp (x - y) * exp (y - M) = exp (x - M))
    by (rewrite <- exp_plus; f_equal; lra).
  apply (Rmult_lt_reg_r (exp (x - M) + (exp (y - M) + 0))); [lra|].
  unfold Rdiv. rewrite Rmult_assoc, Rinv_l by lra. nra.
Qed.

Lemma pow2_le_exp (n : nat) : 2 ^ n <= exp (INR n).
Proof.
  induction n as [|n IH].
  - simpl. rewrite exp_0. lra.
  - rewrite S_INR, exp_plus. change (2 ^ S n) with (2 * 2 ^ n).
    pose proof (exp_ineq1 1 ltac:(lra)) as H1.
    pose proof (pow_lt 2 n ltac:(lra)) as H2.
    nra.
Qed.

Lemma exp_below_pow (k n : nat) (z : R) :
  (k < n)%nat -> z < - INR n -> exp z < / 2 ^ k.
Proof.
  intros Hk Hz.
  apply Rlt_trans with (exp (- INR n)); [apply exp_increasing; exact Hz|].
  rewrite exp_Ropp.
  pose proof (pow2_le_exp n) as H1.
  pose proof (Rlt_pow 2 k n ltac:(lra) Hk) as H2.
  pose proof (pow_lt 2 k ltac:(lra)) as H3.
  apply Rinv_lt_contravar; [|lra].
  apply Rmult_lt_0_compat; [exact H3|lra].
Qed.

Lemma ln_floor_bounds : ln (1 + eps) < 1 /\ -1 < ln (0.5 + eps).
Proof.
  pose proof eps_pos as He.
  pose proof (exp_ineq1 1 ltac:(lra)) as H1.
  split.
  - assert (H : ln (1 + eps) < ln (exp 1))
      by (apply ln_increasing; unfold eps in *; lra).
    rewrite ln_exp in H. exact H.
  - assert (H2 : / exp 1 < / 2) by (apply Rinv_lt_contravar; lra).
    assert (H : ln (exp (- (1))) < ln (0.5 + eps)).
    { apply ln_increasing; [apply exp_pos|]. rewrite exp_Ropp. lra. }
    rewrite ln_exp in H. lra.
Qed.

Lemma prior_skewed_fits : prior_fits [2; 2]%nat prior_skewed.
Proof.
  intros f Hf. simpl in Hf.
  destruct f as [|[|f]]; [reflexivity|reflexivity|lia].
Qed.

(** C5, at the call [run_FPI_faster(A, [1, 0], [[-2000, 0], [0, 0]], [2],
    [2, 2])] with the likelihood of two coupled factors: in exact
    arithmetic the first entry of [qx[0]] after the ascending pass of the
    first iteration is positive but lies below [2^-1075], half the least
    positive double, so the solver holds a zero there; the reciprocal
    [1.0 / qx[0]] that the descending pass multiplies into [X] exceeds
    every double.  [run_FPI], which never divides by a belief, returns a
    valid categorical posterior at the same arguments. *)
Theorem faster_belief_underflows :
  let Ns := [2; 2]%nat in
  let q := faster_pass Ns L_coupled prior_skewed (init_qx Ns) (factor_order 2 0) in
  0 < vget (nth 0 q []) 0 < / 2 ^ 1075
  /\ 2 ^ 1075 < vget (vinv (nth 0 q [])) 0
  /\ exists p,
       run_FPI (Num A_coupled) (Num [1; 0]) prior_skewed [2%nat] Ns
         default_num_iter default_dF_tol = Some p
       /\ valid_posterior p.
Proof.
  intros Ns q.
  assert (Hq : exists x y, nth 0 q [] = softmax [x; y] /\ x - y < - INR 1999).
  { unfold q, Ns.
    rewrite faster_pass_stale; [|apply dividable_init|left; reflexivity].
    rewrite init_qx_flat.
    change (factor_order 2 0) with [0; 1]%nat.
    cbn [fold_left map].
    unfold mean_field_update.
    rewrite list_set_nth_other by discriminate.
    rewrite list_set_nth_same by (simpl; lia).
    rewrite marginal_2x2_0.
    destruct L_coupled_values as [-> [-> [-> ->]]].
    assert (Hh : vget (flat 2) 1 = 1 / 2) by (unfold flat, vget; simpl; lra).
    assert (Hh0 : vget (flat 2) 0 = 1 / 2) by (unfold flat, vget; simpl; lra).
    rewrite Hh, Hh0. unfold prior_skewed. cbn [nth vadd].
    eexists _, _. split; [reflexivity|].
    rewrite INR_IZR_INZ. change (Z.of_nat 1999) with 1999%Z.
    destruct ln_floor_bounds as [Hc Hm]. lra. }
  destruct Hq as [x [y [Eq Hz]]].
  assert (Hsmall : 0 < vget (nth 0 q []) 0 < / 2 ^ 1075).
  { rewrite Eq. destruct (softmax_pair_fst_bound x y) as [H0 H1].
    split; [exact H0|].
    eapply Rlt_trans; [exact H1|].
    apply (exp_below_pow 1075 1999); [|exact Hz].
    apply Nat.ltb_lt. vm_compute. reflexivity. }
  split; [exact Hsmall|]. split.
  - rewrite vget_vinv by (rewrite Eq, softmax_length; simpl; lia).
    destruct Hsmall as [H0 H1].
    pose proof (pow_lt 2 1075 ltac:(lra)) as Hpow.
    rewrite <- (Rinv_inv (2 ^ 1075)).
    unfold Rdiv. rewrite Rmult_1_l.
    apply Rinv_lt_contravar; [|exact H1].
    apply Rmult_lt_0_compat; [exact H0|]. apply Rinv_0_lt_compat. exact Hpow.
  - destruct (run_FPI_returns_categorical (Num A_coupled) (Num [1; 0]) prior_skewed
                [2%nat] Ns default_num_iter default_dF_tol) as [p [H1 [H2 _]]].
    + discriminate.
    + repeat constructor.
    + exact prior_skewed_fits.
    + exists p. split; assumption.
Qed.

(** ** The initial value of [F_prev] *)

Lemma fold_left_add_ext (g g' : nat -> R) (l : list nat) (a : R) :
  (forall f, g f = g' f) ->
  fold_left (fun F f => F + g f) l a = fold_left (fun F f => F + g' f) l a.
Proof.
  intros H. revert a. induction l as [|x l IH]; intros a; simpl.
  - reflexivity.
  - rewrite H. apply IH.
Qed.

(** the loop's free energy is the initial formula less the expected
    log-likelihood *)
Lemma init_F_prev_free_energy (Ns : list nat) (L : tensor) (qx prior : list vec) :
  init_F_prev (length Ns) qx prior
  = free_energy Ns L qx prior + spm_dot_all Ns L qx.
Proof.
  unfold init_F_prev, free_energy, h_qx, xh_qx_px.
  rewrite (fold_left_add_ext
             (fun f => - vdot (nth f qx []) (vlog (nth f qx []))
                       - vdot (nth f qx []) (nth f prior []))
             (fun f => - vdot (nth f qx []) (vlog (nth f qx []))
                       + - vdot (nth f qx []) (nth f prior []))).
  - lra.
  - intros f. lra.
Qed.

Lemma init_qx_uniform (Ns : list nat) : init_qx Ns = map uniform Ns.
Proof.
  rewrite init_qx_flat. apply map_ext. apply flat_uniform.
Qed.

Lemma flat_2 : flat 2 = [1 / 2; 1 / 2].
Proof.
  unfold flat. assert (1 / INR 2 = 1 / 2) as -> by (simpl; lra). reflexivity.
Qed.

Lemma spm_dot_all_2x2_const (L : tensor) (c : R) :
  L [0; 0]%nat = c -> L [0; 1]%nat = c -> L [1; 0]%nat = c -> L [1; 1]%nat = c ->
  spm_dot_all [2; 2]%nat L [[1 / 2; 1 / 2]; [1 / 2; 1 / 2]] = c.
Proof.
  intros H00 H01 H10 H11.
  unfold spm_dot_all, rsum, vget, slice. simpl. unfold rsum, slice, vget. simpl.
  rewrite H00, H01, H10, H11. lra.
Qed.

Lemma L_half_values (ix : index) : L_half ix = ln (0.5 + eps).
Proof.
  unfold L_half, joint_log_likelihood, tlog, tmul, tones, obs_likelihood,
    spm_dot_obs, rsum, vget.
  simpl. f_equal. lra.
Qed.

(** C6, at a uniform likelihood over two binary factors: the beliefs
    start uniform, but the initial [F_prev] is not the free energy of
    section 4.4 at those beliefs: it is that free energy plus the
    expected log-likelihood, here [log(0.5 + 1e-16)], which is negative,
    so [F_prev] lies below the free energy. *)
Theorem init_F_prev_omits_likelihood :
  init_qx [2; 2]%nat = [uniform 2; uniform 2]
  /\ init_F_prev 2 (init_qx [2; 2]%nat) prior_flat2
     = free_energy [2; 2]%nat L_half (init_qx [2; 2]%nat) prior_flat2 + ln (0.5 + eps)
  /\ ln (0.5 + eps) < 0
  /\ init_F_prev 2 (init_qx [2; 2]%nat) prior_flat2
     <> free_energy [2; 2]%nat L_half (init_qx [2; 2]%nat) prior_flat2.
Proof.
  assert (Hneg : ln (0.5 + eps) < 0).
  { rewrite <- ln_1. pose proof eps_pos. apply ln_increasing; unfold eps in *; lra. }
  assert (HF : init_F_prev 2 (init_qx [2; 2]%nat) prior_flat2
               = free_energy [2; 2]%nat L_half (init_qx [2; 2]%nat) prior_flat2
                 + ln (0.5 + eps)).
  { rewrite (init_F_prev_free_energy [2; 2]%nat L_half). f_equal.
    rewrite init_qx_flat. simpl map. rewrite flat_2.
    apply spm_dot_all_2x2_const; apply L_half_values. }
  split; [apply init_qx_uniform|]. split; [exact HF|]. split; [exact Hneg|].
  rewrite HF. lra.
Qed.

(** ** The two ways out of the loop *)

Lemma exhausting_run_ends_alike (passes : list vec -> list vec)
    (Ns : list nat) (L : tensor) (prior : list vec) (num_iter : Z) (dF_tol : R)
    (n : nat) (s : loop_state) :
  ends_after passes Ns L prior num_iter dF_tol n s ->
  exists s',
    fpi_while passes Ns L prior (Z.of_nat n) 0 n (init_state Ns prior) = Some s'
    /\ st_stopped s' = false
    /\ st_qx s' = st_qx s.
Proof.
  intros [_ [Hq _]].
  destruct (fpi_while_total passes Ns L prior (Z.of_nat n) 0 (init_state Ns prior))
    as [n' [s' [Hrun Hend]]]; try reflexivity.
  rewrite Nat2Z.id in Hrun. unfold ends_after in Hend. rewrite Nat2Z.id in Hend.
  destruct Hend as [Hn' [Hq' [_ [_ [Hstop Hcap]]]]].
  exists s'. split; [exact Hrun|].
  assert (Hs : st_stopped s' = false).
  { destruct (st_stopped s') eqn:E; [|reflexivity].
    destruct (proj1 Hstop eq_refl) as [k [_ Hk]].
    unfold dF_at in Hk. pose proof (Rabs_pos
      (snd (after_iterations passes Ns L prior k)
       - snd (after_iterations passes Ns L prior (S k)))). lra. }
  split; [exact Hs|].
  assert (n' = n) as ->.
  { destruct (Nat.eq_dec n' n) as [E|E]; [exact E|].
    rewrite Hcap in Hs by lia. discriminate. }
  congruence.
Qed.

(** C8, as amended: with more than one factor the solvers return the bare
    [qx] on both ways out of the loop, and the value returned tells
    nothing about which one was taken: whatever a call returns after [n]
    iterations is also what the call with [num_iter = n] and
    [dF_tol = 0] returns, which runs to its cap without ever meeting the
    tolerance. *)
Theorem return_carries_no_exit_signal
    (A : pyarr ndarray) (observation : pyarr vec) (prior : list vec)
    (No Ns : list nat) (num_iter : Z) (dF_tol : R) :
  (1 < length Ns)%nat ->
  (exists n s s',
      run_FPI_loop (Z.to_nat num_iter) A observation prior No Ns num_iter dF_tol = Some s
      /\ run_FPI_loop n A observation prior No Ns (Z.of_nat n) 0 = Some s'
      /\ st_stopped s' = false
      /\ run_FPI A observation prior No Ns (Z.of_nat n) 0
         = run_FPI A observation prior No Ns num_iter dF_tol)
  /\ (exists n s s',
      run_FPI_faster_loop (Z.to_nat num_iter) A observation prior No Ns num_iter dF_tol
      = Some s
      /\ run_FPI_faster_loop n A observation prior No Ns (Z.of_nat n) 0 = Some s'
      /\ st_stopped s' = false
      /\ run_FPI_faster A observation prior No Ns (Z.of_nat n) 0
         = run_FPI_faster A observation prior No Ns num_iter dF_tol).
Proof.
  intros HNf.
  assert (Hne : length Ns <> 1%nat) by lia.
  assert (Heqb : Nat.eqb (length Ns) 1 = false) by (apply Nat.eqb_neq; exact Hne).
  assert (Heq0 : Nat.eqb (length Ns) 0 = false) by (apply Nat.eqb_neq; lia).
  split.
  - destruct (run_FPI_ends A observation prior No Ns num_iter dF_tol HNf)
      as [n [s [Hrun [Hend Hret]]]].
    destruct (exhausting_run_ends_alike _ _ _ _ _ _ _ _ Hend) as [s' [Hrun' [Hs' Hq']]].
    exists n, s, s'. split; [exact Hrun|]. split; [exact Hrun'|]. split; [exact Hs'|].
    rewrite Hret. unfold run_FPI, run_FPI_fuel, run_FPI_loop.
    rewrite Heq0, Heqb, Nat2Z.id, Hrun', Hq'. reflexivity.
  - destruct (run_FPI_faster_ends A observation prior No Ns num_iter dF_tol HNf)
      as [n [s [Hrun [Hend Hret]]]].
    destruct (exhausting_run_ends_alike _ _ _ _ _ _ _ _ Hend) as [s' [Hrun' [Hs' Hq']]].
    exists n, s, s'. split; [exact Hrun|]. split; [exact Hrun'|]. split; [exact Hs'|].
    rewrite Hret. unfold run_FPI_faster, run_FPI_faster_fuel, run_FPI_faster_loop.
    rewrite Heq0, Heqb, Nat2Z.id, Hrun', Hq'. reflexivity.
Qed.

Lemma return_carries_no_exit_signal_witness :
  (1 < length [2; 2]%nat)%nat
  /\ exists n s s',
      run_FPI_loop (Z.to_nat 10) (Num A_certain) (Num [1; 0]) prior_flat2
        [2%nat] [2; 2]%nat 10 0.001 = Some s
      /\ run_FPI_loop n (Num A_certain) (Num [1; 0]) prior_flat2
           [2%nat] [2; 2]%nat (Z.of_nat n) 0 = Some s'
      /\ st_stopped s' = false
      /\ run_FPI (Num A_certain) (Num [1; 0]) prior_flat2 [2%nat] [2; 2]%nat (Z.of_nat n) 0
         = run_FPI (Num A_certain) (Num [1; 0]) prior_flat2 [2%nat] [2; 2]%nat 10 0.001.
Proof.
  split; [simpl; lia|].
  exact (proj1 (return_carries_no_exit_signal (Num A_certain) (Num [1; 0]) prior_flat2
                  [2%nat] [2; 2]%nat 10 0.001 ltac:(simpl; lia))).
Defined.

Lemma softmax_pair_same (x : R) : softmax [x; x] = [1 / 2; 1 / 2].
Proof.
  unfold softmax. simpl.
  pose proof (exp_pos (x - vmax [x; x])).
  f_equal; [|f_equal]; field; lra.
Qed.

Lemma L_certain_values (i j : nat) : L_certain [i; j] = ln (1 + eps).
Proof.
  unfold L_certain, joint_log_likelihood, tlog, tmul, tones, obs_likelihood,
    spm_dot_obs, rsum, vget.
  simpl. f_equal. lra.
Qed.

Lemma certain_beliefs_stay :
  run_FPI_passes [2; 2]%nat L_certain prior_flat2 [[1 / 2; 1 / 2]; [1 / 2; 1 / 2]]
  = [[1 / 2; 1 / 2]; [1 / 2; 1 / 2]].
Proof.
  rewrite run_FPI_passes_fresh by reflexivity.
  unfold two_passes, fresh_update, prior_flat2.
  cbn [length range seq rev app fold_left].
  do 4 (rewrite ?update_2x2_0, ?update_2x2_1, ?L_certain_values, ?softmax_pair_same).
  reflexivity.
Qed.

Lemma ln_eps_small : 0 < ln (1 + eps) < 0.001.
Proof.
  pose proof eps_pos as He. split.
  - rewrite <- ln_1. apply ln_increasing; lra.
  - rewrite <- (ln_exp 0.001). apply ln_increasing; [lra|].
    pose proof (exp_ineq1 0.001 ltac:(lra)). unfold eps in *. lra.
Qed.

Lemma certain_first_change :
  dF_at (run_FPI_passes [2; 2]%nat L_certain prior_flat2) [2; 2]%nat L_certain
    prior_flat2 0 = ln (1 + eps).
Proof.
  unfold dF_at. cbn [after_iterations fst snd].
  rewrite init_qx_flat. cbn [map]. rewrite flat_2. unfold vec.
  rewrite certain_beliefs_stay.
  change (length [2; 2]%nat) with 2%nat.
  rewrite (init_F_prev_free_energy [2; 2]%nat L_certain).
  rewrite spm_dot_all_2x2_const with (c := ln (1 + eps)) by apply L_certain_values.
  pose proof ln_eps_small.
  rewrite Rabs_right; lra.
Qed.

(** C8, as stated, fails: when the first outcome is certain the call with
    [num_iter = 1] and [dF_tol = 0] runs to its cap without meeting the
    tolerance, the call with the defaults leaves the loop early, and the
    two return the same value, with nothing to tell them apart. *)
Lemma exhausted_and_converged_return_alike :
  exists s1 s2,
    run_FPI_loop (Z.to_nat 1) (Num A_certain) (Num [1; 0]) prior_flat2
      [2%nat] [2; 2]%nat 1 0 = Some s1
    /\ st_stopped s1 = false
    /\ run_FPI_loop (Z.to_nat 10) (Num A_certain) (Num [1; 0]) prior_flat2
         [2%nat] [2; 2]%nat 10 0.001 = Some s2
    /\ st_stopped s2 = true
    /\ run_FPI (Num A_certain) (Num [1; 0]) prior_flat2 [2%nat] [2; 2]%nat 1 0
       = run_FPI (Num A_certain) (Num [1; 0]) prior_flat2 [2%nat] [2; 2]%nat 10 0.001.
Proof.
  pose proof certain_first_change as HdF. pose proof ln_eps_small as Hc.
  destruct (run_FPI_ends (Num A_certain) (Num [1; 0]) prior_flat2 [2%nat] [2; 2]%nat
              1 0 ltac:(simpl; lia)) as [n1 [s1 [Hrun1 [Hend1 Hret1]]]].
  destruct (run_FPI_ends (Num A_certain) (Num [1; 0]) prior_flat2 [2%nat] [2; 2]%nat
              10 0.001 ltac:(simpl; lia)) as [n2 [s2 [Hrun2 [Hend2 Hret2]]]].
  change (joint_log_likelihood (Num A_certain) (Num [1; 0]) [2%nat])
    with L_certain in Hend1, Hend2.
  destruct Hend1 as [Hn1 [Hq1 [_ [_ [Hstop1 Hcap1]]]]].
  destruct Hend2 as [Hn2 [Hq2 [_ [Hno2 [Hstop2 Hcap2]]]]].
  assert (Hs1 : st_stopped s1 = false).
  { destruct (st_stopped s1) eqn:E; [|reflexivity].
    destruct (proj1 Hstop1 eq_refl) as [k [_ Hk]].
    unfold dF_at in Hk.
    pose proof (Rabs_pos
      (snd (after_iterations (run_FPI_passes [2; 2]%nat L_certain prior_flat2)
              [2; 2]%nat L_certain prior_flat2 k)
       - snd (after_iterations (run_FPI_passes [2; 2]%nat L_certain prior_flat2)
                [2; 2]%nat L_certain prior_flat2 (S k)))). lra. }
  assert (En1 : n1 = 1%nat).
  { change (Z.to_nat 1) with 1%nat in Hn1, Hcap1.
    destruct (Nat.eq_dec n1 1) as [E|E]; [exact E|].
    rewrite Hcap1 in Hs1 by lia. discriminate. }
  assert (Hlt2 : (n2 < 2)%nat).
  { destruct (Nat.lt_ge_cases n2 2) as [H|H]; [exact H|].
    exfalso. apply (Hno2 0%nat); [lia|]. rewrite HdF. lra. }
  assert (Hs2 : st_stopped s2 = true).
  { apply Hcap2. change (Z.to_nat 10) with 10%nat. lia. }
  assert (En2 : n2 = 1%nat).
  { destruct (proj1 Hstop2 Hs2) as [k [E _]]. lia. }
  exists s1, s2. repeat split; try assumption.
  rewrite Hret1, Hret2, Hq1, Hq2, En1, En2. reflexivity.
Qed.

(** ** The dispatcher *)

Lemma unimplemented_raises (method : string) :
  In method unimplemented ->
  (method =? "FPI")%string = false
  /\ unimplemented_methods method
     = Raise (NotImplementedError (method ++ " is not implemented")).
Proof.
  intros H. simpl in H.
  destruct H as [<-|[<-|[<-|[<-|[<-|[]]]]]]; split; reflexivity.
Qed.

(** C4: for each of "VMP", "MMP", "BP", "EP" and "CV" the call ends in an
    exception whatever solver stands behind [run_FPI], so no solver is run
    and nothing is substituted; once the arguments have been brought into
    canonical form the exception is the "not implemented" one. *)
Theorem unimplemented_methods_fail
    (solve : solver) (h : heap) (A : A_arg) (observation : observation_arg)
    (prior : prior_arg) (return_numpy : bool) (method : string) (kw : kwargs) :
  In method unimplemented ->
  (exists h' e,
      update_posterior_states_with solve h A observation prior return_numpy method kw
      = Some (h', Raise e))
  /\ (forall h' a,
        normalize h A observation prior = (h', Ok a) ->
        update_posterior_states_with solve h A observation prior return_numpy method kw
        = Some (h', Raise (NotImplementedError (method ++ " is not implemented")))).
Proof.
  intros Hm. destruct (unimplemented_raises method Hm) as [HF Hraise].
  unfold update_posterior_states_with, dispatch. rewrite HF, Hraise. simpl.
  destruct (normalize h A observation prior) as [h1 [a1|e1]]; split.
  - eexists _, _. reflexivity.
  - intros h' a E. injection E as <- <-. reflexivity.
  - eexists _, _. reflexivity.
  - intros h' a E. discriminate.
Qed.

Lemma unimplemented_methods_fail_witness :
  In "VMP"%string unimplemented
  /\ update_posterior_states empty_heap (A_array (Num A_two_state)) (O_int 0)
       (P_array (Num [0; 0])) true "VMP" no_kwargs
     = Some (empty_heap, Raise (NotImplementedError "VMP is not implemented")).
Proof.
  split; [simpl; auto|].
  eapply (proj2 (unimplemented_methods_fail run_FPI empty_heap (A_array (Num A_two_state))
                  (O_int 0) (P_array (Num [0; 0])) true "VMP" no_kwargs
                  (or_introl eq_refl))).
  reflexivity.
Defined.

(** C10: a method string that is none of the six names selects nothing:
    whatever solver stands behind [run_FPI] the call ends in an exception,
    and once the arguments have been brought into canonical form it is the
    unbound-local error raised for [qx] at the final return. *)
Theorem unknown_method_unbound_qx
    (solve : solver) (h : heap) (A : A_arg) (observation : observation_arg)
    (prior : prior_arg) (return_numpy : bool) (method : string) (kw : kwargs) :
  method <> "FPI"%string -> ~ In method unimplemented ->
  (exists h' e,
      update_posterior_states_with solve h A observation prior return_numpy method kw
      = Some (h', Raise e))
  /\ (forall h' a,
        normalize h A observation prior = (h', Ok a) ->
        update_posterior_states_with solve h A observation prior return_numpy method kw
        = Some (h', Raise (UnboundLocalError "qx"))).
Proof.
  intros HF Hm.
  assert (E0 : (method =? "FPI")%string = false) by (apply String.eqb_neq; exact HF).
  assert (E : unimplemented_methods method = Ok tt).
  { unfold unimplemented_methods.
    repeat match goal with
    | |- context [(method =? ?m)%string] =>
        destruct (String.eqb_spec method m) as [->|_];
          [exfalso; apply Hm; simpl; tauto|]
    end.
    reflexivity. }
  unfold update_posterior_states_with, dispatch. rewrite E0, E. simpl.
  destruct (normalize h A observation prior) as [h1 [a1|e1]]; split.
  - eexists _, _. reflexivity.
  - intros h' a Ea. injection Ea as <- <-. reflexivity.
  - eexists _, _. reflexivity.
  - intros h' a Ea. discriminate.
Qed.

Lemma unknown_method_unbound_qx_witness :
  "fpi"%string <> "FPI"%string /\ ~ In "fpi"%string unimplemented
  /\ update_posterior_states empty_heap (A_array (Num A_two_state)) (O_int 0)
       (P_array (Num [0; 0])) true "fpi" no_kwargs
     = Some (empty_heap, Raise (UnboundLocalError "qx")).
Proof.
  assert (H1 : "fpi"%string <> "FPI"%string) by discriminate.
  assert (H2 : ~ In "fpi"%string unimplemented).
  { simpl. intros [H|[H|[H|[H|[H|[]]]]]]; discriminate. }
  split; [exact H1|]. split; [exact H2|].
  eapply (proj2 (unknown_method_unbound_qx run_FPI empty_heap (A_array (Num A_two_state))
                  (O_int 0) (P_array (Num [0; 0])) true "fpi" no_kwargs H1 H2)).
  reflexivity.
Defined.

(** ** What is turned down before the iteration *)

Lemma run_FPI_total
    (A : pyarr ndarray) (observation : pyarr vec) (prior : list vec)
    (No Ns : list nat) (num_iter : Z) (dF_tol : R) :
  Ns <> [] \/ No = [] ->
  exists p, run_FPI A observation prior No Ns num_iter dF_tol = Some p.
Proof.
  intros H.
  destruct Ns as [|n [|m Ns']].
  - destruct H as [H| ->]; [congruence|].
    destruct (fpi_while_total (run_FPI_passes [] (joint_log_likelihood A observation []) prior)
                [] (joint_log_likelihood A observation []) prior num_iter dF_tol
                (init_state [] prior)) as [k [s [Hrun _]]]; try reflexivity.
    exists (Factors (st_qx s)).
    unfold run_FPI, run_FPI_fuel, run_FPI_loop. cbn [length Nat.eqb andb negb].
    rewrite Hrun. reflexivity.
  - eexists. unfold run_FPI. apply run_FPI_fuel_single.
  - destruct (run_FPI_ends A observation prior No (n :: m :: Ns') num_iter dF_tol
                ltac:(simpl; lia)) as [k [s [_ [_ Hrun]]]].
    eexists. exact Hrun.
Qed.

Lemma for_each_ext {T} (gs : list nat) (body body' : nat -> result T) :
  (forall g, body g = body' g) -> for_each gs body = for_each gs body'.
Proof.
  intros H. induction gs as [|g gs IH]; simpl.
  - reflexivity.
  - rewrite H, IH. reflexivity.
Qed.





(** when lines 152-160 raise nothing there is a hidden-state factor, or no
    modality at all *)
Lemma read_modalities_ok (a : solver_args) :
  read_modalities a = Ok tt -> sa_Ns a <> [] \/ sa_No a = [].
Proof.
  unfold read_modalities.
  destruct (sa_Ns a) as [|n Ns]; [|intros _; left; discriminate].
  destruct (sa_A a) as [x|As], (sa_observation a) as [v|vs]; try discriminate.
  destruct (sa_No a) as [|n0 No]; [intros _; right; reflexivity|].
  unfold range. cbn [length seq for_each].
  destruct (py_nth As 0); [|discriminate].
  destruct (py_nth vs 0); discriminate.
Qed.









(** ** The caller's arrays *)

(** C9, at a two-modality observation handed over as a [Categorical]: the
    call returns a posterior, and the object array the caller's
    [Categorical] holds has been overwritten; its columns of shape (2, 1)
    are now vectors of shape (2,). *)
Theorem categorical_observation_overwritten :
  exists h' qx,
    update_posterior_states caller_heap (A_array (Obj [A_two_state; A_two_state]))
      (O_Categorical (CatAoA 0%nat)) (P_array (Num [0; 0])) true "FPI" no_kwargs
    = Some (h', Ok (Numpy qx))
    /\ map shape (caller_heap 0%nat) = [[2; 1]; [2; 1]]%nat
    /\ map shape (h' 0%nat) = [[2]; [2]]%nat
    /\ h' 0%nat <> caller_heap 0%nat.
Proof.
  assert (Hn : normalize caller_heap (A_array (Obj [A_two_state; A_two_state]))
                 (O_Categorical (CatAoA 0%nat)) (P_array (Num [0; 0]))
               = (heap_set caller_heap 0 [squeeze (column 0); squeeze (column 1)],
                  Ok {| sa_A := Obj [A_two_state; A_two_state];
                        sa_observation := Obj [to_vec (squeeze (column 0));
                                               to_vec (squeeze (column 1))];
                        sa_prior := [Some [0; 0]]; sa_No := [2; 2]%nat;
                        sa_Ns := [2%nat] |})) by reflexivity.
  unfold update_posterior_states, update_posterior_states_with.
  rewrite Hn.
  unfold dispatch, call_solver, documented_forms, read_modalities, read_prior, py_nth.
  cbn [String.eqb Ascii.eqb Bool.eqb sa_Ns sa_prior sa_A sa_observation sa_No
       length Nat.eqb negb range seq for_each nth_error bind nth].
  unfold run_FPI. rewrite run_FPI_fuel_single.
  cbn [unimplemented_methods String.eqb Ascii.eqb Bool.eqb bind].
  eexists _, _. split; [reflexivity|].
  split; [reflexivity|]. split; [reflexivity|].
  intros E. apply (f_equal (map shape)) in E. discriminate E.
Qed.

(** * Further properties of the inference engine *)

(** ** Observations given as indices *)

Lemma vsum_one_hot_from (k s n : nat) :
  vsum (map (fun j => if Nat.eqb j k then 1 else 0) (seq s n))
  = if (Nat.leb s k && Nat.ltb k (s + n))%bool then 1 else 0.
Proof.
  revert s. induction n as [|n IH]; intros s; simpl.
  - destruct (Nat.leb_spec s k), (Nat.ltb_spec k (s + 0)); simpl; try lia; reflexivity.
  - rewrite IH.
    destruct (Nat.eqb_spec s k), (Nat.leb_spec s k), (Nat.leb_spec (S s) k),
      (Nat.ltb_spec k (S s + n)), (Nat.ltb_spec k (s + S n)); simpl; try lia; lra.
Qed.

Lemma vget_one_hot (n k j : nat) :
  (j < n)%nat -> vget (one_hot n k) j = if Nat.eqb j k then 1 else 0.
Proof.
  intros Hj. unfold vget, one_hot, range.
  rewrite (nth_indep _ 0 ((fun j => if Nat.eqb j k then 1 else 0) O))
    by (rewrite length_map, length_seq; exact Hj).
  rewrite (map_nth (fun j => if Nat.eqb j k then 1 else 0)).
  rewrite seq_nth by exact Hj. reflexivity.
Qed.

Lemma eye_row_in_range (n : nat) (i : Z) :
  (- Z.of_nat n <= i < Z.of_nat n)%Z ->
  eye_row n i = Ok (one_hot n (Z.to_nat (i mod Z.of_nat n)))
  /\ (Z.to_nat (i mod Z.of_nat n) < n)%nat.
Proof.
  intros Hi. unfold eye_row.
  replace ((- Z.of_nat n <=? i) && (i <? Z.of_nat n))%Z with true
    by (symmetry; apply andb_true_iff; split; [apply Z.leb_le|apply Z.ltb_lt]; lia).
  split; [reflexivity|].
  pose proof (Z.mod_pos_bound i (Z.of_nat n) ltac:(lia)). lia.
Qed.

(** An observation index [i] with [0 <= i < n] becomes the one-hot vector
    of length [n] for outcome [i]: entry [i] is 1, every other entry is 0,
    and the vector is a categorical distribution. *)
Theorem eye_row_one_hot (n : nat) (i : Z) :
  (0 <= i < Z.of_nat n)%Z ->
  exists v,
    eye_row n i = Ok v
    /\ length v = n
    /\ (forall j, (j < n)%nat -> vget v j = if Nat.eqb j (Z.to_nat i) then 1 else 0)
    /\ is_categorical v.
Proof.
  intros Hi. destruct (eye_row_in_range n i ltac:(lia)) as [E Hk].
  rewrite Z.mod_small in E, Hk by lia.
  exists (one_hot n (Z.to_nat i)). split; [exact E|].
  split; [unfold one_hot, range; rewrite length_map, length_seq; reflexivity|].
  split; [intros j Hj; apply vget_one_hot; exact Hj|].
  split.
  - unfold one_hot. apply Forall_forall. intros x Hx.
    apply in_map_iff in Hx. destruct Hx as [j [<- _]].
    destruct (Nat.eqb j (Z.to_nat i)); lra.
  - unfold one_hot, range. rewrite vsum_one_hot_from.
    destruct (Nat.leb_spec 0 (Z.to_nat i)), (Nat.ltb_spec (Z.to_nat i) (0 + n));
      simpl; try lia; reflexivity.
Qed.

Lemma eye_row_one_hot_witness :
  (0 <= 1 < Z.of_nat 3)%Z
  /\ exists v, eye_row 3 1 = Ok v /\ length v = 3%nat /\ is_categorical v.
Proof.
  assert (H : (0 <= 1 < Z.of_nat 3)%Z) by (simpl; lia).
  split; [exact H|].
  destruct (eye_row_one_hot 3 1 H) as [v [H1 [H2 [_ H3]]]].
  exists v. auto.
Defined.

Lemma eye_row_out_of_range (n : nat) (i : Z) :
  ~ (- Z.of_nat n <= i < Z.of_nat n)%Z -> eye_row n i = Raise (index_error i).
Proof.
  intros Hi. unfold eye_row.
  destruct ((- Z.of_nat n <=? i) && (i <? Z.of_nat n))%Z eqn:E; [|reflexivity].
  apply andb_true_iff in E. destruct E as [E1 E2].
  apply Z.leb_le in E1. apply Z.ltb_lt in E2. lia.
Qed.

(** An observation index is refused exactly when it lies outside
    [-n, n): with [OverflowError] when it is one of the integers from
    [2^63] to [2^64 - 1], which NumPy cannot convert to an index, and with
    [IndexError] otherwise.  A negative index in range counts from the
    end, so [i] and [i + n] name the same outcome. *)
Theorem eye_row_bounds (n : nat) (i : Z) :
  ((exists e, eye_row n i = Raise e) <-> ~ (- Z.of_nat n <= i < Z.of_nat n)%Z)
  /\ (~ (- Z.of_nat n <= i < Z.of_nat n)%Z ->
      eye_row n i
      = Raise (if ((2 ^ 63 <=? i) && (i <? 2 ^ 64))%Z then OverflowError else IndexError))
  /\ ((- Z.of_nat n <= i < 0)%Z -> eye_row n i = eye_row n (i + Z.of_nat n)).
Proof.
  split; [split|split].
  - intros [e E] Hi. destruct (eye_row_in_range n i Hi) as [E' _]. congruence.
  - intros Hi. eexists. apply eye_row_out_of_range. exact Hi.
  - intros Hi. apply eye_row_out_of_range. exact Hi.
  - intros Hi.
    destruct (eye_row_in_range n i ltac:(lia)) as [-> _].
    destruct (eye_row_in_range n (i + Z.of_nat n) ltac:(lia)) as [-> _].
    do 3 f_equal. rewrite <- (Z.mul_1_l (Z.of_nat n)) at 2.
    symmetry. apply Z.mod_add. lia.
Qed.

Lemma eye_row_bounds_witness :
  ~ (- Z.of_nat 3 <= 2 ^ 63 < Z.of_nat 3)%Z
  /\ eye_row 3 (2 ^ 63) = Raise OverflowError
  /\ ~ (- Z.of_nat 3 <= 5 < Z.of_nat 3)%Z
  /\ eye_row 3 5 = Raise IndexError
  /\ (- Z.of_nat 3 <= -1 < 0)%Z /\ eye_row 3 (-1) = eye_row 3 (-1 + Z.of_nat 3).
Proof.
  assert (H1 : ~ (- Z.of_nat 3 <= 2 ^ 63 < Z.of_nat 3)%Z) by (simpl; lia).
  assert (H2 : ~ (- Z.of_nat 3 <= 5 < Z.of_nat 3)%Z) by (simpl; lia).
  assert (H3 : (- Z.of_nat 3 <= -1 < 0)%Z) by (simpl; lia).
  split; [exact H1|].
  split; [exact (proj1 (proj2 (eye_row_bounds 3 (2 ^ 63))) H1)|].
  split; [exact H2|].
  split; [exact (proj1 (proj2 (eye_row_bounds 3 5)) H2)|].
  split; [exact H3|]. exact (proj2 (proj2 (eye_row_bounds 3 (-1))) H3).
Defined.

(** ** The joint log-likelihood *)

Lemma vsum_pick_from (f : nat -> R) (k s n : nat) :
  vsum (map (fun o => f o * (if Nat.eqb o k then 1 else 0)) (seq s n))
  = if (Nat.leb s k && Nat.ltb k (s + n))%bool then f k else 0.
Proof.
  revert s. induction n as [|n IH]; intros s; simpl.
  - destruct (Nat.leb_spec s k), (Nat.ltb_spec k (s + 0)); simpl; try lia; reflexivity.
  - rewrite IH.
    destruct (Nat.eqb_spec s k) as [E|E], (Nat.leb_spec s k), (Nat.leb_spec (S s) k),
      (Nat.ltb_spec k (S s + n)), (Nat.ltb_spec k (s + S n)); simpl; try lia;
      try subst s; lra.
Qed.

Lemma rsum_one_hot (f : nat -> R) (n k : nat) :
  (k < n)%nat -> rsum n (fun o => f o * vget (one_hot n k) o) = f k.
Proof.
  intros Hk.
  rewrite (rsum_ext n _ (fun o => f o * (if Nat.eqb o k then 1 else 0)))
    by (intros j Hj; rewrite vget_one_hot by exact Hj; reflexivity).
  unfold rsum, range. rewrite vsum_pick_from.
  destruct (Nat.leb_spec 0 k), (Nat.ltb_spec k (0 + n)); simpl; try lia; reflexivity.
Qed.

Lemma obs_likelihood_one_hot (a : ndarray) (k : nat) (ix : index) :
  (k < hd O (shape a))%nat ->
  obs_likelihood a (one_hot (hd O (shape a)) k) ix = data a (k :: ix).
Proof.
  intros Hk. unfold obs_likelihood, spm_dot_obs.
  apply (rsum_one_hot (fun o => data a (o :: ix))). exact Hk.
Qed.

Lemma joint_log_likelihood_one_hot
    (a : ndarray) (k : nat) (No : list nat) (ix : index) :
  length No = 1%nat -> (k < hd O (shape a))%nat ->
  joint_log_likelihood (Num a) (Num (one_hot (hd O (shape a)) k)) No ix
  = ln (data a (k :: ix) + eps).
Proof.
  intros HNo Hk. unfold joint_log_likelihood. rewrite HNo. simpl.
  unfold tlog, tmul, tones. rewrite obs_likelihood_one_hot by exact Hk.
  f_equal. lra.
Qed.

(** With one modality and a one-hot observation of outcome [k], the joint
    log-likelihood of a hidden-state configuration is the logarithm of the
    likelihood of that outcome there, plus the floor:
    [L[ix] = log(A[k, ix] + 1e-16)]. *)
Theorem likelihood_of_observed_outcome
    (a : ndarray) (k : nat) (No : list nat) (ix : index) :
  length No = 1%nat -> (k < hd O (shape a))%nat ->
  joint_log_likelihood (Num a) (Num (one_hot (hd O (shape a)) k)) No ix
  = ln (data a (k :: ix) + eps).
Proof.
  intros HNo Hk. apply joint_log_likelihood_one_hot; assumption.
Qed.

Lemma likelihood_of_observed_outcome_witness :
  length [2%nat] = 1%nat /\ (1 < hd O (shape A_two_state))%nat
  /\ joint_log_likelihood (Num A_two_state) (Num (one_hot (hd O (shape A_two_state)) 1))
       [2%nat] [0%nat]
     = ln (data A_two_state [1; 0]%nat + eps).
Proof.
  assert (H : (1 < hd O (shape A_two_state))%nat) by (simpl; lia).
  split; [reflexivity|]. split; [exact H|].
  exact (likelihood_of_observed_outcome A_two_state 1 [2%nat] [0%nat] eq_refl H).
Defined.

(** With several modalities the joint log-likelihood is the logarithm of
    the product, over the modalities, of the likelihood of the outcome
    observed in each, plus the floor:
    [L[ix] = log(prod_g A[g][k_g, ix] + 1e-16)]. *)
Theorem likelihood_product_over_modalities
    (As : list ndarray) (ks : list nat) (No : list nat) (ix : index) :
  length No = length As -> length As <> 1%nat ->
  (forall g, (g < length As)%nat ->
     (nth g ks O < hd O (shape (nth g As scalar0)))%nat) ->
  joint_log_likelihood (Obj As)
    (Obj (map (fun g => one_hot (hd O (shape (nth g As scalar0))) (nth g ks O))
            (range (length As))))
    No ix
  = ln (vprod (map (fun g => data (nth g As scalar0) (nth g ks O :: ix))
                 (range (length As))) + eps).
Proof.
  intros HNo Hne Hk. unfold joint_log_likelihood. rewrite HNo.
  replace (Nat.eqb (length As) 1) with false by (symmetry; apply Nat.eqb_neq; exact Hne).
  unfold tlog. rewrite fold_tmul. unfold tones. f_equal. f_equal.
  rewrite Rmult_1_l. f_equal.
  apply map_ext_in. intros g Hg. apply in_range in Hg.
  unfold A_item, obs_item.
  rewrite (nth_indep _ [] ((fun g => one_hot (hd O (shape (nth g As scalar0)))
                                      (nth g ks O)) O))
    by (unfold range; rewrite length_map, length_seq; exact Hg).
  rewrite (map_nth (fun g => one_hot (hd O (shape (nth g As scalar0))) (nth g ks O))).
  unfold range. rewrite seq_nth by exact Hg. simpl.
  apply obs_likelihood_one_hot. apply Hk. exact Hg.
Qed.

Lemma likelihood_product_over_modalities_witness :
  length [2; 2]%nat = length [A_two_state; A_negative]
  /\ joint_log_likelihood (Obj [A_two_state; A_negative])
       (Obj (map (fun g => one_hot (hd O (shape (nth g [A_two_state; A_negative] scalar0)))
                             (nth g [1; 0]%nat O))
               (range (length [A_two_state; A_negative]))))
       [2; 2]%nat [0%nat]
     = ln (vprod (map (fun g => data (nth g [A_two_state; A_negative] scalar0)
                                  (nth g [1; 0]%nat O :: [0%nat]))
                    (range (length [A_two_state; A_negative]))) + eps).
Proof.
  split; [reflexivity|].
  apply (likelihood_product_over_modalities [A_two_state; A_negative] [1; 0]%nat
           [2; 2]%nat [0%nat] eq_refl).
  - discriminate.
  - intros g Hg. simpl in Hg. destruct g as [|[|g]]; simpl; lia.
Defined.

(** ** One factor: Bayes' rule *)

Lemma vsum_exp_shift (m : R) (v : vec) :
  vsum (map (fun x => exp (x - m)) v) = vsum (map exp v) * exp (- m).
Proof.
  induction v as [|x v IH]; simpl.
  - lra.
  - rewrite IH. unfold Rminus. rewrite exp_plus. lra.
Qed.

Lemma softmax_unshifted (v : vec) :
  softmax v = map (fun x => exp x / vsum (map exp v)) v.
Proof.
  unfold softmax. rewrite map_map. apply map_ext_in. intros x Hx.
  assert (Hv : v <> []) by (intros ->; destruct Hx).
  rewrite vsum_exp_shift.
  pose proof (vsum_exp_pos 0 v Hv) as Hpos.
  assert (E : vsum (map (fun x => exp (x - 0)) v) = vsum (map exp v)).
  { f_equal. apply map_ext. intros y. f_equal. lra. }
  rewrite E in Hpos.
  pose proof (exp_pos (- vmax v)).
  unfold Rminus. rewrite exp_plus. field. split; lra.
Qed.

Lemma vget_map (g : R -> R) (v : vec) (s : nat) :
  (s < length v)%nat -> vget (map g v) s = g (vget v s).
Proof.
  intros Hs. unfold vget.
  rewrite (nth_indep _ 0 (g 0)) by (rewrite length_map; exact Hs).
  apply map_nth.
Qed.

Lemma vget_vadd (a b : vec) (s : nat) :
  (s < length a)%nat -> (s < length b)%nat ->
  vget (vadd a b) s = vget a s + vget b s.
Proof.
  revert b s. induction a as [|x a IH]; intros [|y b] [|s] Ha Hb;
    simpl in *; try lia; unfold vget in *; simpl; [reflexivity|].
  apply IH; lia.
Qed.

Lemma vsum_as_rsum (v : vec) : vsum v = rsum (length v) (vget v).
Proof.
  unfold rsum, range. f_equal.
  apply nth_ext with (d := 0) (d' := vget v O).
  - rewrite length_map, length_seq. reflexivity.
  - intros j Hj. rewrite (map_nth (vget v)), seq_nth by exact Hj. reflexivity.
Qed.

Lemma vget_tensor_vec (n : nat) (L : tensor) (s : nat) :
  (s < n)%nat -> vget (tensor_vec n L) s = L [s].
Proof.
  intros Hs. unfold vget, tensor_vec, range.
  rewrite (nth_indep _ 0 ((fun i => L [i]) O)) by (rewrite length_map, length_seq; exact Hs).
  rewrite (map_nth (fun i => L [i])), seq_nth by exact Hs. reflexivity.
Qed.

(** what softmax makes of log-weights plus log-priors: each weight times
    the exponential of its prior, normalized *)
Lemma softmax_of_logs (n : nat) (L : tensor) (y : nat -> R) (p : vec) :
  length p = n ->
  (forall s, (s < n)%nat -> 0 < y s /\ L [s] = ln (y s)) ->
  forall s, (s < n)%nat ->
    vget (softmax (vadd (tensor_vec n L) p)) s
    = y s * exp (vget p s) / rsum n (fun s' => y s' * exp (vget p s')).
Proof.
  intros Hp Hy s Hs.
  assert (Hlen : length (vadd (tensor_vec n L) p) = n)
    by (rewrite vadd_length, tensor_vec_length, Hp; apply Nat.min_id).
  assert (Hent : forall j, (j < n)%nat ->
            exp (vget (vadd (tensor_vec n L) p) j) = y j * exp (vget p j)).
  { intros j Hj.
    rewrite vget_vadd by (rewrite ?tensor_vec_length, ?Hp; exact Hj).
    rewrite vget_tensor_vec by exact Hj.
    destruct (Hy j Hj) as [Hpos ->]. rewrite exp_plus, exp_ln by exact Hpos.
    reflexivity. }
  rewrite softmax_unshifted, vget_map by (rewrite Hlen; exact Hs).
  rewrite Hent by exact Hs. f_equal.
  rewrite vsum_as_rsum, length_map, Hlen.
  apply rsum_ext. intros j Hj.
  rewrite vget_map by (rewrite Hlen; exact Hj). apply Hent. exact Hj.
Qed.

Lemma normalize_single_modality
    (h : heap) (a : ndarray) (i : Z) (p : vec) (No0 n : nat) (v : vec) :
  shape a = [No0; n] -> eye_row No0 i = Ok v ->
  normalize h (A_array (Num a)) (O_int i) (P_array (Num p))
  = (h, Ok {| sa_A := Num a; sa_observation := Num v; sa_prior := [Some p];
              sa_No := [No0]; sa_Ns := [n] |}).
Proof.
  intros Hsh Heye. unfold normalize, unwrap_A, infer_dims. rewrite Hsh.
  cbn [py_nth nth_error bind tl normalize_observation nth].
  rewrite Heye. reflexivity.
Qed.

(** With one modality, one factor, an observation index [i] in range and
    a log-prior [p], the posterior the dispatcher returns is Bayes' rule
    on the floored likelihood:
    [q[s] = (A[i, s] + 1e-16) * exp(p[s]) / sum_s' (A[i, s'] + 1e-16) * exp(p[s'])]. *)
Theorem single_factor_bayes
    (h : heap) (a : ndarray) (i : Z) (p : vec) (kw : kwargs) (No0 n : nat) :
  shape a = [No0; n] ->
  (0 <= i < Z.of_nat No0)%Z ->
  length p = n ->
  (forall s, (s < n)%nat -> 0 < data a [Z.to_nat i; s] + eps) ->
  exists q,
    update_posterior_states h (A_array (Num a)) (O_int i) (P_array (Num p))
      true "FPI" kw
    = Some (h, Ok (Numpy (Single q)))
    /\ length q = n
    /\ forall s, (s < n)%nat ->
         vget q s
         = (data a [Z.to_nat i; s] + eps) * exp (vget p s)
           / rsum n (fun s' => (data a [Z.to_nat i; s'] + eps) * exp (vget p s')).
Proof.
  intros Hsh Hi Hp Hpos.
  destruct (eye_row_in_range No0 i ltac:(lia)) as [Heye Hk].
  rewrite Z.mod_small in Heye, Hk by lia.
  set (L := joint_log_likelihood (Num a) (Num (one_hot No0 (Z.to_nat i))) [No0]).
  exists (softmax (vadd (tensor_vec n L) p)).
  split; [|split].
  - unfold update_posterior_states, update_posterior_states_with.
    rewrite (normalize_single_modality h a i p No0 n _ Hsh Heye).
    unfold dispatch, call_solver, documented_forms, read_modalities, read_prior.
    cbn [String.eqb Ascii.eqb Bool.eqb sa_Ns sa_prior sa_A sa_observation sa_No
         length Nat.eqb range seq for_each nth_error bind nth].
    rewrite Hp, Nat.eqb_refl. cbn [bind].
    unfold run_FPI. rewrite run_FPI_fuel_single.
    cbn [unimplemented_methods String.eqb Ascii.eqb Bool.eqb bind nth].
    reflexivity.
  - rewrite softmax_length, vadd_length, tensor_vec_length, Hp. apply Nat.min_id.
  - apply softmax_of_logs; [exact Hp|].
    intros s Hs. split; [apply Hpos; exact Hs|].
    unfold L.
    replace No0 with (hd O (shape a)) at 1 by (rewrite Hsh; reflexivity).
    apply joint_log_likelihood_one_hot; [reflexivity|].
    rewrite Hsh. exact Hk.
Qed.

Lemma A_two_state_floored (s : nat) :
  (s < 2)%nat -> 0 < data A_two_state [Z.to_nat 0; s] + eps.
Proof.
  intros Hs. pose proof eps_pos.
  destruct s as [|[|s]]; simpl; lra.
Defined.

Lemma single_factor_bayes_witness :
  shape A_two_state = [2; 2]%nat /\ (0 <= 0 < Z.of_nat 2)%Z /\ length [0; 0] = 2%nat
  /\ exists q,
       update_posterior_states empty_heap (A_array (Num A_two_state)) (O_int 0)
         (P_array (Num [0; 0])) true "FPI" no_kwargs
       = Some (empty_heap, Ok (Numpy (Single q)))
       /\ vget q 0
          = (data A_two_state [Z.to_nat 0; 0%nat] + eps) * exp (vget [0; 0] 0)
            / rsum 2 (fun s' => (data A_two_state [Z.to_nat 0; s'] + eps)
                                * exp (vget [0; 0] s')).
Proof.
  assert (Hi : (0 <= 0 < Z.of_nat 2)%Z) by (simpl; lia).
  split; [reflexivity|]. split; [exact Hi|]. split; [reflexivity|].
  destruct (single_factor_bayes empty_heap A_two_state 0 [0; 0] no_kwargs 2 2
              eq_refl Hi eq_refl A_two_state_floored) as [q [H1 [_ H2]]].
  exists q. split; [exact H1|]. apply H2. lia.
Defined.

(** ** What the dispatcher does to the caller's arrays *)

Lemma squeeze_items_from (n : nat) :
  forall (s : nat) (items : list ndarray),
    (s + n <= length items)%nat ->
    exists items',
      squeeze_items (seq s n) items = (items', Ok tt)
      /\ length items' = length items
      /\ forall g d, nth g items' d
                     = if (Nat.leb s g && Nat.ltb g (s + n))%bool
                       then squeeze (nth g items d) else nth g items d.
Proof.
  induction n as [|n IH]; intros s items Hlen.
  - exists items. split; [reflexivity|]. split; [reflexivity|].
    intros g d. destruct (Nat.leb_spec s g), (Nat.ltb_spec g (s + 0)); simpl; try lia;
      reflexivity.
  - simpl. destruct (nth_error items s) as [og|] eqn:Eo.
    + destruct (IH (S s) (list_set s (squeeze og) items)) as [items' [E [Hl Hn]]];
        [rewrite list_set_length; lia|].
      exists items'. split; [exact E|]. split; [rewrite Hl; apply list_set_length|].
      intros g d. rewrite Hn.
      destruct (Nat.eq_dec g s) as [->|Hne].
      * rewrite list_set_nth_same by lia.
        rewrite (nth_error_nth _ _ d Eo).
        destruct (Nat.leb_spec (S s) s), (Nat.leb_spec s s), (Nat.ltb_spec s (s + S n));
          simpl; try lia; reflexivity.
      * rewrite list_set_nth_other by auto.
        destruct (Nat.leb_spec (S s) g), (Nat.leb_spec s g), (Nat.ltb_spec g (S s + n)),
          (Nat.ltb_spec g (s + S n)); simpl; try lia; reflexivity.
    + apply nth_error_None in Eo. lia.
Qed.

Lemma posterior_states_heap (solve : solver) (h h' : heap) (A : A_arg)
    (observation : observation_arg) (prior : prior_arg) (return_numpy : bool)
    (method : string) (kw : kwargs) (r : result output) :
  update_posterior_states_with solve h A observation prior return_numpy method kw
  = Some (h', r) ->
  h' = fst (normalize h A observation prior).
Proof.
  unfold update_posterior_states_with.
  destruct (normalize h A observation prior) as [h1 [a|e]]; simpl.
  - destruct (dispatch solve a return_numpy method kw); [|discriminate].
    intros H. injection H as <- _. reflexivity.
  - intros H. injection H as <- _. reflexivity.
Qed.

Lemma normalize_heap (h : heap) (A : A_arg) (observation : observation_arg)
    (prior : prior_arg) :
  fst (normalize h A observation prior)
  = match infer_dims (unwrap_A h A) with
    | Ok (Ns, Ng, No) => fst (normalize_observation h observation Ng No)
    | Raise _ => h
    end.
Proof.
  unfold normalize.
  destruct (infer_dims (unwrap_A h A)) as [[[Ns Ng] No]|e]; [|reflexivity].
  destruct (normalize_observation h observation Ng No) as [h1 [o|e]]; reflexivity.
Qed.

(** The dispatcher never writes to the arrays behind [A] or the prior,
    whatever the solver, the method and the outcome of the call: the only
    object array that can differ afterwards is the one a [Categorical]
    observation holds, and with a single modality not even that one. *)
Theorem call_leaves_other_arrays
    (solve : solver) (h h' : heap) (A : A_arg)
    (observation : observation_arg) (prior : prior_arg) (return_numpy : bool)
    (method : string) (kw : kwargs) (r : result output) :
  update_posterior_states_with solve h A observation prior return_numpy method kw
  = Some (h', r) ->
  (forall l, observation <> O_Categorical (CatAoA l) -> h' l = h l)
  /\ (forall Ns No, infer_dims (unwrap_A h A) = Ok (Ns, 1%nat, No) ->
        forall l, h' l = h l).
Proof.
  intros H. apply posterior_states_heap in H. subst h'. rewrite normalize_heap.
  destruct (infer_dims (unwrap_A h A)) as [[[Ns Ng] No]|e]; [|split; reflexivity].
  split.
  - intros l Hl. destruct observation as [i|t|o|[a|l0]]; simpl; try reflexivity.
    + destruct (Nat.eqb Ng 1); reflexivity.
    + destruct (Nat.eqb Ng 1); [reflexivity|].
      destruct (squeeze_items (range Ng) (h l0)) as [items rr]. simpl.
      unfold heap_set. destruct (Nat.eqb_spec l l0) as [->|]; [|reflexivity].
      exfalso. apply Hl. reflexivity.
  - intros Ns' No' E l. injection E as _ -> _.
    destruct observation as [i|t|o|[a|l0]]; reflexivity.
Qed.

Lemma call_leaves_other_arrays_witness :
  exists h' r,
    update_posterior_states_with run_FPI caller_heap
      (A_array (Obj [A_two_state; A_two_state])) (O_Categorical (CatAoA 0%nat))
      (P_array (Num [0; 0])) true "VMP" no_kwargs = Some (h', r)
    /\ forall l, O_Categorical (CatAoA 0%nat) <> O_Categorical (CatAoA l) ->
         h' l = caller_heap l.
Proof.
  eexists _, _. split; [reflexivity|].
  apply (call_leaves_other_arrays run_FPI caller_heap _
           (A_array (Obj [A_two_state; A_two_state])) (O_Categorical (CatAoA 0%nat))
           (P_array (Num [0; 0])) true "VMP" no_kwargs _ eq_refl).
Defined.

Lemma dispatch_run_FPI_total (a : solver_args) (return_numpy : bool)
    (method : string) (kw : kwargs) :
  documented_forms a = true ->
  exists r, dispatch run_FPI a return_numpy method kw = Some r.
Proof.
  intros Hd. unfold dispatch, call_solver. rewrite Hd.
  destruct (method =? "FPI")%string; [|eexists; reflexivity].
  destruct (read_modalities a) as [[]|e] eqn:Em; [|eexists; reflexivity].
  cbn [bind].
  destruct (read_prior (sa_Ns a) (sa_prior a)) as [p|e]; [|eexists; reflexivity].
  destruct (run_FPI_total (sa_A a) (sa_observation a) p (sa_No a) (sa_Ns a)
              (num_iter_of kw) (dF_tol_of kw) (read_modalities_ok a Em)) as [q ->].
  eexists. reflexivity.
Qed.

Lemma for_each_length {T} (gs : list nat) (body : nat -> result T) (xs : list T) :
  for_each gs body = Ok xs -> length xs = length gs.
Proof.
  revert xs. induction gs as [|g gs IH]; intros xs H; simpl in H.
  - injection H as <-. reflexivity.
  - destruct (body g) as [x|e]; [|discriminate]. simpl in H.
    destruct (for_each gs body) as [xs'|e]; [|discriminate].
    injection H as <-. simpl. f_equal. apply IH. reflexivity.
Qed.

(** several modalities are those of an object array, one outcome count
    each *)
Lemma infer_dims_several (A : pyarr ndarray) (Ns No : list nat) (Ng : nat) :
  infer_dims A = Ok (Ns, Ng, No) -> Ng <> 1%nat ->
  (exists items, A = Obj items) /\ length No = Ng.
Proof.
  destruct A as [a|items]; simpl.
  - destruct (py_nth (shape a) 0); simpl; [|discriminate].
    intros H. injection H as _ <- _. congruence.
  - destruct (py_nth items 0); simpl; [|discriminate].
    destruct (for_each (range (length items))
                (fun g => Ag <- py_nth items g ;; py_nth (shape Ag) 0)) as [No'|e] eqn:E;
      simpl; [|discriminate].
    intros H _. injection H as _ <- <-.
    split; [eexists; reflexivity|].
    rewrite (for_each_length _ _ _ E). unfold range. apply length_seq.
Qed.

(** With several modalities and a [Categorical] observation over an
    object array, the call replaces each of the first [Ng] entries of the
    caller's array by its squeezed form, in place and before the method is
    looked at: this happens for every method, the unimplemented ones
    included. *)
Theorem observation_squeezed_in_place
    (h : heap) (A : A_arg) (l : nat) (prior : prior_arg) (return_numpy : bool)
    (method : string) (kw : kwargs) (Ns No : list nat) (Ng : nat) :
  infer_dims (unwrap_A h A) = Ok (Ns, Ng, No) ->
  Ng <> 1%nat -> (Ng <= length (h l))%nat ->
  exists h' r,
    update_posterior_states h A (O_Categorical (CatAoA l)) prior return_numpy method kw
    = Some (h', r)
    /\ length (h' l) = length (h l)
    /\ forall g, nth g (h' l) scalar0
                 = if Nat.ltb g Ng then squeeze (nth g (h l) scalar0)
                   else nth g (h l) scalar0.
Proof.
  intros Hd HNg Hlen.
  destruct (squeeze_items_from Ng 0 (h l) ltac:(lia)) as [items [E [Hl Hn]]].
  assert (Hheap : fst (normalize h A (O_Categorical (CatAoA l)) prior)
                  = heap_set h l items).
  { rewrite normalize_heap, Hd. simpl.
    replace (Nat.eqb Ng 1) with false by (symmetry; apply Nat.eqb_neq; exact HNg).
    unfold range. rewrite E. reflexivity. }
  assert (Hex : exists h' r,
            update_posterior_states h A (O_Categorical (CatAoA l)) prior
              return_numpy method kw = Some (h', r)).
  { destruct (infer_dims_several _ _ _ _ Hd HNg) as [[As HA] HNo].
    unfold update_posterior_states, update_posterior_states_with, normalize.
    rewrite Hd. cbn [normalize_observation squeeze_observation].
    replace (Nat.eqb Ng 1) with false by (symmetry; apply Nat.eqb_neq; exact HNg).
    unfold range. rewrite E. cbn [bind].
    destruct (normalize_prior (heap_set h l items) prior (length Ns)) as [p|e];
      [|eexists _, _; reflexivity].
    cbn [bind].
    destruct (dispatch_run_FPI_total
                {| sa_A := unwrap_A h A; sa_observation := Obj (map to_vec items);
                   sa_prior := p; sa_No := No; sa_Ns := Ns |}
                return_numpy method kw) as [r ->].
    - unfold documented_forms. cbn [sa_A sa_observation sa_No]. rewrite HA, HNo.
      apply negb_true_iff, Nat.eqb_neq. exact HNg.
    - eexists _, _. reflexivity. }
  destruct Hex as [h' [r Hr]]. exists h', r. split; [exact Hr|].
  apply posterior_states_heap in Hr. rewrite Hheap in Hr. subst h'.
  unfold heap_set. rewrite Nat.eqb_refl. split; [exact Hl|].
  intros g. rewrite Hn.
  destruct (Nat.leb_spec 0 g), (Nat.ltb_spec g (0 + Ng)), (Nat.ltb_spec g Ng);
    simpl; try lia; reflexivity.
Qed.

Lemma observation_squeezed_in_place_witness :
  infer_dims (unwrap_A caller_heap (A_array (Obj [A_two_state; A_two_state])))
  = Ok ([2%nat], 2%nat, [2; 2]%nat)
  /\ 2%nat <> 1%nat /\ (2 <= length (caller_heap 0%nat))%nat
  /\ exists h' r,
       update_posterior_states caller_heap (A_array (Obj [A_two_state; A_two_state]))
         (O_Categorical (CatAoA 0%nat)) (P_array (Num [0; 0])) true "VMP" no_kwargs
       = Some (h', r)
       /\ nth 0 (h' 0%nat) scalar0 = squeeze (nth 0 (caller_heap 0%nat) scalar0).
Proof.
  assert (H2 : 2%nat <> 1%nat) by discriminate.
  assert (H3 : (2 <= length (caller_heap 0%nat))%nat) by (simpl; lia).
  split; [reflexivity|]. split; [exact H2|]. split; [exact H3|].
  destruct (observation_squeezed_in_place caller_heap
              (A_array (Obj [A_two_state; A_two_state])) 0 (P_array (Num [0; 0]))
              true "VMP" no_kwargs [2%nat] [2; 2]%nat 2 eq_refl H2 H3)
    as [h' [r [H [_ Hn]]]].
  exists h', r. split; [exact H|]. exact (Hn 0%nat).
Defined.

(** ** Arguments the dispatcher cannot bring into canonical form *)

Lemma normalize_fields (h h' : heap) (A : A_arg) (observation : observation_arg)
    (prior : prior_arg) (a : solver_args) :
  normalize h A observation prior = (h', Ok a) ->
  sa_A a = unwrap_A h A
  /\ normalize_prior h' prior (length (sa_Ns a)) = Ok (sa_prior a)
  /\ exists Ng,
       infer_dims (unwrap_A h A) = Ok (sa_Ns a, Ng, sa_No a)
       /\ normalize_observation h observation Ng (sa_No a) = (h', Ok (sa_observation a)).
Proof.
  unfold normalize.
  destruct (infer_dims (unwrap_A h A)) as [[[Ns Ng] No]|e]; [|discriminate].
  destruct (normalize_observation h observation Ng No) as [h1 [o|e]] eqn:Eo;
    [|discriminate].
  destruct (normalize_prior h1 prior (length Ns)) as [p|e] eqn:Ep; [|discriminate].
  simpl. intros H. injection H as <- <-. simpl.
  split; [reflexivity|]. split; [exact Ep|]. exists Ng. split; [reflexivity|exact Eo].
Qed.

Lemma read_prior_flat (n : nat) (Ns : list nat) (p : vec) :
  read_prior (n :: Ns) (Some p :: repeat None (length Ns))
  = if Nat.eqb (length p) n then
      match Ns with
      | [] => Ok [p]
      | _ :: _ => Raise TypeError
      end
    else Raise ValueError.
Proof.
  unfold read_prior, range. cbn [length seq for_each nth_error nth].
  destruct (Nat.eqb (length p) n); [|reflexivity].
  destruct Ns as [|m Ns]; reflexivity.
Qed.

Lemma for_each_all_ok (gs : list nat) (body : nat -> result unit) :
  (forall g, In g gs -> body g = Ok tt) -> exists xs, for_each gs body = Ok xs.
Proof.
  induction gs as [|g gs IH]; intros H; simpl.
  - eexists. reflexivity.
  - rewrite (H g (or_introl eq_refl)). simpl.
    destruct IH as [xs ->]; [intros g' Hg'; apply H; right; exact Hg'|].
    eexists. reflexivity.
Qed.

(** arguments of the documented forms and shapes pass lines 152-160 when
    there is a hidden-state factor *)
Lemma well_formed_read (a : solver_args) :
  well_formed (sa_A a) (sa_observation a) (sa_No a) (sa_Ns a) ->
  sa_Ns a <> [] ->
  documented_forms a = true /\ read_modalities a = Ok tt.
Proof.
  unfold well_formed, documented_forms, read_modalities.
  destruct (sa_A a) as [x|As], (sa_observation a) as [v|vs]; try contradiction.
  - intros [-> _] HNs. split; [reflexivity|].
    destruct (sa_Ns a); [congruence|reflexivity].
  - intros [Hne [HA [Hv _]]] HNs. split.
    + apply negb_true_iff, Nat.eqb_neq. exact Hne.
    + destruct (for_each_all_ok (range (length (sa_No a)))
                  (fun g => _ <- py_nth As g ;; _ <- py_nth vs g ;;
                            match sa_Ns a with [] => Raise ValueError | _ => Ok tt end))
        as [xs ->]; [|reflexivity].
      intros g Hg. apply in_range in Hg. unfold py_nth.
      destruct (nth_error As g) eqn:E1;
        [|apply nth_error_None in E1; lia].
      destruct (nth_error vs g) eqn:E2;
        [|apply nth_error_None in E2; lia].
      simpl. destruct (sa_Ns a); [congruence|reflexivity].
Qed.

(** A prior given as a single numeric vector [p] only fills slot 0 of the
    per-factor array.  For a likelihood and an observation of the
    documented forms and shapes the FPI call ends in [ValueError] when
    [p] does not have [Ns[0]] entries, and, with two or more factors, in
    [TypeError] when it has: slot 1 holds [None] when the solver reads
    it.  With no factor at all there is no slot 0 and the call ends in
    [IndexError]. *)
Theorem flat_prior_fits_one_factor_only
    (h h' : heap) (A : A_arg) (observation : observation_arg) (p : vec)
    (return_numpy : bool) (kw : kwargs) :
  (forall a,
      normalize h A observation (P_array (Num p)) = (h', Ok a) ->
      well_formed (sa_A a) (sa_observation a) (sa_No a) (sa_Ns a) ->
      (length p <> nth 0 (sa_Ns a) O ->
       update_posterior_states h A observation (P_array (Num p)) return_numpy "FPI" kw
       = Some (h', Raise ValueError))
      /\ (length p = nth 0 (sa_Ns a) O -> (2 <= length (sa_Ns a))%nat ->
          update_posterior_states h A observation (P_array (Num p)) return_numpy "FPI" kw
          = Some (h', Raise TypeError)))
  /\ (forall Ng No o,
        infer_dims (unwrap_A h A) = Ok ([], Ng, No) ->
        normalize_observation h observation Ng No = (h', Ok o) ->
        update_posterior_states h A observation (P_array (Num p)) return_numpy "FPI" kw
        = Some (h', Raise IndexError)).
Proof.
  split.
  - intros a Hn Hwf.
    destruct (normalize_fields _ _ _ _ _ _ Hn) as [_ [Hprior _]].
    assert (HNs : sa_Ns a <> []).
    { intros E. rewrite E in Hprior. discriminate Hprior. }
    destruct (well_formed_read a Hwf HNs) as [Hd Hm].
    assert (Hcall : call_solver run_FPI a kw
                    = match read_prior (sa_Ns a) (sa_prior a) with
                      | Raise e => Some (Raise e)
                      | Ok prior =>
                          match run_FPI (sa_A a) (sa_observation a) prior (sa_No a)
                                  (sa_Ns a) (num_iter_of kw) (dF_tol_of kw) with
                          | Some qx => Some (Ok qx)
                          | None => None
                          end
                      end).
    { unfold call_solver. rewrite Hd, Hm. reflexivity. }
    unfold update_posterior_states, update_posterior_states_with, dispatch.
    rewrite Hn, Hcall. cbn [String.eqb Ascii.eqb Bool.eqb].
    clear Hwf Hd Hm Hcall Hn.
    destruct (sa_Ns a) as [|n Ns]; [congruence|].
    cbn [normalize_prior length repeat py_set] in Hprior.
    unfold py_set in Hprior. cbn [length repeat Nat.ltb Nat.leb list_set] in Hprior.
    injection Hprior as <-. rewrite read_prior_flat. cbn [nth length].
    split.
    + intros Hlen.
      replace (Nat.eqb (length p) n) with false by (symmetry; apply Nat.eqb_neq; exact Hlen).
      reflexivity.
    + intros Hlen HNf. rewrite Hlen, Nat.eqb_refl.
      destruct Ns as [|m Ns]; [simpl in HNf; lia|]. reflexivity.
  - intros Ng No o Hd Ho.
    unfold update_posterior_states, update_posterior_states_with, normalize.
    rewrite Hd, Ho. reflexivity.
Qed.

Lemma coupled_well_formed :
  well_formed (Num A_coupled) (Num [1; 0]) [2%nat] [2; 2]%nat.
Proof. split; reflexivity. Defined.

Lemma flat_prior_fits_one_factor_only_witness :
  normalize empty_heap (A_array (Num A_coupled)) (O_int 0) (P_array (Num [0; 0]))
  = (empty_heap,
     Ok {| sa_A := Num A_coupled; sa_observation := Num [1; 0];
           sa_prior := [Some [0; 0]; None]; sa_No := [2%nat]; sa_Ns := [2; 2]%nat |})
  /\ well_formed (Num A_coupled) (Num [1; 0]) [2%nat] [2; 2]%nat
  /\ update_posterior_states empty_heap (A_array (Num A_coupled)) (O_int 0)
       (P_array (Num [0; 0])) true "FPI" no_kwargs
     = Some (empty_heap, Raise TypeError)
  /\ normalize empty_heap (A_array (Num A_coupled)) (O_int 0) (P_array (Num [0; 0; 0]))
     = (empty_heap,
        Ok {| sa_A := Num A_coupled; sa_observation := Num [1; 0];
              sa_prior := [Some [0; 0; 0]; None]; sa_No := [2%nat]; sa_Ns := [2; 2]%nat |})
  /\ update_posterior_states empty_heap (A_array (Num A_coupled)) (O_int 0)
       (P_array (Num [0; 0; 0])) true "FPI" no_kwargs
     = Some (empty_heap, Raise ValueError).
Proof.
  split; [reflexivity|]. split; [exact coupled_well_formed|].
  split; [|split; [reflexivity|]].
  - apply (proj1 (flat_prior_fits_one_factor_only empty_heap empty_heap
                    (A_array (Num A_coupled)) (O_int 0) [0; 0] true no_kwargs)
             {| sa_A := Num A_coupled; sa_observation := Num [1; 0];
                sa_prior := [Some [0; 0]; None]; sa_No := [2%nat]; sa_Ns := [2; 2]%nat |}
             eq_refl coupled_well_formed).
    + reflexivity.
    + simpl. lia.
  - apply (proj1 (flat_prior_fits_one_factor_only empty_heap empty_heap
                    (A_array (Num A_coupled)) (O_int 0) [0; 0; 0] true no_kwargs)
             {| sa_A := Num A_coupled; sa_observation := Num [1; 0];
                sa_prior := [Some [0; 0; 0]; None]; sa_No := [2%nat];
                sa_Ns := [2; 2]%nat |}
             eq_refl coupled_well_formed).
    simpl. lia.
Defined.

Lemma for_each_index_error {T} (gs : list nat) (body : nat -> result T) :
  (forall g e, body g = Raise e -> e = IndexError) ->
  (exists g e, In g gs /\ body g = Raise e) ->
  for_each gs body = Raise IndexError.
Proof.
  intros Hkind. induction gs as [|g gs IH]; intros [g0 [e [Hin Hb]]].
  - destruct Hin.
  - simpl. destruct (body g) as [x|e'] eqn:Eb.
    + destruct Hin as [->|Hin]; [congruence|].
      simpl. rewrite IH by (exists g0, e; auto). reflexivity.
    + simpl. rewrite (Hkind g e' Eb). reflexivity.
Qed.

Lemma for_each_raises {T} (gs : list nat) (body : nat -> result T) :
  (exists g e, In g gs /\ body g = Raise e) ->
  exists e, for_each gs body = Raise e.
Proof.
  induction gs as [|g gs IH]; intros [g0 [e [Hin Hb]]].
  - destruct Hin.
  - simpl. destruct (body g) as [x|e'] eqn:Eb.
    + destruct Hin as [->|Hin]; [congruence|].
      destruct IH as [e1 ->]; [exists g0, e; auto|]. exists e1. reflexivity.
    + exists e'. reflexivity.
Qed.

Lemma for_each_ext_in {T} (gs : list nat) (body body' : nat -> result T) :
  (forall g, In g gs -> body g = body' g) -> for_each gs body = for_each gs body'.
Proof.
  induction gs as [|g gs IH]; intros H; simpl.
  - reflexivity.
  - rewrite (H g (or_introl eq_refl)), IH; [reflexivity|].
    intros g' Hg'. apply H. right. exact Hg'.
Qed.

Lemma eye_row_raises (n : nat) (i : Z) (e : exn) :
  eye_row n i = Raise e -> e = index_error i.
Proof.
  unfold eye_row.
  destruct ((- Z.of_nat n <=? i) && (i <? Z.of_nat n))%Z; [discriminate|].
  intros H. injection H as <-. reflexivity.
Qed.

(** A tuple of observation indices is read at the positions
    [0 .. Ng-1] only.  A tuple with fewer entries than modalities ends in
    an exception: [IndexError] when none of its entries is an integer
    from [2^63] to [2^64 - 1], for which the conversion to an index ends
    in [OverflowError].  Entries beyond the modalities are never looked
    at. *)
Theorem tuple_observation_length
    (h : heap) (t extra : list Z) (Ng : nat) (No : list nat) :
  ((length t < Ng)%nat ->
   (exists e, normalize_observation h (O_tuple t) Ng No = (h, Raise e))
   /\ (Forall (fun i => ~ (2 ^ 63 <= i < 2 ^ 64)%Z) t ->
       normalize_observation h (O_tuple t) Ng No = (h, Raise IndexError)))
  /\ ((Ng <= length t)%nat ->
      normalize_observation h (O_tuple (t ++ extra)) Ng No
      = normalize_observation h (O_tuple t) Ng No).
Proof.
  split.
  - intros Hlen.
    assert (Hmiss : exists g e,
              In g (range Ng)
              /\ (og <- py_nth t g ;; eye_row (nth g No O) og) = Raise e).
    { exists (length t), IndexError. split; [apply in_range; exact Hlen|].
      unfold py_nth. rewrite (proj2 (nth_error_None t (length t))) by lia.
      reflexivity. }
    split.
    + destruct (for_each_raises _ _ Hmiss) as [e He].
      exists e. simpl. rewrite He. reflexivity.
    + intros Hall. simpl.
      rewrite (for_each_index_error (range Ng)); [reflexivity| |exact Hmiss].
      intros g e. unfold py_nth. destruct (nth_error t g) as [i|] eqn:Ei; simpl.
      * intros He. apply eye_row_raises in He. subst e.
        rewrite Forall_forall in Hall. pose proof (Hall i (nth_error_In _ _ Ei)) as Hi.
        unfold index_error, overflows.
        destruct (Z.leb_spec (2 ^ 63) i), (Z.ltb_spec i (2 ^ 64)); simpl;
          try reflexivity; lia.
      * intros H. injection H as <-. reflexivity.
  - intros Hlen. simpl. f_equal. f_equal.
    apply for_each_ext_in. intros g Hg. apply in_range in Hg.
    unfold py_nth. rewrite nth_error_app1 by lia. reflexivity.
Qed.

Lemma for_each_shift {T} (n s : nat) (body : nat -> result T) :
  for_each (seq (S s) n) body = for_each (seq s n) (fun g => body (S g)).
Proof.
  revert s. induction n as [|n IH]; intros s; simpl.
  - reflexivity.
  - rewrite IH. reflexivity.
Qed.

Lemma outcome_counts (items : list ndarray) :
  Forall (fun a => shape a <> []) items ->
  for_each (range (length items))
    (fun g => Ag <- py_nth items g ;; py_nth (shape Ag) 0)
  = Ok (map (fun a => hd O (shape a)) items).
Proof.
  unfold range. induction items as [|a items IH]; intros Hall.
  - reflexivity.
  - inversion Hall as [|? ? Ha Hrest]; subst.
    cbn [length map]. change (seq 0 (S (length items))) with (O :: seq 1 (length items)).
    cbn [for_each]. rewrite for_each_shift.
    rewrite (for_each_ext _ _ (fun g => Ag <- py_nth items g ;; py_nth (shape Ag) 0))
      by (intros g; reflexivity).
    rewrite (IH Hrest).
    destruct (shape a) as [|n0 sh] eqn:Es; [congruence|].
    unfold py_nth. simpl. rewrite Es. reflexivity.
Qed.

(** For a likelihood given as an object array the hidden-state shape is
    read off the first modality alone; the other modalities contribute
    their outcome counts only, so a modality with another hidden-state
    shape goes unnoticed here.  An empty object array ends in
    [IndexError]. *)
Theorem dims_from_first_modality (A0 : ndarray) (rest : list ndarray) :
  Forall (fun a => shape a <> []) (A0 :: rest) ->
  infer_dims (Obj (A0 :: rest))
  = Ok (tl (shape A0), S (length rest), map (fun a => hd O (shape a)) (A0 :: rest))
  /\ infer_dims (Obj []) = Raise IndexError.
Proof.
  intros Hall. split; [|reflexivity].
  unfold infer_dims. cbn [py_nth nth_error bind].
  rewrite (outcome_counts (A0 :: rest) Hall). reflexivity.
Qed.

Lemma dims_from_first_modality_witness :
  Forall (fun a => shape a <> []) [A_two_state; A_coupled]
  /\ infer_dims (Obj [A_two_state; A_coupled]) = Ok ([2%nat], 2%nat, [2; 2]%nat).
Proof.
  assert (H : Forall (fun a => shape a <> []) [A_two_state; A_coupled])
    by (repeat constructor; discriminate).
  split; [exact H|].
  exact (proj1 (dims_from_first_modality A_two_state [A_coupled] H)).
Defined.

Lemma tuple_observation_length_witness :
  (length [0%Z] < 2)%nat
  /\ Forall (fun i => ~ (2 ^ 63 <= i < 2 ^ 64)%Z) [0%Z]
  /\ normalize_observation empty_heap (O_tuple [0%Z]) 2 [2; 2]%nat
     = (empty_heap, Raise IndexError)
  /\ normalize_observation empty_heap (O_tuple ([0%Z; 1%Z] ++ [7%Z])) 2 [2; 2]%nat
     = normalize_observation empty_heap (O_tuple [0%Z; 1%Z]) 2 [2; 2]%nat.
Proof.
  assert (H : (length [0%Z] < 2)%nat) by (simpl; lia).
  assert (Hall : Forall (fun i => ~ (2 ^ 63 <= i < 2 ^ 64)%Z) [0%Z])
    by (constructor; [lia|constructor]).
  split; [exact H|]. split; [exact Hall|]. split.
  - exact (proj2 (proj1 (tuple_observation_length empty_heap [0%Z] [] 2 [2; 2]%nat) H)
             Hall).
  - apply (proj2 (tuple_observation_length empty_heap [0%Z; 1%Z] [7%Z] 2 [2; 2]%nat)).
    simpl. lia.
Defined.

(** ** Edge cases of the loop *)

Lemma prior_flat2_supplied : prior_supplied [2; 2]%nat prior_flat2.
Proof. split; [simpl; lia|exact prior_flat2_fits]. Defined.

Lemma two_factors_positive : Forall (fun n => (0 < n)%nat) [2; 2]%nat.
Proof. repeat constructor. Defined.

Lemma coupled_log_defined :
  log_defined (Num A_coupled) (Num [1; 0]) [2%nat] [2; 2]%nat.
Proof.
  intros ix Hix.
  inversion Hix as [|j1 n1 ix1 Ns1 Hj1 Hrest1]; subst.
  inversion Hrest1 as [|j2 n2 ix2 Ns2 Hj2 Hrest2]; subst.
  inversion Hrest2; subst.
  unfold observed_probability, rsum, vprod, vget, eps. simpl.
  destruct j1 as [|[|j1]]; [| |lia]; (destruct j2 as [|[|j2]]; [| |lia]); simpl; lra.
Defined.

(** For arguments of the documented forms and shapes and a prior that
    holds a vector of [Ns[f]] entries for every factor, with more than one
    factor and [num_iter <= 0] the loop body never runs: both solvers
    return the uniform beliefs they started from, whatever the entries of
    the likelihood and of the prior. *)
Theorem no_iterations_returns_uniform
    (A : pyarr ndarray) (observation : pyarr vec) (prior : list vec)
    (No Ns : list nat) (num_iter : Z) (dF_tol : R) :
  (1 < length Ns)%nat ->
  Forall (fun n => (0 < n)%nat) Ns ->
  well_formed A observation No Ns ->
  prior_supplied Ns prior ->
  (num_iter <= 0)%Z ->
  run_FPI A observation prior No Ns num_iter dF_tol = Some (Factors (map uniform Ns))
  /\ run_FPI_faster A observation prior No Ns num_iter dF_tol
     = Some (Factors (map uniform Ns)).
Proof.
  intros HNf _ _ _ Hn. split.
  - destruct (run_FPI_ends A observation prior No Ns num_iter dF_tol HNf)
      as [n [s [_ [[Hle [Hq _]] Hrun]]]].
    rewrite Hrun, Hq. replace n with O by lia. simpl.
    rewrite init_qx_uniform. reflexivity.
  - destruct (run_FPI_faster_ends A observation prior No Ns num_iter dF_tol HNf)
      as [n [s [_ [[Hle [Hq _]] Hrun]]]].
    rewrite Hrun, Hq. replace n with O by lia. simpl.
    rewrite init_qx_uniform. reflexivity.
Qed.

Lemma no_iterations_returns_uniform_witness :
  (1 < length [2; 2]%nat)%nat
  /\ Forall (fun n => (0 < n)%nat) [2; 2]%nat
  /\ well_formed (Num A_coupled) (Num [1; 0]) [2%nat] [2; 2]%nat
  /\ prior_supplied [2; 2]%nat prior_flat2
  /\ (0 <= 0)%Z
  /\ run_FPI (Num A_coupled) (Num [1; 0]) prior_flat2 [2%nat] [2; 2]%nat 0 0.001
     = Some (Factors (map uniform [2; 2]%nat)).
Proof.
  assert (H : (1 < length [2; 2]%nat)%nat) by (simpl; lia).
  split; [exact H|]. split; [exact two_factors_positive|].
  split; [exact coupled_well_formed|]. split; [exact prior_flat2_supplied|].
  split; [lia|].
  exact (proj1 (no_iterations_returns_uniform (Num A_coupled) (Num [1; 0]) prior_flat2
                  [2%nat] [2; 2]%nat 0 0.001 H two_factors_positive coupled_well_formed
                  prior_flat2_supplied ltac:(lia))).
Defined.

Lemma ends_without_break (passes : list vec -> list vec)
    (Ns : list nat) (L : tensor) (prior : list vec) (num_iter : Z) (dF_tol : R)
    (n : nat) (s : loop_state) :
  dF_tol <= 0 ->
  ends_after passes Ns L prior num_iter dF_tol n s ->
  st_stopped s = false /\ n = Z.to_nat num_iter.
Proof.
  intros Htol [Hle [_ [_ [_ [Hstop Hcap]]]]].
  assert (Hs : st_stopped s = false).
  { destruct (st_stopped s) eqn:E; [|reflexivity].
    destruct (proj1 Hstop eq_refl) as [k [_ Hk]].
    unfold dF_at in Hk.
    pose proof (Rabs_pos (snd (after_iterations passes Ns L prior k)
                          - snd (after_iterations passes Ns L prior (S k)))). lra. }
  split; [exact Hs|].
  destruct (Nat.eq_dec n (Z.to_nat num_iter)) as [E|E]; [exact E|].
  rewrite Hcap in Hs by lia. discriminate.
Qed.

(** For arguments of the documented forms and shapes, a likelihood under
    which every logarithm is defined and a prior that fits, with more
    than one factor and a tolerance that is zero or negative the test
    [dF < dF_tol] can never hold: both solvers run all [num_iter]
    iterations and leave the loop at the cap, never by [break]. *)
Theorem nonpositive_tolerance_runs_to_cap
    (A : pyarr ndarray) (observation : pyarr vec) (prior : list vec)
    (No Ns : list nat) (num_iter : Z) (dF_tol : R) :
  (1 < length Ns)%nat ->
  Forall (fun n => (0 < n)%nat) Ns ->
  well_formed A observation No Ns ->
  log_defined A observation No Ns ->
  prior_supplied Ns prior ->
  dF_tol <= 0 ->
  let L := joint_log_likelihood A observation No in
  (exists s,
      run_FPI_loop (Z.to_nat num_iter) A observation prior No Ns num_iter dF_tol = Some s
      /\ st_stopped s = false
      /\ run_FPI A observation prior No Ns num_iter dF_tol
         = Some (Factors (fst (after_iterations (run_FPI_passes Ns L prior) Ns L prior
                                 (Z.to_nat num_iter)))))
  /\ (exists s,
      run_FPI_faster_loop (Z.to_nat num_iter) A observation prior No Ns num_iter dF_tol
      = Some s
      /\ st_stopped s = false
      /\ run_FPI_faster A observation prior No Ns num_iter dF_tol
         = Some (Factors (fst (after_iterations (run_FPI_faster_passes Ns L prior)
                                 Ns L prior (Z.to_nat num_iter))))).
Proof.
  intros HNf _ _ _ _ Htol L. split.
  - destruct (run_FPI_ends A observation prior No Ns num_iter dF_tol HNf)
      as [n [s [Hloop [Hend Hrun]]]].
    destruct (ends_without_break _ _ _ _ _ _ _ _ Htol Hend) as [Hs ->].
    destruct Hend as [_ [Hq _]].
    exists s. split; [exact Hloop|]. split; [exact Hs|]. rewrite Hrun, Hq. reflexivity.
  - destruct (run_FPI_faster_ends A observation prior No Ns num_iter dF_tol HNf)
      as [n [s [Hloop [Hend Hrun]]]].
    destruct (ends_without_break _ _ _ _ _ _ _ _ Htol Hend) as [Hs ->].
    destruct Hend as [_ [Hq _]].
    exists s. split; [exact Hloop|]. split; [exact Hs|]. rewrite Hrun, Hq. reflexivity.
Qed.

Lemma nonpositive_tolerance_runs_to_cap_witness :
  (1 < length [2; 2]%nat)%nat
  /\ Forall (fun n => (0 < n)%nat) [2; 2]%nat
  /\ well_formed (Num A_coupled) (Num [1; 0]) [2%nat] [2; 2]%nat
  /\ log_defined (Num A_coupled) (Num [1; 0]) [2%nat] [2; 2]%nat
  /\ prior_supplied [2; 2]%nat prior_flat2
  /\ 0 <= 0
  /\ exists s,
       run_FPI_loop (Z.to_nat 3) (Num A_coupled) (Num [1; 0]) prior_flat2
         [2%nat] [2; 2]%nat 3 0 = Some s
       /\ st_stopped s = false.
Proof.
  assert (H : (1 < length [2; 2]%nat)%nat) by (simpl; lia).
  split; [exact H|]. split; [exact two_factors_positive|].
  split; [exact coupled_well_formed|]. split; [exact coupled_log_defined|].
  split; [exact prior_flat2_supplied|]. split; [lra|].
  destruct (proj1 (nonpositive_tolerance_runs_to_cap (Num A_coupled) (Num [1; 0])
                     prior_flat2 [2%nat] [2; 2]%nat 3 0 H two_factors_positive
                     coupled_well_formed coupled_log_defined prior_flat2_supplied
                     ltac:(lra)))
    as [s [H1 [H2 _]]].
  exists s. auto.
Defined.

(** ** The shape of the posterior *)

(** For arguments of the documented forms and shapes, cardinalities that
    are all positive, a likelihood under which every logarithm is defined
    and a prior that fits, [run_FPI] returns, and every vector it returns
    has exactly [Ns[f]] entries, none of them negative, that sum to 1. *)
Theorem run_FPI_posterior_shape
    (A : pyarr ndarray) (observation : pyarr vec) (prior : list vec)
    (No Ns : list nat) (num_iter : Z) (dF_tol : R) :
  Ns <> [] ->
  Forall (fun n => (0 < n)%nat) Ns ->
  well_formed A observation No Ns ->
  log_defined A observation No Ns ->
  prior_supplied Ns prior ->
  exists p, run_FPI A observation prior No Ns num_iter dF_tol = Some p
            /\ has_shape Ns p /\ valid_posterior p.
Proof.
  intros Hne HNs _ _ [_ Hp].
  destruct (run_FPI_returns_categorical A observation prior No Ns num_iter dF_tol
              Hne HNs Hp) as [p [H1 [H2 H3]]].
  exists p. auto.
Qed.

Lemma run_FPI_posterior_shape_witness :
  [2; 2]%nat <> []
  /\ Forall (fun n => (0 < n)%nat) [2; 2]%nat
  /\ well_formed (Num A_coupled) (Num [1; 0]) [2%nat] [2; 2]%nat
  /\ log_defined (Num A_coupled) (Num [1; 0]) [2%nat] [2; 2]%nat
  /\ prior_supplied [2; 2]%nat prior_flat2
  /\ exists p, run_FPI (Num A_coupled) (Num [1; 0]) prior_flat2 [2%nat] [2; 2]%nat 10 0.001
               = Some p /\ has_shape [2; 2]%nat p /\ valid_posterior p.
Proof.
  assert (H : [2; 2]%nat <> []) by discriminate.
  split; [exact H|]. split; [exact two_factors_positive|].
  split; [exact coupled_well_formed|]. split; [exact coupled_log_defined|].
  split; [exact prior_flat2_supplied|].
  exact (run_FPI_posterior_shape (Num A_coupled) (Num [1; 0]) prior_flat2
           [2%nat] [2; 2]%nat 10 0.001 H two_factors_positive coupled_well_formed
           coupled_log_defined prior_flat2_supplied).
Defined.

(** * The social interaction environment *)

Import SocialInteraction.

Lemma position_in_range (n : nat) (i : Z) :
  (- Z.of_nat n <= i < Z.of_nat n)%Z ->
  exists k, position n i = Return k /\ (k < n)%nat
            /\ k = Z.to_nat (i mod Z.of_nat n).
Proof.
  intros Hi. unfold position.
  replace ((- Z.of_nat n <=? i) && (i <? Z.of_nat n))%Z with true
    by (symmetry; apply andb_true_iff; split; [apply Z.leb_le|apply Z.ltb_lt]; lia).
  eexists. split; [reflexivity|]. split; [|reflexivity].
  pose proof (Z.mod_pos_bound i (Z.of_nat n) ltac:(lia)). lia.
Qed.

Lemma position_out_of_range (n : nat) (i : Z) :
  ~ (- Z.of_nat n <= i < Z.of_nat n)%Z -> position n i = Raised (index_error i).
Proof.
  intros Hi. unfold position.
  destruct ((- Z.of_nat n <=? i) && (i <? Z.of_nat n))%Z eqn:E; [|reflexivity].
  apply andb_true_iff in E. destruct E as [E1 E2].
  apply Z.leb_le in E1. apply Z.ltb_lt in E2. lia.
Qed.

Lemma position_some (n : nat) (i : Z) (k : nat) :
  position n i = Return k -> (k < n)%nat /\ (- Z.of_nat n <= i < Z.of_nat n)%Z.
Proof.
  unfold position.
  destruct ((- Z.of_nat n <=? i) && (i <? Z.of_nat n))%Z eqn:E; [|discriminate].
  apply andb_true_iff in E. destruct E as [E1 E2].
  apply Z.leb_le in E1. apply Z.ltb_lt in E2.
  intros H. injection H as <-.
  pose proof (Z.mod_pos_bound i (Z.of_nat n) ltac:(lia)). lia.
Qed.

Lemma vget_list_set (v : vec) (k j : nat) (x : R) :
  (k < length v)%nat ->
  vget (list_set k x v) j = if Nat.eqb j k then x else vget v j.
Proof.
  intros Hk. unfold vget. destruct (Nat.eqb_spec j k) as [->|Hne].
  - apply list_set_nth_same. exact Hk.
  - apply list_set_nth_other. auto.
Qed.

Lemma vsum_list_set (v : vec) (k : nat) (x : R) :
  (k < length v)%nat -> vsum (list_set k (vget v k + x) v) = vsum v + x.
Proof.
  revert k. induction v as [|y v IH]; intros k Hk; simpl in Hk; [lia|].
  destruct k as [|k]; simpl.
  - unfold vget. simpl. lra.
  - unfold vget in *. simpl. rewrite IH by lia. lra.
Qed.

Lemma add_at_length (v v' : vec) (i : Z) (x : R) :
  add_at v i x = Return v' -> length v' = length v.
Proof.
  unfold add_at. destruct (position (length v) i); [|discriminate].
  intros H. injection H as <-. apply list_set_length.
Qed.

Lemma Forall_list_set_in {T} (P : T -> Prop) (k : nat) (x : T) (l : list T) :
  Forall P l -> P x -> Forall P (list_set k x l).
Proof.
  intros Hl Hx. apply Forall_list_set; auto.
Qed.

Lemma add_at2_shape (m m' : matrix) (i j : Z) (x : R) (w : nat) :
  add_at2 m i j x = Return m' ->
  Forall (fun r => length r = w) (rows m) ->
  ncols m' = ncols m /\ length (rows m') = length (rows m)
  /\ Forall (fun r => length r = w) (rows m').
Proof.
  unfold add_at2.
  destruct (position (length (rows m)) i) as [r|e] eqn:Er;
    destruct (position (ncols m) j) as [c|e'] eqn:Ec; try discriminate;
    try (destruct (unconvertible i); [|destruct (unconvertible j)]; discriminate).
  intros H Hrows. injection H as <-. simpl.
  split; [reflexivity|]. split; [apply list_set_length|].
  apply Forall_list_set_in; [exact Hrows|].
  rewrite list_set_length.
  apply position_some in Er. destruct Er as [Hr _].
  rewrite Forall_forall in Hrows. apply Hrows, nth_In. exact Hr.
Qed.

Lemma dynamics_frame (e e1 : env) (u p : Z) (a : string) (r : outcome (option R)) :
  dynamics e u p a = (e1, r) ->
  num_users e1 = num_users e /\ num_posts e1 = num_posts e
  /\ actions e1 = actions e /\ rewards e1 = rewards e
  /\ length (user_states e1) = length (user_states e)
  /\ length (post_states e1) = length (post_states e).
Proof.
  unfold dynamics.
  repeat match goal with
  | |- context [(a =? ?m)%string] => destruct (a =? m)%string
  | |- context [add_at ?v ?i ?x] =>
      let E := fresh "E" in
      destruct (add_at v i x) eqn:E; [apply add_at_length in E|]
  end;
  intros H; injection H as <- <-; simpl; auto 10.
Qed.

Lemma step_well_shaped (e : env) (u p : Z) (a : string) :
  well_shaped e -> well_shaped (fst (step e u p a)).
Proof.
  intros Hw. unfold step.
  destruct (negb (existsb (String.eqb a) (actions e))); [exact Hw|].
  destruct (dynamics e u p a) as [e1 r] eqn:Ed.
  destruct (dynamics_frame _ _ _ _ _ _ Ed) as [H1 [H2 [H3 [H4 [H5 H6]]]]].
  assert (Hw1 : well_shaped e1).
  { unfold well_shaped in *. rewrite H1, H2, H3, H4, H5, H6. exact Hw. }
  destruct r as [[reward|]|x]; simpl; try exact Hw1.
  destruct (add_at2 (rewards e1) u p reward) as [rw|x] eqn:Ea; simpl; [|exact Hw1].
  destruct Hw1 as [W1 [W2 [W3 [W4 [W5 [W6 [W7 W8]]]]]]].
  destruct (add_at2_shape _ _ _ _ _ _ Ea W8) as [S1 [S2 S3]].
  unfold well_shaped. simpl. rewrite S1, S2. auto 10.
Qed.

Lemma steps_well_shaped (calls : list (Z * Z * string)) :
  forall e, well_shaped e ->
    well_shaped (fst (steps e calls))
    /\ num_users (fst (steps e calls)) = num_users e
    /\ num_posts (fst (steps e calls)) = num_posts e.
Proof.
  induction calls as [|[[u p] a] calls IH]; intros e Hw; simpl.
  - auto.
  - pose proof (step_well_shaped e u p a Hw) as Hw1.
    assert (Hn : num_users (fst (step e u p a)) = num_users e
                 /\ num_posts (fst (step e u p a)) = num_posts e).
    { unfold step.
      destruct (negb (existsb (String.eqb a) (actions e))); [auto|].
      destruct (dynamics e u p a) as [e1 r] eqn:Ed.
      destruct (dynamics_frame _ _ _ _ _ _ Ed) as [H1 [H2 _]].
      destruct r as [[reward|]|x]; simpl; auto.
      destruct (add_at2 (rewards e1) u p reward); simpl; auto. }
    destruct (step e u p a) as [e1 [[[us ps] reward]|x]]; simpl in *.
    + destruct (IH e1 Hw1) as [I1 [I2 I3]].
      destruct (steps e1 calls) as [e2 [rs|x]]; simpl in *;
        (split; [exact I1|]); split; destruct Hn; congruence.
    + auto.
Qed.

Lemma fresh_well_shaped (nu np : Z) :
  (0 <= nu)%Z -> (0 <= np)%Z -> well_shaped (fresh nu np).
Proof.
  intros Hu Hp. unfold well_shaped, fresh. simpl.
  rewrite !repeat_length. repeat split; auto.
  apply Forall_forall. intros r Hr. apply repeat_spec in Hr. subst r.
  apply repeat_length.
Qed.

Lemma reset_well_shaped (e : env) :
  well_shaped e -> reset e = (fresh (num_users e) (num_posts e), Return tt).
Proof.
  intros [W1 [W2 [W3 _]]]. unfold reset, zeros, zeros2. simpl.
  replace (num_users e <? 0)%Z with false by (symmetry; apply Z.ltb_ge; lia).
  replace (num_posts e <? 0)%Z with false by (symmetry; apply Z.ltb_ge; lia).
  simpl. unfold fresh, set_rewards, the_actions. simpl. rewrite W3. reflexivity.
Qed.

Lemma total_add_at2 (m m' : matrix) (i j : Z) (x : R) :
  add_at2 m i j x = Return m' ->
  Forall (fun r => length r = ncols m) (rows m) ->
  total m' = total m + x.
Proof.
  unfold add_at2.
  destruct (position (length (rows m)) i) as [r|e] eqn:Er;
    destruct (position (ncols m) j) as [c|e'] eqn:Ec; try discriminate;
    try (destruct (unconvertible i); [|destruct (unconvertible j)]; discriminate).
  intros H Hrows. injection H as <-. unfold total. simpl.
  apply position_some in Er. destruct Er as [Hr _].
  apply position_some in Ec. destruct Ec as [Hc _].
  assert (Hlen : length (nth r (rows m) []) = ncols m).
  { rewrite Forall_forall in Hrows. apply Hrows, nth_In. exact Hr. }
  generalize dependent r. generalize (rows m) as l. clear Hrows.
  induction l as [|y l IH]; intros r Hr Hlen; simpl in Hr; [lia|].
  destruct r as [|r]; simpl in *.
  - rewrite vsum_list_set by lia. lra.
  - rewrite (IH r) by (try lia; exact Hlen). lra.
Qed.

Lemma cell_add_at2 (m m' : matrix) (i j : Z) (x : R) (a b : nat) :
  add_at2 m i j x = Return m' ->
  Forall (fun r => length r = ncols m) (rows m) ->
  cell m' a b
  = cell m a b
    + (if Nat.eqb a (Z.to_nat (i mod Z.of_nat (length (rows m))))
          && Nat.eqb b (Z.to_nat (j mod Z.of_nat (ncols m)))
       then x else 0).
Proof.
  unfold add_at2.
  destruct (position (length (rows m)) i) as [r|e] eqn:Er;
    destruct (position (ncols m) j) as [c|e'] eqn:Ec; try discriminate;
    try (destruct (unconvertible i); [|destruct (unconvertible j)]; discriminate).
  intros H Hrows. injection H as <-. unfold cell. simpl.
  assert (Hrv : r = Z.to_nat (i mod Z.of_nat (length (rows m)))).
  { unfold position in Er.
    destruct ((- Z.of_nat (length (rows m)) <=? i) && (i <? Z.of_nat (length (rows m))))%Z;
      [|discriminate]. injection Er as <-. reflexivity. }
  assert (Hcv : c = Z.to_nat (j mod Z.of_nat (ncols m))).
  { unfold position in Ec.
    destruct ((- Z.of_nat (ncols m) <=? j) && (j <? Z.of_nat (ncols m)))%Z;
      [|discriminate]. injection Ec as <-. reflexivity. }
  rewrite <- Hrv, <- Hcv.
  apply position_some in Er. destruct Er as [Hr _].
  apply position_some in Ec. destruct Ec as [Hc _].
  assert (Hlen : length (nth r (rows m) []) = ncols m).
  { rewrite Forall_forall in Hrows. apply Hrows, nth_In. exact Hr. }
  destruct (Nat.eqb_spec a r) as [->|Hne]; simpl.
  - rewrite list_set_nth_same by exact Hr.
    rewrite vget_list_set by lia.
    destruct (Nat.eqb_spec b c) as [->|]; lra.
  - rewrite list_set_nth_other by auto. lra.
Qed.

Lemma vget_add_at (v v' : vec) (i : Z) (x : R) (k : nat) :
  add_at v i x = Return v' ->
  vget v' k
  = vget v k + (if Nat.eqb k (Z.to_nat (i mod Z.of_nat (length v))) then x else 0).
Proof.
  unfold add_at. destruct (position (length v) i) as [r|e] eqn:Er; [|discriminate].
  intros H. injection H as <-.
  assert (Hrv : r = Z.to_nat (i mod Z.of_nat (length v))).
  { unfold position in Er.
    destruct ((- Z.of_nat (length v) <=? i) && (i <? Z.of_nat (length v)))%Z;
      [|discriminate]. injection Er as <-. reflexivity. }
  rewrite <- Hrv. apply position_some in Er. destruct Er as [Hr _].
  rewrite vget_list_set by exact Hr.
  destruct (Nat.eqb_spec k r) as [->|]; lra.
Qed.

Lemma add_at_in_range (v : vec) (i : Z) (x : R) :
  (- Z.of_nat (length v) <= i < Z.of_nat (length v))%Z ->
  exists v', add_at v i x = Return v'.
Proof.
  intros Hi. unfold add_at.
  destruct (position_in_range _ _ Hi) as [k [-> _]]. eexists. reflexivity.
Qed.

Lemma add_at_out_of_range (v : vec) (i : Z) (x : R) :
  ~ (- Z.of_nat (length v) <= i < Z.of_nat (length v))%Z ->
  add_at v i x = Raised (index_error i).
Proof.
  intros Hi. unfold add_at. rewrite position_out_of_range by exact Hi. reflexivity.
Qed.

(** what [dynamics] does for one of the four actions, in terms of the
    gains of the action *)
Lemma dynamics_of_action (e : env) (u p : Z) (a : string) :
  In a the_actions ->
  (a = "FOLLOW"%string /\
   dynamics e u p a
   = match add_at (user_states e) u 1 with
     | Return us => (set_user_states e us, Return (Some (reward_of a)))
     | Raised x => (e, Raised x)
     end)
  \/ (a <> "FOLLOW"%string /\ user_gain a = 0 /\
      dynamics e u p a
      = match add_at (post_states e) p (post_gain a) with
        | Return ps => (set_post_states e ps, Return (Some (reward_of a)))
        | Raised x => (e, Raised x)
        end).
Proof.
  intros Ha. simpl in Ha.
  destruct Ha as [<-|[<-|[<-|[<-|[]]]]].
  - left. split; reflexivity.
  - right. split; [discriminate|]. split; reflexivity.
  - right. split; [discriminate|]. split; reflexivity.
  - right. split; [discriminate|]. split; reflexivity.
Qed.

Lemma accepted_action (e : env) (a : string) :
  actions e = the_actions -> In a the_actions ->
  negb (existsb (String.eqb a) (actions e)) = false.
Proof.
  intros -> Ha. simpl in Ha.
  destruct Ha as [<-|[<-|[<-|[<-|[]]]]]; reflexivity.
Qed.

Lemma refused_action (e : env) (a : string) :
  actions e = the_actions -> ~ In a the_actions ->
  negb (existsb (String.eqb a) (actions e)) = true.
Proof.
  intros -> Ha. apply negb_true_iff.
  destruct (existsb (String.eqb a) the_actions) eqn:E; [|reflexivity].
  apply existsb_exists in E. destruct E as [x [Hx Ex]].
  apply String.eqb_eq in Ex. subst x. contradiction.
Qed.

(** [__init__] raises [ValueError] for a negative number of users,
    whatever the number of posts, and for a negative number of posts when
    the number of users is one the first array is built for, as the
    default is; and every object it returns has the sizes it was given,
    the four actions, and arrays that are all zero: the [reset] it ends
    with changes nothing.  The negative sizes are those a signed 64-bit
    integer holds. *)
Theorem init_result (nu np : Z) :
  ((- 2 ^ 63 <= nu < 0)%Z ->
   init nu np = Raised (ValueError "negative dimensions are not allowed"))
  /\ ((0 <= nu <= default_num_users)%Z -> (- 2 ^ 63 <= np < 0)%Z ->
      init nu np = Raised (ValueError "negative dimensions are not allowed"))
  /\ (forall e, init nu np = Return e ->
        e = fresh nu np /\ (0 <= nu)%Z /\ (0 <= np)%Z /\ well_shaped e).
Proof.
  unfold init, reset, zeros, zeros2. simpl.
  destruct (Z.ltb_spec nu 0) as [Hu|Hu]; simpl.
  - split; [reflexivity|]. split; [lia|discriminate].
  - destruct (Z.ltb_spec np 0) as [Hp|Hp]; simpl.
    + split; [lia|]. split; [reflexivity|discriminate].
    + split; [lia|]. split; [lia|]. intros e H. injection H as <-.
      split; [reflexivity|]. split; [exact Hu|]. split; [exact Hp|].
      apply (fresh_well_shaped nu np Hu Hp).
Qed.

Lemma init_result_witness :
  (- 2 ^ 63 <= -1 < 0)%Z
  /\ init (-1) 3 = Raised (ValueError "negative dimensions are not allowed")
  /\ (0 <= 2 <= default_num_users)%Z
  /\ init 2 (-3) = Raised (ValueError "negative dimensions are not allowed")
  /\ init 2 3 = Return (fresh 2 3)
  /\ well_shaped (fresh 2 3).
Proof.
  assert (H : (- 2 ^ 63 <= -1 < 0)%Z) by lia.
  assert (H2 : (0 <= 2 <= default_num_users)%Z) by (unfold default_num_users; lia).
  assert (H3 : (- 2 ^ 63 <= -3 < 0)%Z) by lia.
  split; [exact H|].
  split; [exact (proj1 (init_result (-1) 3) H)|].
  split; [exact H2|].
  split; [exact (proj1 (proj2 (init_result 2 (-3))) H2 H3)|].
  split; [reflexivity|].
  exact (proj2 (proj2 (proj2 (proj2 (proj2 (init_result 2 3)) (fresh 2 3) eq_refl)))).
Defined.

(** [step] with an action outside the four raises [ValueError] with the
    action in its message and leaves the object as it was. *)
Theorem step_unknown_action (e : env) (u p : Z) (a : string) :
  actions e = the_actions -> ~ In a the_actions ->
  step e u p a = (e, Raised (ValueError ("Invalid action: " ++ a))).
Proof.
  intros He Ha. unfold step. rewrite refused_action by assumption. reflexivity.
Qed.

Lemma step_unknown_action_witness :
  actions (fresh 2 3) = the_actions /\ ~ In "BLOCK"%string the_actions
  /\ step (fresh 2 3) 0 0 "BLOCK"
     = (fresh 2 3, Raised (ValueError "Invalid action: BLOCK")).
Proof.
  assert (H : ~ In "BLOCK"%string the_actions).
  { simpl. intros [H|[H|[H|[H|[]]]]]; discriminate. }
  split; [reflexivity|]. split; [exact H|].
  exact (step_unknown_action (fresh 2 3) 0 0 "BLOCK" eq_refl H).
Defined.

(** [step] with one of the four actions and both indices in range
    returns the reward of the action together with the two state arrays of
    the object; the state of the user has grown by the user gain of the
    action, the state of the post by its post gain, the reward cell of
    the pair by the reward, and no other entry has changed.  The getters
    read the new states. *)
Theorem step_effect (e : env) (u p : Z) (a : string) :
  well_shaped e -> In a the_actions ->
  (- num_users e <= u < num_users e)%Z ->
  (- num_posts e <= p < num_posts e)%Z ->
  let ku := Z.to_nat (u mod num_users e) in
  let kp := Z.to_nat (p mod num_posts e) in
  exists e',
    step e u p a = (e', Return (user_states e', post_states e', reward_of a))
    /\ (forall k, vget (user_states e') k
                  = vget (user_states e) k + (if Nat.eqb k ku then user_gain a else 0))
    /\ (forall k, vget (post_states e') k
                  = vget (post_states e) k + (if Nat.eqb k kp then post_gain a else 0))
    /\ (forall i j, cell (rewards e') i j
                    = cell (rewards e) i j
                      + (if Nat.eqb i ku && Nat.eqb j kp then reward_of a else 0))
    /\ get_user_state e' u = Return (vget (user_states e) ku + user_gain a)
    /\ get_post_state e' p = Return (vget (post_states e) kp + post_gain a).
Proof.
  intros Hw Ha Hu Hp ku kp.
  destruct Hw as [W1 [W2 [W3 [W4 [W5 [W6 [W7 W8]]]]]]].
  assert (Hul : Z.of_nat (length (user_states e)) = num_users e) by (rewrite W4; lia).
  assert (Hpl : Z.of_nat (length (post_states e)) = num_posts e) by (rewrite W5; lia).
  assert (Hrl : Z.of_nat (length (rows (rewards e))) = num_users e) by (rewrite W7; lia).
  assert (Hcl : Z.of_nat (ncols (rewards e)) = num_posts e) by (rewrite W6; lia).
  assert (Hrows : Forall (fun r => length r = ncols (rewards e)) (rows (rewards e)))
    by (rewrite W6; exact W8).
  assert (Hadd2 : forall x, exists rw, add_at2 (rewards e) u p x = Return rw).
  { intros x. unfold add_at2.
    destruct (position_in_range (length (rows (rewards e))) u ltac:(lia)) as [r [-> _]].
    destruct (position_in_range (ncols (rewards e)) p ltac:(lia)) as [c [-> _]].
    eexists. reflexivity. }
  assert (Hgu : forall v : vec, length v = length (user_states e) ->
            position (length v) u = Return ku).
  { intros v Hv. destruct (position_in_range (length v) u ltac:(lia)) as [k [-> [_ ->]]].
    unfold ku. rewrite Hv, Hul. reflexivity. }
  assert (Hgp : forall v : vec, length v = length (post_states e) ->
            position (length v) p = Return kp).
  { intros v Hv. destruct (position_in_range (length v) p ltac:(lia)) as [k [-> [_ ->]]].
    unfold kp. rewrite Hv, Hpl. reflexivity. }
  unfold step. rewrite accepted_action by assumption.
  destruct (dynamics_of_action e u p a Ha) as [[Ea ->]|[Ea [Hug ->]]].
  - destruct (add_at_in_range (user_states e) u 1 ltac:(lia)) as [us Hus].
    rewrite Hus. simpl.
    destruct (Hadd2 (reward_of a)) as [rw Hrw]. rewrite Hrw.
    assert (Hpg : post_gain a = 0) by (subst a; reflexivity).
    assert (Hugain : user_gain a = 1) by (subst a; reflexivity).
    exists (set_rewards (set_user_states e us) rw). split; [reflexivity|]. simpl.
    split; [|split; [|split; [|split]]].
    + intros k. rewrite (vget_add_at _ _ _ _ k Hus), Hul, Hugain. reflexivity.
    + intros k. rewrite Hpg. destruct (Nat.eqb k kp); lra.
    + intros i j. rewrite (cell_add_at2 _ _ _ _ _ i j Hrw Hrows), Hrl, Hcl. reflexivity.
    + unfold get_user_state. simpl.
      rewrite (Hgu us (add_at_length _ _ _ _ Hus)).
      rewrite (vget_add_at _ _ _ _ ku Hus), Hul. fold ku.
      rewrite Nat.eqb_refl, Hugain. reflexivity.
    + unfold get_post_state. simpl. rewrite (Hgp _ eq_refl), Hpg. f_equal. lra.
  - destruct (add_at_in_range (post_states e) p (post_gain a) ltac:(lia)) as [ps Hps].
    rewrite Hps. simpl.
    destruct (Hadd2 (reward_of a)) as [rw Hrw]. rewrite Hrw.
    exists (set_rewards (set_post_states e ps) rw). split; [reflexivity|]. simpl.
    split; [|split; [|split; [|split]]].
    + intros k. rewrite Hug. destruct (Nat.eqb k ku); lra.
    + intros k. rewrite (vget_add_at _ _ _ _ k Hps), Hpl. reflexivity.
    + intros i j. rewrite (cell_add_at2 _ _ _ _ _ i j Hrw Hrows), Hrl, Hcl. reflexivity.
    + unfold get_user_state. simpl. rewrite (Hgu _ eq_refl), Hug. f_equal. lra.
    + unfold get_post_state. simpl.
      rewrite (Hgp ps (add_at_length _ _ _ _ Hps)).
      rewrite (vget_add_at _ _ _ _ kp Hps), Hpl. fold kp.
      rewrite Nat.eqb_refl. reflexivity.
Qed.

Lemma fresh_2_3_well_shaped : well_shaped (fresh 2 3).
Proof. apply fresh_well_shaped; lia. Defined.

Lemma step_effect_witness :
  well_shaped (fresh 2 3) /\ In "COMMENT"%string the_actions
  /\ (- num_users (fresh 2 3) <= -1 < num_users (fresh 2 3))%Z
  /\ (- num_posts (fresh 2 3) <= 2 < num_posts (fresh 2 3))%Z
  /\ exists e',
       step (fresh 2 3) (-1) 2 "COMMENT"
       = (e', Return (user_states e', post_states e', reward_of "COMMENT"))
       /\ get_post_state e' 2
          = Return (vget (post_states (fresh 2 3)) 2 + post_gain "COMMENT").
Proof.
  assert (Ha : In "COMMENT"%string the_actions) by (simpl; auto).
  assert (Hu : (- num_users (fresh 2 3) <= -1 < num_users (fresh 2 3))%Z) by (simpl; lia).
  assert (Hp : (- num_posts (fresh 2 3) <= 2 < num_posts (fresh 2 3))%Z) by (simpl; lia).
  split; [exact fresh_2_3_well_shaped|]. split; [exact Ha|].
  split; [exact Hu|]. split; [exact Hp|].
  destruct (step_effect (fresh 2 3) (-1) 2 "COMMENT" fresh_2_3_well_shaped Ha Hu Hp)
    as [e' [H1 [_ [_ [_ [_ H2]]]]]].
  exists e'. split; [exact H1|exact H2].
Defined.

(** [step] is not atomic: when the index the action itself uses is in
    range and the other one is not, the call raises at the reward update,
    after the state of the user or of the post has already grown; the
    rewards are untouched.  The exception is [OverflowError] when the
    other index is an integer from [2^63] to [2^64 - 1], which NumPy
    cannot convert, and [IndexError] otherwise. *)
Theorem step_failure_keeps_dynamics (e : env) (u p : Z) (a : string) :
  well_shaped e -> In a the_actions ->
  (a = "FOLLOW"%string ->
   (- num_users e <= u < num_users e)%Z /\ ~ (- num_posts e <= p < num_posts e)%Z) ->
  (a <> "FOLLOW"%string ->
   (- num_posts e <= p < num_posts e)%Z /\ ~ (- num_users e <= u < num_users e)%Z) ->
  let other := if (a =? "FOLLOW")%string then p else u in
  exists e',
    step e u p a
    = (e', Raised (if ((2 ^ 63 <=? other) && (other <? 2 ^ 64))%Z
                   then OverflowError else IndexError))
    /\ (forall k, vget (user_states e') k
                  = vget (user_states e) k
                    + (if Nat.eqb k (Z.to_nat (u mod num_users e))
                       then user_gain a else 0))
    /\ (forall k, vget (post_states e') k
                  = vget (post_states e) k
                    + (if Nat.eqb k (Z.to_nat (p mod num_posts e))
                       then post_gain a else 0))
    /\ rewards e' = rewards e.
Proof.
  intros Hw Ha HF HnF other.
  destruct Hw as [W1 [W2 [W3 [W4 [W5 [W6 [W7 W8]]]]]]].
  assert (Hul : Z.of_nat (length (user_states e)) = num_users e) by (rewrite W4; lia).
  assert (Hpl : Z.of_nat (length (post_states e)) = num_posts e) by (rewrite W5; lia).
  assert (Hrl : Z.of_nat (length (rows (rewards e))) = num_users e) by (rewrite W7; lia).
  assert (Hcl : Z.of_nat (ncols (rewards e)) = num_posts e) by (rewrite W6; lia).
  unfold step. rewrite accepted_action by assumption.
  destruct (dynamics_of_action e u p a Ha) as [[Ea ->]|[Ea [Hug ->]]].
  - destruct (HF Ea) as [Hu Hp].
    destruct (add_at_in_range (user_states e) u 1 ltac:(lia)) as [us Hus].
    rewrite Hus. simpl.
    assert (Hrw : add_at2 (rewards e) u p (reward_of a) = Raised (index_error p)).
    { unfold add_at2.
      destruct (position_in_range (length (rows (rewards e))) u ltac:(lia)) as [r [-> _]].
      rewrite position_out_of_range by lia. reflexivity. }
    rewrite Hrw.
    assert (Hpg : post_gain a = 0) by (subst a; reflexivity).
    assert (Hugain : user_gain a = 1) by (subst a; reflexivity).
    assert (Ho : other = p) by (unfold other; subst a; reflexivity).
    exists (set_user_states e us). rewrite Ho. split; [reflexivity|]. simpl.
    split; [|split; [|reflexivity]].
    + intros k. rewrite (vget_add_at _ _ _ _ k Hus), Hul, Hugain. reflexivity.
    + intros k. rewrite Hpg. destruct (Nat.eqb k _); lra.
  - destruct (HnF Ea) as [Hp Hu].
    destruct (add_at_in_range (post_states e) p (post_gain a) ltac:(lia)) as [ps Hps].
    rewrite Hps. simpl.
    assert (Hrw : add_at2 (rewards e) u p (reward_of a) = Raised (index_error u)).
    { unfold add_at2. rewrite position_out_of_range by lia.
      destruct (position_in_range (ncols (rewards e)) p ltac:(lia)) as [c [-> _]].
      reflexivity. }
    rewrite Hrw.
    assert (Ho : other = u).
    { unfold other. destruct (String.eqb_spec a "FOLLOW"); [contradiction|reflexivity]. }
    exists (set_post_states e ps). rewrite Ho. split; [reflexivity|]. simpl.
    split; [|split; [|reflexivity]].
    + intros k. rewrite Hug. destruct (Nat.eqb k _); lra.
    + intros k. rewrite (vget_add_at _ _ _ _ k Hps), Hpl. reflexivity.
Qed.

Lemma step_failure_keeps_dynamics_witness :
  well_shaped (fresh 2 3) /\ In "FOLLOW"%string the_actions
  /\ (exists e',
       step (fresh 2 3) 0 7 "FOLLOW" = (e', Raised IndexError)
       /\ vget (user_states e') 0 = vget (user_states (fresh 2 3)) 0 + 1
       /\ rewards e' = rewards (fresh 2 3))
  /\ (exists e',
       step (fresh 2 3) 0 (2 ^ 63) "FOLLOW" = (e', Raised OverflowError)
       /\ vget (user_states e') 0 = vget (user_states (fresh 2 3)) 0 + 1
       /\ rewards e' = rewards (fresh 2 3)).
Proof.
  assert (Ha : In "FOLLOW"%string the_actions) by (simpl; auto).
  split; [exact fresh_2_3_well_shaped|]. split; [exact Ha|]. split.
  - destruct (step_failure_keeps_dynamics (fresh 2 3) 0 7 "FOLLOW"
                fresh_2_3_well_shaped Ha)
      as [e' [H1 [H2 [_ H3]]]].
    + intros _. simpl. lia.
    + intros H. exfalso. apply H. reflexivity.
    + exists e'. split; [exact H1|]. split; [exact (H2 0%nat)|exact H3].
  - destruct (step_failure_keeps_dynamics (fresh 2 3) 0 (2 ^ 63) "FOLLOW"
                fresh_2_3_well_shaped Ha)
      as [e' [H1 [H2 [_ H3]]]].
    + intros _. simpl. lia.
    + intros H. exfalso. apply H. reflexivity.
    + exists e'. split; [exact H1|]. split; [exact (H2 0%nat)|exact H3].
Defined.

Lemma position_raises (n : nat) (i : Z) (x : error) :
  position n i = Raised x -> x = IndexError \/ x = OverflowError.
Proof.
  unfold position, index_error.
  destruct ((- Z.of_nat n <=? i) && (i <? Z.of_nat n))%Z; [discriminate|].
  intros H. injection H as <-.
  match goal with |- context [if ?c then _ else _] => destruct c end; auto.
Qed.

Lemma add_at_raises (v : vec) (i : Z) (y : R) (x : error) :
  add_at v i y = Raised x -> x = IndexError \/ x = OverflowError.
Proof.
  unfold add_at. destruct (position (length v) i) eqn:E; [discriminate|].
  intros H. injection H as <-. exact (position_raises _ _ _ E).
Qed.

Lemma add_at2_raises (m : matrix) (i j : Z) (y : R) (x : error) :
  add_at2 m i j y = Raised x -> x = IndexError \/ x = OverflowError.
Proof.
  unfold add_at2.
  destruct (position (length (rows m)) i) eqn:E1;
    destruct (position (ncols m) j) eqn:E2; try discriminate;
    try (destruct (unconvertible i); [|destruct (unconvertible j)]);
    intros H; injection H as <-;
    first [exact (position_raises _ _ _ E1)|exact (position_raises _ _ _ E2)].
Qed.

(** Whatever the arguments of [step] and whether it returns or raises,
    the object keeps its sizes, its four actions and the shapes of its
    arrays; and a call on such an object never fails for an unbound
    [reward]: every action that passes the membership test has a
    branch. *)
Theorem step_keeps_shapes (e : env) (u p : Z) (a : string) :
  well_shaped e ->
  well_shaped (fst (step e u p a))
  /\ num_users (fst (step e u p a)) = num_users e
  /\ num_posts (fst (step e u p a)) = num_posts e
  /\ forall name, snd (step e u p a) <> Raised (UnboundLocalError name).
Proof.
  intros Hw.
  destruct (steps_well_shaped [(u, p, a)] e Hw) as [_ [H2 H3]].
  split; [apply step_well_shaped; exact Hw|].
  assert (Hn : num_users (fst (step e u p a)) = num_users e
               /\ num_posts (fst (step e u p a)) = num_posts e).
  { simpl in H2, H3. destruct (step e u p a) as [e1 [[[us ps] r]|x]]; simpl in *; auto. }
  split; [apply Hn|]. split; [apply Hn|].
  intros name. unfold step.
  destruct (negb (existsb (String.eqb a) (actions e))) eqn:Eact; [discriminate|].
  assert (Ha : In a the_actions).
  { destruct Hw as [_ [_ [W3 _]]]. change (actions e = the_actions) in W3.
    rewrite W3 in Eact. apply negb_false_iff in Eact.
    apply existsb_exists in Eact. destruct Eact as [x [Hx Ex]].
    apply String.eqb_eq in Ex. subst x. exact Hx. }
  destruct (dynamics_of_action e u p a Ha) as [[Ea ->]|[Ea [Hug ->]]].
  - destruct (add_at (user_states e) u 1) as [us|x] eqn:E1; simpl.
    + destruct (add_at2 _ u p (reward_of a)) as [rw|x] eqn:E2; simpl; [discriminate|].
      apply add_at2_raises in E2. destruct E2; subst x; discriminate.
    + apply add_at_raises in E1. destruct E1; subst x; discriminate.
  - destruct (add_at (post_states e) p (post_gain a)) as [ps|x] eqn:E1; simpl.
    + destruct (add_at2 _ u p (reward_of a)) as [rw|x] eqn:E2; simpl; [discriminate|].
      apply add_at2_raises in E2. destruct E2; subst x; discriminate.
    + apply add_at_raises in E1. destruct E1; subst x; discriminate.
Qed.

Lemma step_keeps_shapes_witness :
  well_shaped (fresh 2 3)
  /\ well_shaped (fst (step (fresh 2 3) 5 5 "SHARE"))
  /\ forall name, snd (step (fresh 2 3) 5 5 "SHARE") <> Raised (UnboundLocalError name).
Proof.
  split; [exact fresh_2_3_well_shaped|].
  destruct (step_keeps_shapes (fresh 2 3) 5 5 "SHARE" fresh_2_3_well_shaped)
    as [H1 [_ [_ H2]]].
  split; [exact H1|exact H2].
Defined.

Lemma step_total (e e1 : env) (u p : Z) (a : string) (us ps : vec) (r : R) :
  well_shaped e ->
  step e u p a = (e1, Return (us, ps, r)) ->
  total (rewards e1) = total (rewards e) + r.
Proof.
  intros Hw. unfold step.
  destruct (negb (existsb (String.eqb a) (actions e))); [discriminate|].
  destruct (dynamics e u p a) as [e' o] eqn:Ed.
  destruct (dynamics_frame _ _ _ _ _ _ Ed) as [_ [_ [_ [H4 _]]]].
  destruct o as [[reward|]|x]; try discriminate.
  destruct (add_at2 (rewards e') u p reward) as [rw|x] eqn:Ea; [|discriminate].
  intros H. injection H as <- _ _ <-. simpl.
  rewrite H4 in Ea. apply (total_add_at2 _ _ _ _ _ Ea).
  destruct Hw as [_ [_ [_ [_ [_ [W6 [_ W8]]]]]]]. rewrite W6. exact W8.
Qed.

(** Over a run of calls of [step] that all return, the rewards matrix
    gains in total exactly the sum of the rewards returned. *)
Theorem rewards_accumulate (calls : list (Z * Z * string)) :
  forall (e e' : env) (rs : list R),
    well_shaped e ->
    steps e calls = (e', Return rs) ->
    total (get_rewards e') = total (get_rewards e) + vsum rs.
Proof.
  unfold get_rewards.
  induction calls as [|[[u p] a] calls IH]; intros e e' rs Hw; simpl.
  - intros H. injection H as <- <-. simpl. lra.
  - destruct (step e u p a) as [e1 [[[us ps] r]|x]] eqn:Es; [|discriminate].
    pose proof (step_well_shaped e u p a Hw) as Hw1. rewrite Es in Hw1. simpl in Hw1.
    destruct (steps e1 calls) as [e2 [rs'|x]] eqn:Ess; [|discriminate].
    intros H. injection H as <- <-. simpl.
    rewrite (IH e1 e2 rs' Hw1 Ess), (step_total _ _ _ _ _ _ _ _ Hw Es). lra.
Qed.

Lemma rewards_accumulate_witness :
  well_shaped (fresh 2 3)
  /\ exists e',
       steps (fresh 2 3) [(0%Z, 0%Z, "LIKE"%string); (1%Z, 0%Z, "COMMENT"%string)] = (e', Return [0.5; 1.5])
       /\ total (get_rewards e') = total (get_rewards (fresh 2 3)) + vsum [0.5; 1.5].
Proof.
  split; [exact fresh_2_3_well_shaped|].
  eexists. split; [reflexivity|].
  apply (rewards_accumulate [(0%Z, 0%Z, "LIKE"%string); (1%Z, 0%Z, "COMMENT"%string)] (fresh 2 3) _
           [0.5; 1.5] fresh_2_3_well_shaped).
  reflexivity.
Defined.

(** [reset] after any run of calls of [step], whether they returned or
    raised, gives back the object [__init__] built. *)
Theorem reset_after_steps (e : env) (calls : list (Z * Z * string)) :
  well_shaped e ->
  reset (fst (steps e calls)) = (fresh (num_users e) (num_posts e), Return tt).
Proof.
  intros Hw. destruct (steps_well_shaped calls e Hw) as [H1 [H2 H3]].
  rewrite (reset_well_shaped _ H1), H2, H3. reflexivity.
Qed.

Lemma reset_after_steps_witness :
  well_shaped (fresh 2 3)
  /\ reset (fst (steps (fresh 2 3) [(0%Z, 0%Z, "LIKE"%string); (0%Z, 9%Z, "FOLLOW"%string)]))
     = (fresh 2 3, Return tt).
Proof.
  split; [exact fresh_2_3_well_shaped|].
  exact (reset_after_steps (fresh 2 3) [(0%Z, 0%Z, "LIKE"%string); (0%Z, 9%Z, "FOLLOW"%string)]
           fresh_2_3_well_shaped).
Defined.

Lemma position_wrap (n : nat) (i : Z) :
  (- Z.of_nat n <= i < 0)%Z -> position n (i + Z.of_nat n) = position n i.
Proof.
  intros Hi.
  destruct (position_in_range n i ltac:(lia)) as [k [-> [_ ->]]].
  destruct (position_in_range n (i + Z.of_nat n) ltac:(lia)) as [k' [-> [_ ->]]].
  f_equal. f_equal.
  rewrite <- (Z.mul_1_l (Z.of_nat n)) at 1.
  apply Z.mod_add. lia.
Qed.

Lemma position_wrap_by (n : nat) (i z : Z) :
  z = Z.of_nat n -> (- z <= i < 0)%Z -> position n (i + z) = position n i.
Proof. intros ->. apply position_wrap. Qed.

(** A negative index counts from the end: [step] with a user index [u]
    in [-num_users, 0) and a post index [p] in [-num_posts, 0) does what
    [step] does with [u + num_users] and [p + num_posts]. *)
Theorem step_negative_index (e : env) (u p : Z) (a : string) :
  well_shaped e ->
  (- num_users e <= u < 0)%Z -> (- num_posts e <= p < 0)%Z ->
  step e (u + num_users e) (p + num_posts e) a = step e u p a.
Proof.
  intros Hw Hu Hp.
  destruct Hw as [W1 [W2 [W3 [W4 [W5 [W6 [W7 W8]]]]]]].
  assert (Hul : num_users e = Z.of_nat (length (user_states e))) by (rewrite W4; lia).
  assert (Hpl : num_posts e = Z.of_nat (length (post_states e))) by (rewrite W5; lia).
  assert (Hrl : num_users e = Z.of_nat (length (rows (rewards e)))) by (rewrite W7; lia).
  assert (Hcl : num_posts e = Z.of_nat (ncols (rewards e))) by (rewrite W6; lia).
  assert (Au : forall x, add_at (user_states e) (u + num_users e) x
                         = add_at (user_states e) u x).
  { intros x. unfold add_at. rewrite (position_wrap_by _ _ _ Hul) by lia. reflexivity. }
  assert (Ap : forall x, add_at (post_states e) (p + num_posts e) x
                         = add_at (post_states e) p x).
  { intros x. unfold add_at. rewrite (position_wrap_by _ _ _ Hpl) by lia. reflexivity. }
  assert (A2 : forall m x, length (rows m) = length (rows (rewards e)) ->
                 ncols m = ncols (rewards e) ->
                 add_at2 m (u + num_users e) (p + num_posts e) x = add_at2 m u p x).
  { intros m x Hm1 Hm2. unfold add_at2. rewrite <- Hm1 in Hrl. rewrite <- Hm2 in Hcl.
    rewrite (position_wrap_by _ _ _ Hrl), (position_wrap_by _ _ _ Hcl) by lia.
    destruct (position_in_range (length (rows m)) u ltac:(lia)) as [r [-> _]].
    destruct (position_in_range (ncols m) p ltac:(lia)) as [c [-> _]].
    reflexivity. }
  unfold step.
  destruct (negb (existsb (String.eqb a) (actions e))); [reflexivity|].
  assert (Hd : dynamics e (u + num_users e) (p + num_posts e) a = dynamics e u p a).
  { unfold dynamics. rewrite !Au, !Ap. reflexivity. }
  rewrite Hd.
  destruct (dynamics e u p a) as [e1 o] eqn:Ed.
  destruct (dynamics_frame _ _ _ _ _ _ Ed) as [_ [_ [_ [H4 _]]]].
  destruct o as [[reward|]|x]; try reflexivity.
  rewrite A2 by (rewrite H4; reflexivity). reflexivity.
Qed.

Lemma step_negative_index_witness :
  well_shaped (fresh 2 3)
  /\ (- num_users (fresh 2 3) <= -1 < 0)%Z /\ (- num_posts (fresh 2 3) <= -3 < 0)%Z
  /\ step (fresh 2 3) (-1 + num_users (fresh 2 3)) (-3 + num_posts (fresh 2 3)) "SHARE"
     = step (fresh 2 3) (-1) (-3) "SHARE".
Proof.
  assert (Hu : (- num_users (fresh 2 3) <= -1 < 0)%Z) by (simpl; lia).
  assert (Hp : (- num_posts (fresh 2 3) <= -3 < 0)%Z) by (simpl; lia).
  split; [exact fresh_2_3_well_shaped|]. split; [exact Hu|]. split; [exact Hp|].
  exact (step_negative_index (fresh 2 3) (-1) (-3) "SHARE" fresh_2_3_well_shaped Hu Hp).
Defined.
